(** * Cricket 24 bowling lab: the delivery planning engine

    A shallow embedding of the two plan generators of the repository and of
    the helpers they rest on:

    - [Random], [StrategyMap], [DeliveryLogic], [OverLogic]: the library
      engine ([lib/random.ts], [lib/strategyMap.ts], [lib/deliveryLogic.ts],
      [lib/overLogic.ts]);
    - [Page]: the engine of the roster page ([hash32], [mulberry],
      [weightedChoice], the weight tables, [buildVariedPlan] and
      [buildSpellPlan]);
    - [Text], [Shuffle], [JsonLoader], [CsvLoader], [PlanPage],
      [RosterPage]: the loaders of the rosters ([lib/jsonLoader.ts],
      [lib/csvLoader.ts]), [shuffleInPlace] of [lib/random.ts], and the
      import, export and roster helpers of the two pages.

    JavaScript numbers are IEEE 754 doubles.  The library engine adds and
    compares fractional weights (1.5, 0.2, ...), so its numbers are Rocq's
    primitive binary64 floats.  Every weight of the page engine is an
    integer, and a stream value is [k / 2^32] for a 32-bit [k]: all of its
    arithmetic is exact in binary64, and its numbers are rationals.

    Strings are Rocq strings, one character per char code; the model reads
    them as ASCII (for such strings [charCodeAt] is the byte and
    [toLowerCase] only touches A-Z). *)

From Stdlib Require Import ZArith List String Ascii Bool Lia.
From Stdlib Require Import QArith Lqa Floats DecimalString.
From Stdlib Require Import Permutation DecimalNat.
Import ListNotations.

Set Warnings "-inexact-float".

Local Open Scope string_scope.
Local Open Scope Z_scope.

(* ================================================================== *)
(** ** JavaScript primitives *)

Module JS.

(** [ToUint32] and [ToInt32] on an integral number. *)
Definition toUint32 (z : Z) : Z := z mod 2 ^ 32.

Definition toInt32 (z : Z) : Z :=
  let u := z mod 2 ^ 32 in
  if u <? 2 ^ 31 then u else u - 2 ^ 32.

(** [Math.imul(a, b)] *)
Definition imul (a b : Z) : Z := toInt32 (toInt32 a * toInt32 b).

(** [a ^ b], [a | b], [a >>> n] *)
Definition xor (a b : Z) : Z := Z.lxor (toInt32 a) (toInt32 b).
Definition or (a b : Z) : Z := Z.lor (toInt32 a) (toInt32 b).
Definition ushr (a n : Z) : Z := Z.shiftr (toUint32 a) n.

(** [s.charCodeAt(i)] for every [i], in order. *)
Fixpoint charCodes (s : string) : list Z :=
  match s with
  | EmptyString => []
  | String c s' => Z.of_N (N_of_ascii c) :: charCodes s'
  end.

Definition lowerChar (c : ascii) : ascii :=
  let n := N_of_ascii c in
  if ((65 <=? n) && (n <=? 90))%N then ascii_of_N (n + 32) else c.

(** [s.toLowerCase()] *)
Fixpoint toLowerCase (s : string) : string :=
  match s with
  | EmptyString => EmptyString
  | String c s' => String (lowerChar c) (toLowerCase s')
  end.

(** [s.includes(needle)] *)
Fixpoint includes (s needle : string) : bool :=
  String.prefix needle s
  || match s with
     | EmptyString => false
     | String _ s' => includes s' needle
     end.

(** [`${n}`] for a natural number. *)
Definition showNat (n : nat) : string :=
  NilEmpty.string_of_uint (Nat.to_uint n).

(** The uint32 [k] as a double, and [k / 4294967296]. *)
Definition floatOfUint32 (k : Z) : float := PrimFloat.of_uint63 (Uint63.of_Z k).
Definition unitFloat (k : Z) : float := (floatOfUint32 k / 4294967296)%float.

End JS.

(* ================================================================== *)
(** ** types/cricket.ts *)

Module Cricket.

Inductive Arm := R | L.

Inductive BowlerType :=
| pace | fast | fast_medium | medium_fast | medium
| seam | swing
| off_spin | leg_spin
| left_arm_orthodox | left_arm_wrist_spin
| mystery | pace_spin_hybrid.

Definition bowlerTypeName (t : BowlerType) : string :=
  match t with
  | pace => "pace" | fast => "fast" | fast_medium => "fast-medium"
  | medium_fast => "medium-fast" | medium => "medium"
  | seam => "seam" | swing => "swing"
  | off_spin => "off-spin" | leg_spin => "leg-spin"
  | left_arm_orthodox => "left-arm orthodox"
  | left_arm_wrist_spin => "left-arm wrist-spin"
  | mystery => "mystery" | pace_spin_hybrid => "pace-spin-hybrid"
  end.

Inductive DeliveryType :=
| Standard | Slower | Outswing | Inswing | Cross_seam | Off_cutter
| Leg_cutter | Bouncer
| Off_break | Arm_ball | Leg_break | Googly | Top_spinner | Slider.

Inductive Length := Full | Good | Short | Yorker | Back_of_length.

Inductive Line :=
| Off_stump | Middle_stump | Leg_stump | Fourth_stump | Fifth_stump
| Outside_off | Wide_outside_off | At_body | Outside_leg.

Inductive PhaseId := powerplay | middle | death.
Inductive PitchType := Normal | Green | Dusty | Dry.

Scheme Equality for DeliveryType.
Scheme Equality for Length.
Scheme Equality for Line.

Definition deliveryTypeName (t : DeliveryType) : string :=
  match t with
  | Standard => "Standard" | Slower => "Slower" | Outswing => "Outswing"
  | Inswing => "Inswing" | Cross_seam => "Cross seam"
  | Off_cutter => "Off cutter" | Leg_cutter => "Leg cutter"
  | Bouncer => "Bouncer" | Off_break => "Off-break" | Arm_ball => "Arm ball"
  | Leg_break => "Leg-break" | Googly => "Googly"
  | Top_spinner => "Top-spinner" | Slider => "Slider"
  end.

Definition lengthName (l : Length) : string :=
  match l with
  | Full => "Full" | Good => "Good" | Short => "Short" | Yorker => "Yorker"
  | Back_of_length => "Back-of-length"
  end.

Definition lineName (n : Line) : string :=
  match n with
  | Off_stump => "Off stump" | Middle_stump => "Middle stump"
  | Leg_stump => "Leg stump" | Fourth_stump => "4th stump"
  | Fifth_stump => "5th stump" | Outside_off => "Outside off"
  | Wide_outside_off => "Wide outside off" | At_body => "At body"
  | Outside_leg => "Outside leg"
  end.

Definition phaseName (p : PhaseId) : string :=
  match p with powerplay => "powerplay" | middle => "middle" | death => "death" end.

Definition pitchName (p : PitchType) : string :=
  match p with Normal => "Normal" | Green => "Green" | Dusty => "Dusty" | Dry => "Dry" end.

(** The fields of [Bowler] the engine reads, and [name] and [arm], which
    it does not.  An absent [strengths] is the empty list: every reader
    writes [b.strengths || []]. *)
Record Bowler := {
  id : string;
  name : string;
  arm : Arm;
  type : BowlerType;
  strengths : list string;
}.

Record DeliveryPlanItem := {
  over : nat;
  dtype : DeliveryType;
  length : Length;
  line : Line;
  purpose : string;
}.

(** [Partial<DeliveryPlanItem>] *)
Record PartialItem := {
  p_over : option nat;
  p_type : option DeliveryType;
  p_length : option Length;
  p_line : option Line;
  p_purpose : option string;
}.

Definition LENGTHS : list Length := [Full; Good; Short; Yorker; Back_of_length].
Definition LINES : list Line :=
  [Off_stump; Middle_stump; Leg_stump; Fourth_stump; Fifth_stump;
   Outside_off; Wide_outside_off; At_body; Outside_leg].
Definition DELIVERY_TYPES_PACE : list DeliveryType :=
  [Standard; Slower; Outswing; Inswing; Cross_seam; Off_cutter; Leg_cutter; Bouncer].
Definition DELIVERY_TYPES_SPIN : list DeliveryType :=
  [Off_break; Arm_ball; Leg_break; Googly; Top_spinner; Slider].

End Cricket.

(* ================================================================== *)
(** ** lib/random.ts *)

Module Random.
Import JS.

(** The loop of [seedFromString] on the char codes of the string. *)
Definition seedStep (h c : Z) : Z := imul (xor h c) 16777619.

Definition seedFromCodes (cs : list Z) : Z :=
  toUint32 (fold_left seedStep cs (toUint32 2166136261)).

Definition seedFromString (s : string) : Z := seedFromCodes (charCodes s).

(** One call of the closure [mulberry32(a)] returns: the closure's
    variable [a] after the call and the 32-bit numerator of the value. *)
Definition mulberry32 (a : Z) : Z * Z :=
  let a := toInt32 a in
  let a := toInt32 (a + 1831565813) in
  let t := imul (xor a (ushr a 15)) (or 1 a) in
  let t := xor (t + imul (xor t (ushr t 7)) (or 61 t)) t in
  (a, toUint32 (xor t (ushr t 14))).

Definition rng (a : Z) : float * Z :=
  let '(a', k) := mulberry32 a in (unitFloat k, a').

Section PickWeighted.
Context {T : Type}.

(** The [for ... of] loop: [Some it] when it returns from inside. *)
Fixpoint pickLoop (r : float) (items : list (T * float)) : option T :=
  match items with
  | [] => None
  | (it, w) :: rest =>
      let r := (r - w)%float in
      if (r <=? 0)%float then Some it else pickLoop r rest
  end.

(** [None] is the TypeError of [items[items.length - 1][0]] on an
    empty list.  The stream is advanced before the loop in any case. *)
Definition pickWeighted (a : Z) (items : list (T * float)) : option (T * Z) :=
  let total := fold_left (fun s iw => (s + snd iw)%float) items 0%float in
  let '(u, a') := rng a in
  let r := (u * total)%float in
  match pickLoop r items with
  | Some it => Some (it, a')
  | None =>
      match nth_error items (List.length items - 1) with
      | Some (it, _) => Some (it, a')
      | None => None
      end
  end.
End PickWeighted.

End Random.

(* ================================================================== *)
(** ** lib/strategyMap.ts *)

Module StrategyMap.
Import JS Cricket.

(** [Weights<T>]: an object used as a map.  [Object.entries] lists its
    keys in insertion order, and assigning to a key it has keeps the
    key's place. *)
Definition Weights (K : Type) := list (K * float).

Section Table.
Context {K : Type} (eqb : K -> K -> bool).

Fixpoint get (k : K) (w : Weights K) : option float :=
  match w with
  | [] => None
  | (k', v) :: w' => if eqb k k' then Some v else get k w'
  end.

Fixpoint set (k : K) (v : float) (w : Weights K) : Weights K :=
  match w with
  | [] => [(k, v)]
  | (k', v') :: w' => if eqb k k' then (k', v) :: w' else (k', v') :: set k v w'
  end.

(** [w[k] = (w[k] ?? 1) + d] *)
Definition bump (k : K) (d : float) (w : Weights K) : Weights K :=
  set k (match get k w with Some v => v | None => 1 end + d)%float w.

(** [w[k]! += d]: an absent key reads as [undefined], and
    [undefined + d] is NaN. *)
Definition addTo (k : K) (d : float) (w : Weights K) : Weights K :=
  set k (match get k w with Some v => v | None => nan end + d)%float w.

(** [for (const k of keys) w[k] = v] *)
Definition setAll (keys : list K) (v : float) (w : Weights K) : Weights K :=
  fold_left (fun w k => set k v w) keys w.
End Table.

Definition when {A : Type} (c : bool) (f : A -> A) : A -> A :=
  if c then f else fun a => a.

Definition isSpin (b : Bowler) : bool := includes (bowlerTypeName (type b)) "spin".

Definition dbump := bump DeliveryType_beq.
Definition daddTo := addTo DeliveryType_beq.
Definition lenAdd := addTo Length_beq.
Definition lenBump := bump Length_beq.
Definition linAdd := addTo Line_beq.
Definition linBump := bump Line_beq.

Definition spinStrength (w : Weights DeliveryType) (s : string) : Weights DeliveryType :=
  let k := toLowerCase s in
  let w := when (includes k "arm") (dbump Arm_ball 1.5) w in
  let w := when (includes k "googly") (dbump Googly 1.5) w in
  let w := when (includes k "top") (dbump Top_spinner 1) w in
  w.

Definition paceStrength (w : Weights DeliveryType) (s : string) : Weights DeliveryType :=
  let k := toLowerCase s in
  let w := when (includes k "yorker") (daddTo Standard 0.2) w in
  let w := when (includes k "outswing") (dbump Outswing 1.5) w in
  let w := when (includes k "inswing") (dbump Inswing 1.5) w in
  let w := when (includes k "wobble" || includes k "seam") (dbump Cross_seam 1.2) w in
  let w := when (includes k "cutter")
             (fun w => dbump Leg_cutter 1.2 (dbump Off_cutter 1.2 w)) w in
  let w := when (includes k "bouncer") (dbump Bouncer 1.2) w in
  let w := when (includes k "slower") (dbump Slower 1.2) w in
  w.

Definition baseDeliveryWeights (b : Bowler) : Weights DeliveryType :=
  if isSpin b then
    fold_left spinStrength (strengths b)
      (setAll DeliveryType_beq DELIVERY_TYPES_SPIN 1 [])
  else
    fold_left paceStrength (strengths b)
      (setAll DeliveryType_beq DELIVERY_TYPES_PACE 1 []).

Definition baseLengthWeights (b : Bowler) (phase : PhaseId) : Weights Length :=
  let w := setAll Length_beq LENGTHS 1 [] in
  let w :=
    match phase with
    | powerplay => lenAdd Full 0.3 (lenAdd Back_of_length 0.3 (lenAdd Good 0.6 w))
    | middle => lenAdd Back_of_length 0.4 (lenAdd Good 0.4 w)
    | death => lenAdd Short 0.3 (lenAdd Full 0.5 (lenAdd Yorker 1.6 w))
    end in
  when (isSpin b) (lenAdd Good 0.4) w.

Definition baseLineWeights (b : Bowler) (phase : PhaseId) : Weights Line :=
  let w := setAll Line_beq LINES 0.5 [] in
  let w := linAdd Off_stump 0.8 w in
  let w := linAdd Middle_stump 0.6 w in
  let w := linAdd Fourth_stump 0.8 w in
  let w := linAdd Fifth_stump 0.5 w in
  let w :=
    match phase with
    | powerplay => linAdd Off_stump 0.3 (linAdd Fourth_stump 0.4 w)
    | death => linAdd At_body 0.4 (linAdd Outside_off 0.6 (linAdd Wide_outside_off 1.0 w))
    | middle => w
    end in
  when (isSpin b) (fun w => linAdd Leg_stump 0.3 (linAdd Outside_off 0.4 w)) w.

Record Pools := {
  delPool : Weights DeliveryType;
  lenPool : Weights Length;
  linPool : Weights Line;
}.

(** [applyPitchModifiers] updates the three tables it is handed; the
    three [if]s are on one value of [pitch], so one of them runs. *)
Definition applyPitchModifiers (w : Pools) (pitch : PitchType) : Pools :=
  match pitch with
  | Normal => w
  | Green =>
      {| delPool := dbump Cross_seam 0.6 (delPool w);
         lenPool := lenBump Back_of_length 0.5 (lenPool w);
         linPool := linPool w |}
  | Dusty =>
      {| delPool := dbump Leg_cutter 0.7 (dbump Off_cutter 0.7 (delPool w));
         lenPool := lenBump Full 0.2 (lenBump Good 0.4 (lenPool w));
         linPool := linPool w |}
  | Dry =>
      {| delPool := dbump Slower 0.4 (delPool w);
         lenPool := lenBump Yorker 0.5 (lenPool w);
         linPool := linBump Wide_outside_off 0.6 (linPool w) |}
  end.

Definition buildWeightedPools (b : Bowler) (phase : PhaseId) (pitch : PitchType) : Pools :=
  applyPitchModifiers
    {| delPool := baseDeliveryWeights b;
       lenPool := baseLengthWeights b phase;
       linPool := baseLineWeights b phase |}
    pitch.

End StrategyMap.

(* ================================================================== *)
(** ** lib/deliveryLogic.ts *)

Module DeliveryLogic.
Import JS Cricket Random StrategyMap.

(** The key [`${t}::${L}::${n}`]: no name contains [::], so the key is
    the triple. *)
Definition Triple : Type := DeliveryType * Length * Line.
Definition key (t : DeliveryType) (l : Length) (n : Line) : Triple := (t, l, n).

Definition Triple_beq (a b : Triple) : bool :=
  let '(t, l, n) := a in
  let '(t', l', n') := b in
  DeliveryType_beq t t' && Length_beq l l' && Line_beq n n'.

Definition isT (a b : DeliveryType) : bool := DeliveryType_beq a b.
Definition isL (a b : Length) : bool := Length_beq a b.
Definition isN (a b : Line) : bool := Line_beq a b.

Definition describePurpose (t : DeliveryType) (l : Length) (n : Line) (phase : PhaseId)
  : string :=
  if isL l Yorker && (isN n Outside_off || isN n Wide_outside_off) then
    "Wide yorker: deny leverage and force toe-end"
  else if isL l Yorker && (isN n Middle_stump || isN n Off_stump || isN n Leg_stump) then
    "At- stumps yorker: crush base of off/leg"
  else if isT t Bouncer || isL l Short then
    if isN n At_body then "Body bouncer: rush the hook/pull for top edge"
    else if isN n Off_stump then "Shoulder-high: glove/edge to ring"
    else "Change-up bouncer: upset length expectation"
  else if isT t Outswing && (isN n Fourth_stump || isN n Off_stump) then
    "Shape away at 4th/off stump: draw drive and outside edge"
  else if isT t Inswing && (isN n Middle_stump || isN n Leg_stump) then
    "Bring it in at the stumps: play across, LBW/bowled"
  else if isT t Cross_seam && (isL l Back_of_length || isL l Good) then
    "Cross seam into deck: variable bounce for miscues"
  else if isT t Off_cutter || isT t Leg_cutter then
    "Cutter into surface: grip/hold to beat timing"
  else if isT t Slower then
    "Deceive pace: hit toe/end or sky to deep"
  else if isT t Off_break && isN n Outside_off then
    "Tease drive with turn to slip/ring"
  else if isT t Arm_ball && (isN n Middle_stump || isN n Leg_stump) then
    "Skid on from arm ball: pad/wood threat"
  else if isT t Googly && (isN n Fourth_stump || isN n Off_stump) then
    "Wrong’un across bat face: inside edge/lbw"
  else if isT t Top_spinner then
    "Dip & extra bounce: bat-pad/close-in catch"
  else
    match phase with
    | death =>
        if isN n Outside_off || isN n Wide_outside_off then
          "Death plan: outside-off channel to protect legside power"
        else deliveryTypeName t ++ " • " ++ lengthName l ++ " at " ++ lineName n
    | powerplay =>
        if isN n Fourth_stump || isN n Off_stump then
          "New ball channel: challenge outside edge"
        else deliveryTypeName t ++ " • " ++ lengthName l ++ " at " ++ lineName n
    | middle => deliveryTypeName t ++ " • " ++ lengthName l ++ " at " ++ lineName n
    end.

Record Trap := {
  setup : list PartialItem;
  payoff : PartialItem;
}.

(** An object literal [{ type, length, line, purpose }] *)
Definition step (t : DeliveryType) (l : Length) (n : Line) (p : string) : PartialItem :=
  {| p_over := None; p_type := Some t; p_length := Some l; p_line := Some n;
     p_purpose := Some p |}.

Definition trapForPace (phase : PhaseId) : Trap :=
  match phase with
  | powerplay =>
      {| setup :=
           [ step Outswing Good Fourth_stump "Set-up: away shape to draw the drive";
             step Outswing Good Off_stump "Reinforce away channel" ];
         payoff := step Inswing Full Middle_stump "Payoff: in-ducker at pads/wood" |}
  | death =>
      {| setup :=
           [ step Standard Yorker Wide_outside_off "Set-up: wide yorker";
             step Standard Yorker Outside_off "Repeat wide yorker variant" ];
         payoff := step Bouncer Short At_body "Payoff: surprise bumper for top edge" |}
  | middle =>
      {| setup :=
           [ step Cross_seam Back_of_length Off_stump "Set-up: deck variation";
             step Slower Good Outside_off "Change pace and width" ];
         payoff := step Inswing Full Middle_stump "Payoff: in-line at stumps" |}
  end.

Definition trapForSpin (phase : PhaseId) : Trap :=
  match phase with
  | powerplay =>
      {| setup :=
           [ step Off_break Good Outside_off "Set-up: tease drive vs ring";
             step Top_spinner Good Off_stump "Dip & bounce to draw forward" ];
         payoff := step Arm_ball Full Middle_stump "Payoff: skid on to pad/wood" |}
  | death =>
      {| setup :=
           [ step Slider Good Outside_off "Flat & quick wide line";
             step Off_break Good Fourth_stump "Turn away to keep reaching" ];
         payoff := step Arm_ball Full Leg_stump "Payoff: beat across the line" |}
  | middle =>
      {| setup :=
           [ step Off_break Good Outside_off "Drive temptation with turn risk";
             step Googly Good Fourth_stump "Opposite turn threat" ];
         payoff := step Arm_ball Full Middle_stump "Skid on for lbw/bowled" |}
  end.

(** *** The state of one call and its monad

    A call of [generateDeliveries] owns the variable [a] of its stream
    closure and the set [used].  Two things can go wrong in JavaScript:
    reading [[0]] of [undefined] (an empty pool) throws, and a store
    past the end of [out] leaves holes in the array. *)
Inductive error := TypeError | SparseArray.

Inductive result (A : Type) :=
| Ok (a : A)
| Err (e : error).
Arguments Ok {A} a.
Arguments Err {A} e.

Record St := { rngState : Z; used : list Triple }.

Definition M (A : Type) : Type := St -> result (A * St).

Definition ret {A : Type} (a : A) : M A := fun st => Ok (a, st).

Definition bind {A B : Type} (m : M A) (f : A -> M B) : M B :=
  fun st =>
    match m st with
    | Ok (a, st') => f a st'
    | Err e => Err e
    end.

Definition throw {A : Type} (e : error) : M A := fun _ => Err e.

Notation "x <- m ;; k" := (bind m (fun x => k))
  (at level 61, m at next level, right associativity).

(** [used.has(k)] and [used.add(k)] *)
Definition has (k : Triple) : M bool :=
  fun st => Ok (existsb (Triple_beq k) (used st), st).

Definition add (k : Triple) : M unit :=
  fun st =>
    Ok (tt, {| rngState := rngState st;
               used := if existsb (Triple_beq k) (used st) then used st
                       else k :: used st |}).

(** [pickWeighted(rng, pool)] *)
Definition pick {T : Type} (pool : list (T * float)) : M T :=
  fun st =>
    match pickWeighted (rngState st) pool with
    | Some (x, a') => Ok (x, {| rngState := a'; used := used st |})
    | None => Err TypeError
    end.

(** [pool[0][0]] *)
Definition first {T : Type} (pool : list (T * float)) : M T :=
  match pool with
  | (x, _) :: _ => ret x
  | [] => throw TypeError
  end.

(** [(force?.f) ?? e] with [opt] the value of [force?.f] *)
Definition orElse {T : Type} (opt : option T) (e : M T) : M T :=
  match opt with
  | Some x => ret x
  | None => e
  end.

Definition field {T : Type} (force : option PartialItem) (f : PartialItem -> option T)
  : option T :=
  match force with
  | Some p => f p
  | None => None
  end.

(** [out[i] = x] *)
Definition store {A : Type} (out : list A) (i : nat) (x : A) : M (list A) :=
  if (i <? List.length out)%nat then ret (firstn i out ++ x :: skipn (S i) out)%list
  else if (i =? List.length out)%nat then ret (out ++ [x])%list
  else throw SparseArray.

Section Generate.
Variable phase : PhaseId.
Variable pools : Pools.

(** [drawUnique(force)]: [attempts] is the number of turns the
    [while] loop has left. *)
Fixpoint drawLoop (attempts : nat) (force : option PartialItem) : M DeliveryPlanItem :=
  match attempts with
  | S attempts' =>
      t <- orElse (field force p_type) (pick (delPool pools)) ;;
      L <- orElse (field force p_length) (pick (lenPool pools)) ;;
      n <- orElse (field force p_line) (pick (linPool pools)) ;;
      seen <- has (key t L n) ;;
      if negb seen then
        _ <- add (key t L n) ;;
        ret {| over := 1; dtype := t; length := L; line := n;
               purpose := match field force p_purpose with
                          | Some p => p
                          | None => describePurpose t L n phase
                          end |}
      else drawLoop attempts' force
  | O =>
      t <- first (delPool pools) ;;
      L <- first (lenPool pools) ;;
      n <- first (linPool pools) ;;
      ret {| over := 1; dtype := t; length := L; line := n;
             purpose := describePurpose t L n phase |}
  end.

Definition drawUnique (force : option PartialItem) : M DeliveryPlanItem :=
  drawLoop 200 force.

(** [for (let i = 0; i < balls; i++) out.push(drawUnique())] with
    [todo] turns left. *)
Fixpoint fill (todo : nat) (out : list DeliveryPlanItem) : M (list DeliveryPlanItem) :=
  match todo with
  | O => ret out
  | S todo' =>
      d <- drawUnique None ;;
      fill todo' (out ++ [d])%list
  end.

Definition trapStart (balls : nat) : nat :=
  Z.to_nat (Z.max 0 (Z.of_nat balls / 2 - 2)).

Definition insertTrap (trap : Trap) (balls : nat) (out : list DeliveryPlanItem)
  : M (list DeliveryPlanItem) :=
  if (6 <=? balls)%nat then
    let s := trapStart balls in
    d <- drawUnique (nth_error (setup trap) 0) ;;
    out <- store out s d ;;
    d <- drawUnique (nth_error (setup trap) 1) ;;
    out <- store out (s + 1) d ;;
    d <- drawUnique (Some (payoff trap)) ;;
    store out (s + 2) d
  else ret out.
End Generate.

Definition seedString (b : Bowler) (phase : PhaseId) (pitch : PitchType) (seedHint : string)
  : string :=
  id b ++ "|" ++ phaseName phase ++ "|" ++ pitchName pitch ++ "|" ++ seedHint.

Definition seedOf (b : Bowler) (phase : PhaseId) (pitch : PitchType) (seedHint : string)
  : Z :=
  seedFromString (seedString b phase pitch seedHint).

Definition generateDeliveries (b : Bowler) (balls : nat) (phase : PhaseId)
  (pitch : PitchType) (seedHint : string) : result (list DeliveryPlanItem) :=
  let seed := seedOf b phase pitch seedHint in
  let pools := buildWeightedPools b phase pitch in
  let trap := if isSpin b then trapForSpin phase else trapForPace phase in
  let run :=
    out <- fill phase pools balls [] ;;
    insertTrap phase pools trap balls out in
  match run {| rngState := seed; used := [] |} with
  | Ok (out, _) => Ok out
  | Err e => Err e
  end.

End DeliveryLogic.

(* ================================================================== *)
(** ** lib/overLogic.ts *)

Module OverLogic.
Import JS Cricket DeliveryLogic.

(** [seq.map((d, i) => ...)] from index [i] on *)
Fixpoint mapi {A B : Type} (f : A -> nat -> B) (i : nat) (l : list A) : list B :=
  match l with
  | [] => []
  | x :: l' => f x i :: mapi f (S i) l'
  end.

Definition stampOver (d : DeliveryPlanItem) (i : nat) : DeliveryPlanItem :=
  {| over := i / 6 + 1; dtype := dtype d; length := length d; line := line d;
     purpose := purpose d |}.

Definition buildOverPlan (b : Bowler) (overs : nat) (phase : PhaseId) (pitch : PitchType)
  : result (list DeliveryPlanItem) :=
  let totalBalls := (overs * 6)%nat in
  match generateDeliveries b totalBalls phase pitch ("ov:" ++ showNat overs) with
  | Ok seq => Ok (mapi stampOver 0 seq)
  | Err e => Err e
  end.

End OverLogic.

(* ================================================================== *)
(** ** The roster page: its own generator and the spell planner *)

Module Page.
Import JS.

Local Open Scope Q_scope.

Inductive Arm := R | L.

Inductive BowlerType :=
| pace | swing | seam | legspin | offspin | leftarm_pace | leftarm_spin.

Definition bowlerTypeName (t : BowlerType) : string :=
  match t with
  | pace => "pace" | swing => "swing" | seam => "seam" | legspin => "legspin"
  | offspin => "offspin" | leftarm_pace => "leftarm-pace"
  | leftarm_spin => "leftarm-spin"
  end.

Inductive PhaseId := powerplay | middle | death.
Inductive PitchType := Normal | Green | Dusty | Flat.

Definition phaseName (p : PhaseId) : string :=
  match p with powerplay => "powerplay" | middle => "middle" | death => "death" end.

Definition pitchName (p : PitchType) : string :=
  match p with Normal => "Normal" | Green => "Green" | Dusty => "Dusty" | Flat => "Flat" end.

(** The keys of the type tables: [PaceBall], [SpinBall] and the stray
    key ["wrong’un"] of [deriveSpinWeights]. *)
Inductive Ball :=
| outswing | inswing | seam_ball | cutter | slower_ball | knuckle | bouncer
| leg_break | googly | top_spinner | wrong_un | off_break | arm_ball | carrom.

Inductive Length :=
| short | back_of_length | good_length | full | yorker | yorker_ish.

Inductive Line :=
| outside_off | fourth_stump | off_stump | middle_line | leg_stump | at_body
| fourth_fifth_stump.

Scheme Equality for BowlerType.
Scheme Equality for Ball.
Scheme Equality for Length.
Scheme Equality for Line.

(** The strings the source writes for the constructors. *)
Definition ballName (k : Ball) : string :=
  match k with
  | outswing => "outswing" | inswing => "inswing" | seam_ball => "seam"
  | cutter => "cutter" | slower_ball => "slower ball" | knuckle => "knuckle"
  | bouncer => "bouncer" | leg_break => "leg-break" | googly => "googly"
  | top_spinner => "top-spinner" | wrong_un => "wrong’un" | off_break => "off-break"
  | arm_ball => "arm ball" | carrom => "carrom"
  end.

Definition lengthName (l : Length) : string :=
  match l with
  | short => "short" | back_of_length => "back of length"
  | good_length => "good length" | full => "full" | yorker => "yorker"
  | yorker_ish => "yorker-ish"
  end.

Definition lineName (n : Line) : string :=
  match n with
  | outside_off => "outside off" | fourth_stump => "4th stump"
  | off_stump => "off stump" | middle_line => "middle"
  | leg_stump => "leg stump" | at_body => "at body"
  | fourth_fifth_stump => "4th/5th stump"
  end.

Record Bowler := {
  id : string;
  name : string;
  type : BowlerType;
  arm : Arm;
  strengths : list string;
  strategies : string;
}.

Record DeliveryPlanItem := {
  over : nat;
  ball : nat;
  btype : Ball;
  length : Length;
  line : Line;
  pitchPurpose : string;
}.

(** *** RNG + choice *)

Definition hashStep (h c : Z) : Z := imul (xor h c) 16777619.

Definition hashCodes (cs : list Z) : Z :=
  toUint32 (fold_left hashStep cs (toUint32 2166136261)).

Definition hash32 (str : string) : Z := hashCodes (charCodes str).

(** One call of the closure [mulberry(seed)]: its variable [t] after the
    call and the 32-bit numerator of the value.  [t] starts at
    [seed >>> 0] and grows by [0x6d2b79f5] a call without wrapping; it is
    an exact double below [2^53], that is for the first 4.9 million
    calls. *)
Definition mulberry (t : Z) : Z * Z :=
  let t := (t + 1831565813)%Z in
  let r := imul (xor t (ushr t 15)) (or 1 t) in
  let r := xor r (r + imul (xor r (ushr r 7)) (or 61 r))%Z in
  (t, toUint32 (xor r (ushr r 14))).

(** The value [k / 4294967296] of a call. *)
Definition unitQ (k : Z) : Q := k # 4294967296.

Definition Qltb (x y : Q) : bool := negb (Qle_bool y x).
Definition Qmax0 (v : Q) : Q := if Qle_bool 0 v then v else 0.

Section WeightedChoice.
Context {T : Type} (eqb : T -> T -> bool).

Definition includesKey (l : list T) (k : T) : bool := existsb (eqb k) l.

Definition totalWeight (weights : list (T * Q)) (disallow : list T) : Q :=
  fold_left
    (fun total kv => if includesKey disallow (fst kv) then total
                     else total + Qmax0 (snd kv))
    weights 0.

Fixpoint chooseLoop (r : Q) (weights : list (T * Q)) (disallow : list T) : option T :=
  match weights with
  | [] => None
  | (key, val) :: rest =>
      if includesKey disallow key then chooseLoop r rest disallow
      else
        let w := Qmax0 val in
        if Qltb r w then Some key else chooseLoop (r - w) rest disallow
  end.

(** [weights] is [Object.entries(weights)]; an absent [disallow] is the
    empty list.  The result [None] is the [undefined] of
    [Object.keys(weights)[0]] on an object without keys. *)
Definition weightedChoice (t : Z) (weights : list (T * Q)) (disallow : list T)
  : option T * Z :=
  let total := totalWeight weights disallow in
  let '(t', k) := mulberry t in
  let r := unitQ k * total in
  match chooseLoop r weights disallow with
  | Some key => (Some key, t')
  | None => (option_map fst (nth_error weights 0), t')
  end.
End WeightedChoice.

(** *** Weight tables

    [Record<K, number>] built from a literal that names every key: a
    total map on [K], listed by [Object.entries] in the literal's order. *)
Definition Rec (K : Type) : Type := K -> Q.

Definition plus {K : Type} (eqb : K -> K -> bool) (k : K) (d : Q) (f : Rec K) : Rec K :=
  fun k' => if eqb k' k then f k' + d else f k'.

Definition entries {K : Type} (keys : list K) (f : Rec K) : list (K * Q) :=
  map (fun k => (k, f k)) keys.

Definition when {A : Type} (c : bool) (f : A -> A) : A -> A :=
  if c then f else fun a => a.

Definition isPhase (a b : PhaseId) : bool :=
  match a, b with
  | powerplay, powerplay | middle, middle | death, death => true
  | _, _ => false
  end.

Definition hasAny (strengths needles : list string) : bool :=
  let s := map toLowerCase strengths in
  existsb (fun n => existsb (fun x => includes x n) s) needles.

Inductive PacePrimary := pp_seam | pp_swing | pp_mixed.

Definition primaryPaceStyle (b : Bowler) (strengths : list string) : PacePrimary :=
  let s := map toLowerCase strengths in
  let seam_ := hasAny s ["seam"; "wobble"] in
  let swing_ := hasAny s ["swing"; "outswing"; "inswing"] in
  if seam_ && negb swing_ then pp_seam
  else if swing_ && negb seam_ then pp_swing
  else if seam_ && swing_ then pp_mixed
  else
    match type b with
    | seam => pp_seam
    | swing | leftarm_pace => pp_swing
    | _ => pp_mixed
    end.

Inductive SpinPrimary := sp_leg | sp_off | sp_mixed.

Definition primarySpinStyle (b : Bowler) (strengths : list string) : SpinPrimary :=
  let s := map toLowerCase strengths in
  let leg := hasAny s ["leg-break"; "leg break"; "googly"; "wrong"] in
  let off := hasAny s ["off-break"; "off break"; "arm ball"; "carrom"] in
  if leg && negb off then sp_leg
  else if off && negb leg then sp_off
  else if leg && off then sp_mixed
  else
    match type b with
    | legspin => sp_leg
    | offspin | leftarm_spin => sp_off
    | _ => sp_mixed
    end.

Definition paceKeys : list Ball :=
  [outswing; inswing; seam_ball; cutter; slower_ball; knuckle; bouncer].

Definition spinKeys : list Ball :=
  [leg_break; googly; top_spinner; wrong_un; off_break; arm_ball; carrom].

Definition bplus := plus Ball_beq.

Definition paceBase (phase : PhaseId) : Rec Ball :=
  fun k =>
    match k with
    | outswing => if isPhase phase powerplay then 10 else 4
    | inswing => if isPhase phase powerplay then 9 else 4
    | seam_ball => if isPhase phase middle then 14 else 10
    | cutter => if isPhase phase middle then 8 else 6
    | slower_ball => if isPhase phase middle then 8 else 9
    | knuckle => if isPhase phase death then 5 else 2
    | bouncer => if isPhase phase death then 8 else 6
    | _ => 0
    end.

Definition derivePaceWeights (b : Bowler) (phase : PhaseId) (pitch : PitchType)
  (strengthsIn : list string) (strategy : string) : list (Ball * Q) :=
  let strengths := map toLowerCase strengthsIn in
  let primary := primaryPaceStyle b strengths in
  let base := paceBase phase in
  let base :=
    match primary with
    | pp_seam =>
        bplus cutter 2 (bplus inswing 3 (bplus outswing 3 (bplus seam_ball 12 base)))
    | pp_swing => bplus seam_ball 4 (bplus inswing 10 (bplus outswing 10 base))
    | pp_mixed => bplus inswing 5 (bplus outswing 6 (bplus seam_ball 6 base))
    end in
  let base :=
    match pitch with
    | Green =>
        bplus bouncer 2 (bplus inswing 2 (bplus outswing 3 (bplus seam_ball 6 base)))
    | Dusty => bplus slower_ball 4 (bplus cutter 5 base)
    | Flat => bplus bouncer 1 (bplus knuckle 2 (bplus slower_ball 2 base))
    | Normal => base
    end in
  let base := when (match arm b with L => true | R => false end) (bplus inswing 2) base in
  let base := when (hasAny strengths ["wobble"; "seam"]) (bplus seam_ball 6) base in
  let base := when (hasAny strengths ["outswing"]) (bplus outswing 6) base in
  let base := when (hasAny strengths ["inswing"]) (bplus inswing 6) base in
  let base := when (hasAny strengths ["swing"])
                (fun w => bplus inswing 4 (bplus outswing 4 w)) base in
  let base := when (hasAny strengths ["cutter"]) (bplus cutter 6) base in
  let base := when (hasAny strengths ["slower"]) (bplus slower_ball 6) base in
  let base := when (hasAny strengths ["knuckle"]) (bplus knuckle 5) base in
  let base := when (hasAny strengths ["bouncer"]) (bplus bouncer 5) base in
  let s := toLowerCase strategy in
  let base := when (includes s "hard length" || includes s "4th stump")
                (fun w => bplus outswing 2 (bplus seam_ball 6 w)) base in
  let base := when (includes s "swing")
                (fun w => bplus inswing 3 (bplus outswing 3 w)) base in
  let base := when (includes s "bounce" || includes s "short") (bplus bouncer 4) base in
  let base := when (includes s "change" || includes s "variation" || includes s "cutter")
                (bplus cutter 4) base in
  entries paceKeys base.

(** Allowed delivery families by bowler type *)
Definition allowedTypesFor (b : Bowler) : list Ball :=
  match type b with
  | offspin | leftarm_spin => [off_break; arm_ball; carrom; top_spinner]
  | legspin => [leg_break; googly; top_spinner]
  | _ => [outswing; inswing; seam_ball; cutter; slower_ball; knuckle; bouncer]
  end.

Definition has (allowed : list Ball) (k : Ball) : bool := existsb (Ball_beq k) allowed.

Definition spinBase (phase : PhaseId) : Rec Ball :=
  fun k =>
    match k with
    | leg_break => 12
    | googly => if isPhase phase middle then 8 else 7
    | top_spinner => if isPhase phase powerplay then 8 else 7
    | wrong_un => if isPhase phase death then 7 else 6
    | off_break => 12
    | arm_ball => if isPhase phase powerplay then 9 else 7
    | carrom => if isPhase phase middle then 7 else 6
    | _ => 0
    end.

Definition deriveSpinWeights (b : Bowler) (phase : PhaseId) (pitch : PitchType)
  (strengthsIn : list string) (strategy : string) : list (Ball * Q) :=
  let strengths := map toLowerCase strengthsIn in
  let primary := primarySpinStyle b strengths in
  let base := spinBase phase in
  let base :=
    match primary with
    | sp_leg => bplus top_spinner 3 (bplus googly 8 (bplus leg_break 10 base))
    | sp_off => bplus carrom 3 (bplus arm_ball 8 (bplus off_break 10 base))
    | sp_mixed =>
        bplus arm_ball 4 (bplus googly 4 (bplus off_break 6 (bplus leg_break 6 base)))
    end in
  let base :=
    match pitch with
    | Dusty => bplus top_spinner 2 (bplus off_break 6 (bplus leg_break 6 base))
    | Green => bplus off_break 2 (bplus arm_ball 3 base)
    | Flat => bplus wrong_un 2 (bplus top_spinner 4 base)
    | Normal => base
    end in
  let base := when (hasAny strengths ["leg-break"; "leg break"]) (bplus leg_break 8) base in
  let base := when (hasAny strengths ["googly"]) (bplus googly 8) base in
  let base := when (hasAny strengths ["top-spinner"; "top spinner"])
                (bplus top_spinner 6) base in
  let base := when (hasAny strengths ["wrong"; "wrong’un"; "wrongun"])
                (bplus wrong_un 6) base in
  let base := when (hasAny strengths ["off-break"; "off break"]) (bplus off_break 8) base in
  let base := when (hasAny strengths ["arm ball"]) (bplus arm_ball 8) base in
  let base := when (hasAny strengths ["carrom"]) (bplus carrom 8) base in
  let st := toLowerCase strategy in
  let base := when (includes st "attack stumps")
                (fun w => bplus top_spinner 3 (bplus arm_ball 5 w)) base in
  let base := when (includes st "slip" || includes st "short" || includes st "third")
                (fun w => bplus top_spinner 2 (bplus off_break 3 (bplus leg_break 3 w)))
                base in
  let base := when (BowlerType_beq (type b) leftarm_spin)
                (fun w => bplus off_break 3 (bplus arm_ball 3 w)) base in
  let allowed := allowedTypesFor b in
  entries spinKeys (fun k => if has allowed k then base k else 0).

Definition isSpin (b : Bowler) : bool := includes (bowlerTypeName (type b)) "spin".

Definition lengthKeys : list Length :=
  [short; back_of_length; good_length; full; yorker; yorker_ish].

Definition lineKeys : list Line :=
  [outside_off; fourth_stump; off_stump; middle_line; leg_stump; at_body;
   fourth_fifth_stump].

Definition lplus := plus Length_beq.
Definition nplus := plus Line_beq.

Definition lengthWeightsFor (bowler : Bowler) (phase : PhaseId) (pitch : PitchType)
  : Rec Length :=
  let base : Rec Length :=
    fun k =>
      match k with
      | short => if isPhase phase death then 6 else 7
      | back_of_length => if isPhase phase powerplay then 8 else 9
      | good_length => 11
      | full => if isPhase phase powerplay then 9 else 8
      | yorker => if isPhase phase death then 14 else 3
      | yorker_ish => 5
      end in
  let base :=
    match pitch with
    | Green => lplus good_length 2 (lplus back_of_length 3 base)
    | Dusty => lplus full 1 (lplus back_of_length 2 base)
    | Flat => lplus good_length (-2) (lplus yorker 6 base)
    | Normal => base
    end in
  when (isSpin bowler)
    (fun w => lplus yorker_ish (-3) (lplus yorker (-6) (lplus short (-4) w))) base.

Definition lineWeightsFor (bowler : Bowler) (phase : PhaseId) (pitch : PitchType)
  : Rec Line :=
  let base : Rec Line :=
    fun k =>
      match k with
      | outside_off => 8
      | fourth_stump => 12
      | off_stump => 10
      | middle_line => 7
      | leg_stump => 6
      | at_body => if isPhase phase death then 8 else 6
      | fourth_fifth_stump => if isPhase phase death then 10 else 6
      end in
  let base :=
    if isSpin bowler then nplus outside_off 2 (nplus leg_stump 3 base)
    else nplus fourth_stump 2 base in
  when (match pitch with Flat => true | _ => false end)
    (fun w => nplus middle_line 1 (nplus fourth_fifth_stump 3 w)) base.

(** Every key of the type tables is named by one of the tests on
    [ballType], so the three rules after them are never reached. *)
Definition purposeFor (ballType : Ball) (line : Line) (length : Length) : string :=
  match length with
  | yorker =>
      if includes (lineName line) "4th" || Line_beq line outside_off
      then "deny arc; toe crusher"
      else "base of stumps / toes"
  | _ =>
      match ballType with
      | outswing => "draw drive, find edge"
      | inswing => "attack pads, bowled/LBW"
      | seam_ball => "nibble outside edge"
      | cutter => "hold in the pitch, mistime"
      | slower_ball => "beat swing, hit to field"
      | knuckle => "deceive pace, miscued loft"
      | bouncer => "push back, surprise top-edge"
      | leg_break => "draw drive, slip in play"
      | googly => "beat inside edge; LBW/bowled"
      | top_spinner => "extra bounce for splice"
      | wrong_un => "surprise wicket ball"
      | off_break => "drag to infield, catch"
      | arm_ball => "skid at stumps/pads"
      | carrom => "induce outside edge"
      end
  end.

(** *** buildVariedPlan *)

(** The per-ball clones.  [localType] loses keys, so it is the list of
    its entries; the other two keep every key. *)
Record Local := {
  localType : list (Ball * Q);
  localLength : Rec Length;
  localLine : Rec Line;
}.

Fixpoint getW (k : Ball) (w : list (Ball * Q)) : option Q :=
  match w with
  | [] => None
  | (k', v) :: w' => if Ball_beq k k' then Some v else getW k w'
  end.

Fixpoint setW (k : Ball) (v : Q) (w : list (Ball * Q)) : list (Ball * Q) :=
  match w with
  | [] => [(k, v)]
  | (k', v') :: w' => if Ball_beq k k' then (k', v) :: w' else (k', v') :: setW k v w'
  end.

(** [localType[k] = (localType[k] || 0) + d] *)
Definition tAdd (k : Ball) (d : Q) (l : Local) : Local :=
  {| localType := setW k (match getW k (localType l) with Some v => v | None => 0 end + d)
                    (localType l);
     localLength := localLength l;
     localLine := localLine l |}.

(** [if (localType[k] != null) localType[k] += d] *)
Definition tAddIfPresent (k : Ball) (d : Q) (l : Local) : Local :=
  match getW k (localType l) with
  | Some _ => tAdd k d l
  | None => l
  end.

(** [localLength[k] = (localLength[k] || 0) + d], and the same on
    [localLine]: the key is there, and [v || 0] is [v] for a number. *)
Definition lAdd (k : Length) (d : Q) (l : Local) : Local :=
  {| localType := localType l;
     localLength := lplus k d (localLength l);
     localLine := localLine l |}.

Definition nAdd (k : Line) (d : Q) (l : Local) : Local :=
  {| localType := localType l;
     localLength := localLength l;
     localLine := nplus k d (localLine l) |}.

(** Statements in source order. *)
Definition block (ops : list (Local -> Local)) (l : Local) : Local :=
  fold_left (fun l op => op l) ops l.

Definition isBall (ball n : nat) : bool := Nat.eqb ball n.

(** (A) Clamp delivery family to bowler type *)
Definition clampFamily (bowler : Bowler) (localType : list (Ball * Q)) : list (Ball * Q) :=
  let allowed := allowedTypesFor bowler in
  let kept := filter (fun kv => has allowed (fst kv)) localType in
  match kept with
  | [] => if isSpin bowler then [(off_break, 1)] else [(seam_ball, 1)]
  | _ => kept
  end.

(** (B) Phase-aware wicket-trap patterns (pace) + spinner pulses *)
Definition pacePulses (bowler : Bowler) (phase : PhaseId) (ball : nat) : Local -> Local :=
  let isPP := isPhase phase powerplay in
  let isMid := isPhase phase middle in
  let isDeath := isPhase phase death in
  block
    [ when (isBall ball 6 || (isDeath && (isBall ball 3 || isBall ball 6)))
        (block [lAdd yorker 10; nAdd fourth_fifth_stump 6; tAdd bouncer 2]);
      when (BowlerType_beq (type bowler) seam
            && ((isPP && (isBall ball 1 || isBall ball 2))
                || (isDeath && (isBall ball 3 || isBall ball 6))
                || isBall ball 6))
        (block [tAdd outswing 2; tAdd inswing 2]);
      if isPP then
        block
          [ when (isBall ball 1 || isBall ball 2)
              (block [tAdd outswing 5; tAdd inswing 3; lAdd full 5;
                      nAdd fourth_stump 5; nAdd off_stump 3]);
            when (isBall ball 3 || isBall ball 4)
              (block [tAdd seam_ball 3; lAdd back_of_length 3;
                      when (isBall ball 4)
                        (block [tAdd bouncer 3; lAdd short 3; nAdd at_body 4])]);
            when (isBall ball 5 || isBall ball 6)
              (block [lAdd yorker 6; nAdd fourth_fifth_stump 4; nAdd off_stump 2;
                      tAdd cutter 2; tAdd seam_ball 2]) ]
      else if isMid then
        block
          [ when (isBall ball 1 || isBall ball 2)
              (block [tAdd seam_ball 4; lAdd back_of_length 4; nAdd fourth_stump 3]);
            when (isBall ball 3 || isBall ball 4)
              (block [tAdd cutter 5; tAdd slower_ball 4; nAdd outside_off 3]);
            when (isBall ball 5) (block [tAdd bouncer 3; nAdd at_body 3]);
            when (isBall ball 6)
              (block [lAdd yorker 6; nAdd off_stump 3; nAdd fourth_fifth_stump 3]) ]
      else if isDeath then
        block
          [ when (isBall ball 1 || isBall ball 4)
              (block [lAdd yorker 8; nAdd fourth_fifth_stump 6]);
            when (isBall ball 2 || isBall ball 5)
              (block [tAdd bouncer 6; lAdd short 5; nAdd at_body 5]);
            when (isBall ball 3 || isBall ball 6)
              (block [lAdd yorker 8; nAdd off_stump 6]) ]
      else fun l => l ].

Definition spinPulses (ball : nat) : Local -> Local :=
  when (isBall ball 3 || isBall ball 6)
    (block [tAddIfPresent googly 6; tAddIfPresent top_spinner 4; tAddIfPresent arm_ball 3]).

(** The three tables ball number [ball] is drawn from. *)
Definition localTables (bowler : Bowler) (phase : PhaseId) (pitch : PitchType)
  (ball : nat) : Local :=
  let bStrengths := map toLowerCase (strengths bowler) in
  let bStrategy := toLowerCase (strategies bowler) in
  let ballWeights :=
    if isSpin bowler then deriveSpinWeights bowler phase pitch bStrengths bStrategy
    else derivePaceWeights bowler phase pitch bStrengths bStrategy in
  let l := {| localType := clampFamily bowler ballWeights;
              localLength := lengthWeightsFor bowler phase pitch;
              localLine := lineWeightsFor bowler phase pitch |} in
  if negb (isSpin bowler) then pacePulses bowler phase ball l else spinPulses ball l.

(** (C) Prevent 3-in-a-row of the same type *)
Definition disallowFor (recentTypes : list Ball) : list Ball :=
  let n := List.length recentTypes in
  if (2 <=? n)%nat then
    match nth_error recentTypes (n - 1), nth_error recentTypes (n - 2) with
    | Some last, Some prev => if Ball_beq last prev then [last] else []
    | _, _ => []
    end
  else [].

(** [recentTypes.push(ballType); if (recentTypes.length > 2) recentTypes.shift()] *)
Definition remember (recentTypes : list Ball) (ballType : Ball) : list Ball :=
  let r := (recentTypes ++ [ballType])%list in
  if (2 <? List.length r)%nat then tl r else r.

(** The double nearest to 0.6. *)
Definition point6 : Q := 5404319552844595 # 9007199254740992.

(** The coherence rules; [t] is the state of the stream, read only when
    a spinner's length is short. *)
Definition coherence (spin : bool) (ballType : Ball) (pickedLength : Length)
  (pickedLine : Line) (t : Z) : Length * Line * Z :=
  let pickedLine := if Ball_beq ballType bouncer then at_body else pickedLine in
  let '(pickedLength, t) :=
    if spin && Length_beq pickedLength short then
      let '(t', k) := mulberry t in
      (if Qltb (unitQ k) point6 then back_of_length else pickedLength, t')
    else (pickedLength, t) in
  let pickedLine :=
    if Length_beq pickedLength yorker then
      if negb (existsb (Line_beq pickedLine) [fourth_fifth_stump; off_stump; outside_off])
      then off_stump else pickedLine
    else pickedLine in
  (pickedLength, pickedLine, t).

(** One turn of the loop, for index [i]: the delivery, the stream and
    [recentTypes] after it.  [None]: a table without keys gave
    [undefined]. *)
Definition drawBall (bowler : Bowler) (phase : PhaseId) (pitch : PitchType)
  (i : nat) (t : Z) (recentTypes : list Ball)
  : option (DeliveryPlanItem * Z * list Ball) :=
  let over := (i / 6 + 1)%nat in
  let ball := (i mod 6 + 1)%nat in
  let l := localTables bowler phase pitch ball in
  let disallow := disallowFor recentTypes in
  let '(ballType, t) := weightedChoice Ball_beq t (localType l) disallow in
  match ballType with
  | None => None
  | Some ballType =>
      let recentTypes := remember recentTypes ballType in
      let '(pickedLength, t) :=
        weightedChoice Length_beq t (entries lengthKeys (localLength l)) [] in
      let '(pickedLine, t) :=
        weightedChoice Line_beq t (entries lineKeys (localLine l)) [] in
      match pickedLength, pickedLine with
      | Some pickedLength, Some pickedLine =>
          let '(pickedLength, pickedLine, t) :=
            coherence (isSpin bowler) ballType pickedLength pickedLine t in
          Some ({| over := over; ball := ball; btype := ballType;
                   length := pickedLength; line := pickedLine;
                   pitchPurpose := purposeFor ballType pickedLine pickedLength |},
                t, recentTypes)
      | _, _ => None
      end
  end.

(** [for (let i = ...; i < totalBalls; i++)] with [todo] turns left. *)
Fixpoint planLoop (bowler : Bowler) (phase : PhaseId) (pitch : PitchType)
  (todo i : nat) (t : Z) (recentTypes : list Ball) (plan : list DeliveryPlanItem)
  : option (list DeliveryPlanItem) :=
  match todo with
  | O => Some plan
  | S todo' =>
      match drawBall bowler phase pitch i t recentTypes with
      | Some (d, t', recentTypes') =>
          planLoop bowler phase pitch todo' (S i) t' recentTypes' (plan ++ [d])%list
      | None => None
      end
  end.

Definition seedString (bowler : Bowler) (overs : nat) (phase : PhaseId)
  (pitch : PitchType) (salt : string) : string :=
  (id bowler ++ "|" ++ phaseName phase ++ "|" ++ pitchName pitch ++ "|"
     ++ showNat overs ++ "|" ++ salt)%string.

Definition seedOf (bowler : Bowler) (overs : nat) (phase : PhaseId)
  (pitch : PitchType) (salt : string) : Z :=
  hash32 (seedString bowler overs phase pitch salt).

Definition buildVariedPlan (bowler : Bowler) (overs : nat) (phase : PhaseId)
  (pitch : PitchType) (salt : string) : option (list DeliveryPlanItem) :=
  let totalBalls := (Nat.max 1 overs * 6)%nat in
  let seed := seedOf bowler overs phase pitch salt in
  planLoop bowler phase pitch totalBalls 0 (toUint32 seed) [] [].

(** *** The spell planner *)

Record SpellItem := { bowlerId : string; overs : Z }.

Definition getBowlerById (roster : list Bowler) (i : string) : option Bowler :=
  find (fun b => String.eqb (id b) i) roster.

(** One [for] pass over [q]: the entries after it and the ids it pushed. *)
Fixpoint pass (q : list (string * nat)) : list (string * nat) * list string :=
  match q with
  | [] => ([], [])
  | (b, remaining) :: q' =>
      let '(q'', pushed) := pass q' in
      if (0 <? remaining)%nat then ((b, (remaining - 1)%nat) :: q'', b :: pushed)
      else ((b, remaining) :: q'', pushed)
  end.

(** The [while] loop, for at most [fuel] passes. *)
Fixpoint rounds (fuel : nat) (q : list (string * nat)) (order : list string)
  : option (list string) :=
  if existsb (fun x => (0 <? snd x)%nat) q then
    match fuel with
    | O => None
    | S fuel' =>
        let '(q', pushed) := pass q in
        rounds fuel' q' (order ++ pushed)%list
    end
  else Some order.

Definition remainingOf (s : list SpellItem) : list (string * nat) :=
  map (fun x => (bowlerId x, Z.to_nat (Z.max 0 (overs x)))) s.

Definition buildOrder (s : list SpellItem) : option (list string) :=
  let q := remainingOf s in
  rounds (list_sum (map snd q)) q [].

Definition restamp (overNum : nat) (p : DeliveryPlanItem) : DeliveryPlanItem :=
  {| over := overNum; ball := ball p; btype := btype p; length := length p;
     line := line p; pitchPurpose := pitchPurpose p |}.

Definition SpellPlan : Type := list DeliveryPlanItem * list (nat * string).

(** [order.forEach((bowlerId, idx) => ...)] from index [idx] on *)
Fixpoint forEachOver (roster : list Bowler) (ph : PhaseId) (pt : PitchType)
  (order : list string) (idx : nat) (acc : SpellPlan) : option SpellPlan :=
  match order with
  | [] => Some acc
  | bowlerId :: order' =>
      let overNum := (idx + 1)%nat in
      match getBowlerById roster bowlerId with
      | None => forEachOver roster ph pt order' (S idx) acc
      | Some b =>
          match buildVariedPlan b 1 ph pt ("over:" ++ showNat overNum)%string with
          | Some oneOver =>
              forEachOver roster ph pt order' (S idx)
                ((fst acc ++ map (restamp overNum) oneOver)%list,
                 (snd acc ++ [(overNum, bowlerId)])%list)
          | None => None
          end
      end
  end.

Definition buildSpellPlan (roster : list Bowler) (s : list SpellItem) (ph : PhaseId)
  (pt : PitchType) : option SpellPlan :=
  match buildOrder s with
  | Some order => forEachOver roster ph pt order 0 ([], [])
  | None => None
  end.

End Page.

(* ================================================================== *)
(** ** String methods of the loaders *)

Module Text.
Import JS.

Definition quote : ascii := "034"%char.
Definition comma : ascii := ","%char.
Definition semicolon : ascii := ";"%char.
Definition TAB : ascii := "009"%char.
Definition LF : ascii := "010"%char.
Definition CR : ascii := "013"%char.
Definition space : ascii := " "%char.

(** White space and line terminators among the char codes below 256:
    what [trim] strips and [\s] matches. *)
Definition isSpace (c : ascii) : bool :=
  let n := N_of_ascii c in
  (((9 <=? n) && (n <=? 13)) || (n =? 32) || (n =? 160))%N.

Fixpoint trimStart (s : string) : string :=
  match s with
  | EmptyString => EmptyString
  | String c s' => if isSpace c then trimStart s' else s
  end.

Fixpoint trimEnd (s : string) : string :=
  match s with
  | EmptyString => EmptyString
  | String c s' =>
      match trimEnd s' with
      | EmptyString => if isSpace c then EmptyString else String c EmptyString
      | t => String c t
      end
  end.

(** [s.trim()] *)
Definition trim (s : string) : string := trimEnd (trimStart s).

Definition upperChar (c : ascii) : ascii :=
  let n := N_of_ascii c in
  if ((97 <=? n) && (n <=? 122))%N then ascii_of_N (n - 32) else c.

(** [s.startsWith(p)] *)
Definition startsWith (s p : string) : bool := String.prefix p s.

(** Some character of [s] satisfies [p]: [/[p]/.test(s)]. *)
Fixpoint anyChar (p : ascii -> bool) (s : string) : bool :=
  match s with
  | EmptyString => false
  | String x s' => p x || anyChar p s'
  end.

(** [s.includes(c)] and [(s.match(/c/g) || []).length] for one character *)
Fixpoint hasChar (c : ascii) (s : string) : bool :=
  match s with
  | EmptyString => false
  | String x s' => Ascii.eqb x c || hasChar c s'
  end.

Fixpoint countChar (c : ascii) (s : string) : nat :=
  match s with
  | EmptyString => O
  | String x s' => ((if Ascii.eqb x c then 1 else 0) + countChar c s')%nat
  end.

(** [s.split(d)] for separators of one character: the pieces between the
    characters [d] holds of, at least one piece. *)
Fixpoint split (d : ascii -> bool) (s : string) : list string :=
  match s with
  | EmptyString => [EmptyString]
  | String c s' =>
      if d c then EmptyString :: split d s'
      else match split d s' with
           | w :: ws => String c w :: ws
           | [] => [String c EmptyString]
           end
  end.

(** [l.join(sep)] *)
Definition join (sep : string) (l : list string) : string := String.concat sep l.

(** [s.replace(/c/g, r)] for one character [c] *)
Fixpoint replaceChar (c : ascii) (r : string) (s : string) : string :=
  match s with
  | EmptyString => EmptyString
  | String x s' =>
      if Ascii.eqb x c then r ++ replaceChar c r s' else String x (replaceChar c r s')
  end.

(** [s.replace(/\s+/g, r)]: [inRun] says that the character before was
    white space, already replaced. *)
Fixpoint replaceRuns (inRun : bool) (r : string) (s : string) : string :=
  match s with
  | EmptyString => EmptyString
  | String c s' =>
      if isSpace c then
        if inRun then replaceRuns true r s' else r ++ replaceRuns true r s'
      else String c (replaceRuns false r s')
  end.

Definition replaceSpaces (r : string) (s : string) : string := replaceRuns false r s.

(** [s.replace(/\r\n/g, "\n")] *)
Fixpoint crlfToLf (s : string) : string :=
  match s with
  | EmptyString => EmptyString
  | String c s' =>
      if Ascii.eqb c CR then
        match s' with
        | String c' _ => if Ascii.eqb c' LF then crlfToLf s' else String c (crlfToLf s')
        | EmptyString => String c (crlfToLf s')
        end
      else String c (crlfToLf s')
  end.

(** A plain object with string values, as the list of its own
    properties in the order they were created. *)
Definition Obj : Type := list (string * string).

(** The value of the own property [k] of [o].  It is [o[k]] for every
    key but "__proto__", whose reading is the prototype of the object;
    the statements read no such key. *)
Fixpoint get (o : Obj) (k : string) : option string :=
  match o with
  | [] => None
  | (k', v) :: o' => if String.eqb k' k then Some v else get o' k
  end.

(** The own property [k] of [o] set to [v], created last when new. *)
Fixpoint put (o : Obj) (k v : string) : Obj :=
  match o with
  | [] => [(k, v)]
  | (k', v') :: o' => if String.eqb k' k then (k', v) :: o' else (k', v') :: put o' k v
  end.

(** The key that a plain object inherits as an accessor from
    [Object.prototype]. *)
Definition protoKey : string := "__proto__".

(** [o[k] = v] on an object made by [{}].  Under the key "__proto__" the
    assignment calls the setter of [Object.prototype], which ignores a
    value that is neither an object nor [null]: the object gets no
    property. *)
Definition set (o : Obj) (k v : string) : Obj :=
  if String.eqb k protoKey then o else put o k v.

End Text.

(* ================================================================== *)
(** ** lib/random.ts: shuffleInPlace *)

Module Shuffle.
Import JS Random.

(** [[arr[i], arr[j]] = [arr[j], arr[i]]] for [i] and [j] inside the array. *)
Definition swap {T : Type} (arr : list T) (i j : nat) : list T :=
  match nth_error arr i, nth_error arr j with
  | Some x, Some y =>
      let arr := (firstn i arr ++ y :: skipn (S i) arr)%list in
      (firstn j arr ++ x :: skipn (S j) arr)%list
  | _, _ => arr
  end.

(** [Math.floor(rng() * (i + 1))] for [rng] a closure of [mulberry32],
    the generator of the repository.  The stream value is [k / 2^32] with
    [k] below [2^32] and [i + 1] is below [2^21] for the arrays of the
    model, so the product is exact in binary64 and its floor is the
    quotient of the integers. *)
Definition index (k : Z) (i : nat) : nat := Z.to_nat (k * Z.of_nat (i + 1) / 2 ^ 32).

(** The loop [for (let i = arr.length - 1; i > 0; i--)] from [i] down:
    the stream variable and the array after it. *)
Fixpoint shuffleFrom {T : Type} (i : nat) (a : Z) (arr : list T) : Z * list T :=
  match i with
  | O => (a, arr)
  | S i' =>
      let '(a', k) := mulberry32 a in
      shuffleFrom i' a' (swap arr i (index k i))
  end.

Definition shuffleInPlace {T : Type} (a : Z) (arr : list T) : Z * list T :=
  shuffleFrom (List.length arr - 1) a arr.

End Shuffle.

(* ================================================================== *)
(** ** lib/jsonLoader.ts *)

Module JsonLoader.
Import JS Text Cricket.

(** The fields of a raw roster record the loader reads into the fields
    of [Bowler] the engine has.  A field is a string or absent ([null]
    or missing); [strengths] is an array of strings or absent. *)
Record Raw := {
  raw_id : option string;
  raw_name : option string;
  raw_arm : option string;
  raw_bowling_type : option string;
  raw_type : option string;
  raw_pace_spin : option string;
  raw_strengths : option (list string);
}.

(** [v || d]: an absent value and the empty string are falsy. *)
Definition orStr (v : option string) (d : string) : string :=
  match v with
  | Some (String c s) => String c s
  | _ => d
  end.

(** [v ?? d] *)
Definition nullish {A : Type} (v : option A) (d : A) : A :=
  match v with
  | Some x => x
  | None => d
  end.

Definition asArm (v : option string) : Arm :=
  let s := toLowerCase (orStr v "") in
  if startsWith s "r" then R
  else if startsWith s "l" then L
  else R.

Definition deriveType (raw : Raw) : BowlerType :=
  let bt := toLowerCase (orStr (raw_bowling_type raw) (orStr (raw_type raw) "")) in
  let ps := toLowerCase (orStr (raw_pace_spin raw) "") in
  if includes bt "off" then off_spin
  else if includes bt "leg" then leg_spin
  else if includes bt "wrist" then left_arm_wrist_spin
  else if includes bt "orthodox" then left_arm_orthodox
  else if includes bt "swing" then swing
  else if includes bt "seam" then seam
  else if includes bt "spin" then off_spin
  else if includes ps "mystery" then mystery
  else if includes ps "wrist" then left_arm_wrist_spin
  else if includes ps "orthodox" then left_arm_orthodox
  else if includes ps "fast" then fast
  else if includes ps "medium-fast" || includes ps "fast-medium" then fast_medium
  else pace.

(** The object literal of [arr.map]; [uuid] is what [crypto.randomUUID()]
    returns when it is called for this record. *)
Definition mapRaw (uuid : string) (r : Raw) : Bowler :=
  {| id := replaceSpaces "_"
             (toLowerCase (trim (nullish (raw_id r) (nullish (raw_name r) uuid))));
     name := trim (nullish (raw_name r) "Unknown");
     arm := asArm (raw_arm r);
     type := deriveType r;
     strengths := nullish (raw_strengths r) [] |}.

(** [dedup.has(k)] on the [Map], its entries in insertion order *)
Definition hasId (k : string) (dedup : list (string * Bowler)) : bool :=
  existsb (fun e => String.eqb (fst e) k) dedup.

(** [for (const b of mapped) if (!dedup.has(b.id)) dedup.set(b.id, b)] *)
Fixpoint dedupLoop (mapped : list Bowler) (dedup : list (string * Bowler))
  : list (string * Bowler) :=
  match mapped with
  | [] => dedup
  | b :: rest =>
      if hasId (id b) dedup then dedupLoop rest dedup
      else dedupLoop rest (dedup ++ [(id b, b)])%list
  end.

(** [parseJSONToBowlers] from the parsed array on: [uuid i] is the value
    of [crypto.randomUUID()] for the record at index [i]. *)
Definition bowlersOf (uuid : nat -> string) (arr : list Raw) : list Bowler :=
  let mapped := OverLogic.mapi (fun r i => mapRaw (uuid i) r) 0 arr in
  map snd (dedupLoop mapped []).

End JsonLoader.

(* ================================================================== *)
(** ** lib/csvLoader.ts *)

Module CsvLoader.
Import JS Text.

(** [safeStr(v)] for a string or an absent value *)
Definition safeStr (v : option string) : string :=
  match v with
  | Some s => trim s
  | None => ""
  end.

Definition normalizeArm (v : option string) : option Cricket.Arm :=
  let s := toLowerCase (safeStr v) in
  if String.eqb s "" then None
  else if startsWith s "r" then Some Cricket.R
  else if startsWith s "l" then Some Cricket.L
  else None.

(** [x => Boolean(x)] on strings *)
Definition nonEmpty (s : string) : bool := negb (String.eqb s "").

(** [toStringArray(v)] for an array of strings *)
Definition toStringArrayOfArray (v : list string) : list string :=
  filter nonEmpty (map trim v).

Inductive Format := ODI | T20I | Test.
Scheme Equality for Format.

(** [/^ipl\s*only$/i.test(s)] *)
Definition iplOnly (s : string) : bool :=
  match toLowerCase s with
  | String "i"%char (String "p"%char (String "l"%char rest)) =>
      String.eqb (trimStart rest) "only"
  | _ => false
  end.

(** The format one entry adds to the set, if any. *)
Definition formatOf (raw : string) : option Format :=
  let s := trim raw in
  if String.eqb s "" then None
  else if String.eqb (toLowerCase s) "test" then Some Test
  else if String.eqb (toLowerCase s) "odi" then Some ODI
  else if String.eqb (toLowerCase s) "t20" || String.eqb (toLowerCase s) "t20i"
  then Some T20I
  else if iplOnly s then Some T20I
  else None.

(** [out.add(k)] *)
Definition addFormat (out : list Format) (k : Format) : list Format :=
  if existsb (Format_beq k) out then out else (out ++ [k])%list.

(** [normalizeFormats] on the array [toStringArray] returned *)
Definition normalizeFormatsOf (a : list string) : option (list Format) :=
  match a with
  | [] => None
  | _ =>
      let out :=
        fold_left (fun out raw =>
                     match formatOf raw with
                     | Some k => addFormat out k
                     | None => out
                     end) a [] in
      let ordered := filter (fun k => existsb (Format_beq k) out) [T20I; ODI; Test] in
      match ordered with
      | [] => None
      | _ => Some ordered
      end
  end.

Definition normalizeFormats (v : list string) : option (list Format) :=
  normalizeFormatsOf (toStringArrayOfArray v).

(** The loop of [dedupeStrings]: the set [seen] and the array [out]. *)
Fixpoint dedupeLoop (arr : list string) (seen : list string) (out : list string)
  : list string :=
  match arr with
  | [] => out
  | s :: rest =>
      let k := trim s in
      if String.eqb k "" then dedupeLoop rest seen out
      else if negb (existsb (String.eqb (toLowerCase k)) seen)
      then dedupeLoop rest (toLowerCase k :: seen) (out ++ [k])%list
      else dedupeLoop rest seen out
  end.

Definition dedupeStrings (arr : list string) : list string := dedupeLoop arr [] [].

(** [/[A-Z]/.test(s)] *)
Fixpoint hasUpper (s : string) : bool :=
  match s with
  | EmptyString => false
  | String c s' =>
      let n := N_of_ascii c in
      ((65 <=? n) && (n <=? 90))%N || hasUpper s'
  end.

(** One word of [titleCase] *)
Definition titleWord (w : string) : string :=
  match w with
  | EmptyString => EmptyString
  | String c rest => if hasUpper rest then w else String (upperChar c) rest
  end.

Definition titleCase (s : string) : string :=
  join " " (map titleWord (split (Ascii.eqb space) s)).

(** The loop of [parseCsvLine] from the character at [i] on: [line] is
    the rest of the line. *)
Fixpoint parseLoop (line : string) (inQuotes : bool) (cur : string) (out : list string)
  : list string :=
  match line with
  | EmptyString => (out ++ [cur])%list
  | String ch rest =>
      if inQuotes then
        if Ascii.eqb ch quote then
          match rest with
          | String ch' rest' =>
              if Ascii.eqb ch' quote
              then parseLoop rest' true (cur ++ String quote "") out
              else parseLoop rest false cur out
          | EmptyString => parseLoop rest false cur out
          end
        else parseLoop rest true (cur ++ String ch "") out
      else if Ascii.eqb ch quote then parseLoop rest true cur out
      else if Ascii.eqb ch comma then parseLoop rest false "" (out ++ [cur])%list
      else parseLoop rest false (cur ++ String ch "") out
  end.

Definition parseCsvLine (line : string) : list string :=
  map trim (parseLoop line false "" []).

Definition splitCsv (csv : string) : list (list string) :=
  map parseCsvLine
    (filter nonEmpty (split (Ascii.eqb LF) (crlfToLf csv))).

End CsvLoader.

(* ================================================================== *)
(** ** The plan page: export *)

Module PlanPage.
Import JS Text.

(** A row as [toCSV] reads it: [r c] is the string of [r[c]], absent
    when the property is missing or [null]. *)
Definition Row : Type := string -> option string.

(** [esc(r[c])] from [String(s ?? "")] on *)
Definition esc (v : string) : string :=
  if hasChar quote v || hasChar comma v || hasChar LF v
  then String quote (replaceChar quote (String quote (String quote "")) v
                     ++ String quote "")
  else v.

Definition cells (columns : list string) (r : Row) : list string :=
  map (fun c => JsonLoader.nullish (r c) "") columns.

Definition toCSV (rows : list Row) (columns : list string) : string :=
  join (String LF "")
    (join "," columns :: map (fun r => join "," (map esc (cells columns r))) rows).

End PlanPage.

(* ================================================================== *)
(** ** The roster page: import, export and the roster helpers *)

Module RosterPage.
Import JS Text.

(** [text.split(/\r?\n/)[0]] *)
Fixpoint firstLine (s : string) : string :=
  match s with
  | EmptyString => EmptyString
  | String c s' =>
      if Ascii.eqb c LF then EmptyString
      else if Ascii.eqb c CR && startsWith s' (String LF "") then EmptyString
      else String c (firstLine s')
  end.

(** [counts.sort((a, b) => b.c - a.c)]: the sort is stable. *)
Fixpoint insertDesc (x : ascii * nat) (l : list (ascii * nat)) : list (ascii * nat) :=
  match l with
  | [] => [x]
  | y :: l' => if (snd y <? snd x)%nat then x :: l else y :: insertDesc x l'
  end.

Definition sortDesc (l : list (ascii * nat)) : list (ascii * nat) :=
  fold_left (fun acc x => insertDesc x acc) l [].

Definition detectDelimiter (text : string) : ascii :=
  let line := firstLine text in
  let counts :=
    sortDesc [ (comma, countChar comma line);
               (semicolon, countChar semicolon line);
               (TAB, countChar TAB line) ] in
  match counts with
  | (d, c) :: _ => if (0 <? c)%nat then d else comma
  | [] => comma
  end.

(** The character loop of [parseCSVRobust] from the character at [i]
    on: [text] is the rest of the text. *)
Fixpoint scan (delim : ascii) (text : string) (inQuotes : bool) (field : string)
  (row : list string) (rows : list (list string)) : list (list string) :=
  match text with
  | EmptyString =>
      if (0 <? String.length field)%nat || (0 <? List.length row)%nat
      then (rows ++ [(row ++ [field])%list])%list
      else rows
  | String ch rest =>
      if inQuotes then
        if Ascii.eqb ch quote then
          match rest with
          | String ch' rest' =>
              if Ascii.eqb ch' quote
              then scan delim rest' true (field ++ String quote "") row rows
              else scan delim rest false field row rows
          | EmptyString => scan delim rest false field row rows
          end
        else scan delim rest true (field ++ String ch "") row rows
      else if Ascii.eqb ch quote then scan delim rest true field row rows
      else if Ascii.eqb ch delim then scan delim rest false "" (row ++ [field])%list rows
      else if Ascii.eqb ch LF
      then scan delim rest false "" [] (rows ++ [(row ++ [field])%list])%list
      else scan delim rest false (field ++ String ch "") row rows
  end.

(** [.replace(/\r\n/g, "\n").replace(/\r/g, "\n")] *)
Definition normalizeNewlines (s : string) : string :=
  replaceChar CR (String LF "") (crlfToLf s).

(** [clean]: of the four characters it deletes only U+00A0 is a char
    code below 256. *)
Definition clean (s : string) : string := trim (replaceChar "160"%char "" s).

(** [header.forEach((h, idx) => (obj[h] = clean(String(r[idx] ?? ""))))] *)
Fixpoint objectOf (header : list string) (r : list string) (obj : Obj) : Obj :=
  match header with
  | [] => obj
  | h :: header' =>
      objectOf header' (tl r) (set obj h (clean (JsonLoader.nullish (hd_error r) "")))
  end.

(** The text is a string of char codes below 256, so the test for a byte
    order mark, [text.charCodeAt(0) === 0xfeff], fails. *)
Definition parseCSVRobust (csvText : string) : list Obj :=
  let text := normalizeNewlines csvText in
  let delim := detectDelimiter text in
  match scan delim text false "" [] [] with
  | [] => []
  | header :: body =>
      let header := map clean header in
      map (fun r => objectOf header r [])
        (filter (fun r => existsb (fun c => (0 <? String.length (trim c))%nat) r) body)
  end.

(** [map.set(b.id, b)] on the [Map], its entries in insertion order *)
Fixpoint mapSet (m : list (string * Page.Bowler)) (b : Page.Bowler)
  : list (string * Page.Bowler) :=
  match m with
  | [] => [(Page.id b, b)]
  | (k, v) :: m' =>
      if String.eqb k (Page.id b) then (k, b) :: m' else (k, v) :: mapSet m' b
  end.

Definition mergeRoster (existing incoming : list Page.Bowler) : list Page.Bowler :=
  let map0 := fold_left mapSet existing [] in
  let map1 := fold_left mapSet incoming map0 in
  map snd map1.

Definition esc (s : string) : string :=
  if hasChar quote s || hasChar comma s || hasChar LF s
  then String quote (replaceChar quote (String quote (String quote "")) s
                     ++ String quote "")
  else s.

Definition toCSV (rows : list PlanPage.Row) (columns : list string) : string :=
  let header := join "," columns in
  let body :=
    join (String LF "")
      (map (fun r => join "," (map esc (PlanPage.cells columns r))) rows) in
  header ++ String LF "" ++ body.

(** [{ ...b, id }] *)
Definition withId (b : Page.Bowler) (i : string) : Page.Bowler :=
  {| Page.id := i; Page.name := Page.name b; Page.type := Page.type b;
     Page.arm := Page.arm b; Page.strengths := Page.strengths b;
     Page.strategies := Page.strategies b |}.

(** [(b.id && b.id.trim()) || b.name.toLowerCase().replace(/\s+/g, "_")] *)
Definition baseOf (b : Page.Bowler) : string :=
  let v := if CsvLoader.nonEmpty (Page.id b) then trim (Page.id b) else Page.id b in
  if CsvLoader.nonEmpty v then v
  else replaceSpaces "_" (toLowerCase (Page.name b)).

(** [seen.get(k) || 0] and [seen.set(k, n)] on the [Map] of counts.  The
    record [collisions] is kept as the list of its own properties, which
    [countGet] reads too, with 0 for a key that is no own property. *)
Fixpoint countGet (seen : list (string * nat)) (k : string) : nat :=
  match seen with
  | [] => O
  | (k', n) :: seen' => if String.eqb k' k then n else countGet seen' k
  end.

Fixpoint countSet (seen : list (string * nat)) (k : string) (n : nat)
  : list (string * nat) :=
  match seen with
  | [] => [(k, n)]
  | (k', n') :: seen' =>
      if String.eqb k' k then (k', n) :: seen' else (k', n') :: countSet seen' k n
  end.

(** [collisions[k] = n] on the record, an object made by [{}]: under the
    key "__proto__" the assignment calls the setter of
    [Object.prototype], which ignores a number, and the record gets no
    property. *)
Definition recordSet (collisions : list (string * nat)) (k : string) (n : nat)
  : list (string * nat) :=
  if String.eqb k protoKey then collisions else countSet collisions k n.

(** The loop of [dedupeAndFixIds]. *)
Fixpoint fixLoop (l : list Page.Bowler) (seen : list (string * nat))
  (out : list Page.Bowler) (collisions : list (string * nat))
  : list Page.Bowler * list (string * nat) :=
  match l with
  | [] => (out, collisions)
  | b :: rest =>
      let base := baseOf b in
      let n := (countGet seen base + 1)%nat in
      let seen := countSet seen base n in
      if (n =? 1)%nat then fixLoop rest seen (out ++ [withId b base])%list collisions
      else
        let newId := base ++ "-" ++ showNat n in
        fixLoop rest seen (out ++ [withId b newId])%list (recordSet collisions base n)
  end.

Definition dedupeAndFixIds (l : list Page.Bowler)
  : list Page.Bowler * list (string * nat) :=
  fixLoop l [] [] [].

(** [totalSpellOvers] *)
Definition totalSpellOvers (s : list Page.SpellItem) : Z :=
  fold_left (fun sum x => sum + Z.max 0 (Page.overs x)) s 0.

End RosterPage.


(* ================================================================== *)
(** * The vocabulary of the statements *)

(** The hash as the specification words it, FNV-1a on unsigned 32-bit
    values: start from the offset basis; for each code, XOR it in, then
    multiply by the FNV prime, modulo [2^32]. *)
Definition fnv1a32 (codes : list Z) : Z :=
  fold_left (fun h c => (Z.lxor h c * 16777619) mod 2 ^ 32) codes 2166136261.

(** The key of a delivery. *)
Definition tripleOf (d : Cricket.DeliveryPlanItem) : DeliveryLogic.Triple :=
  DeliveryLogic.key (Cricket.dtype d) (Cricket.length d) (Cricket.line d).

(** The triple of the fallback at the end of [drawUnique]: the first
    entry of each pool. *)
Definition fallbackTriple (pools : StrategyMap.Pools) : option DeliveryLogic.Triple :=
  match StrategyMap.delPool pools, StrategyMap.lenPool pools, StrategyMap.linPool pools with
  | (t, _) :: _, (l, _) :: _, (n, _) :: _ => Some (t, l, n)
  | _, _, _ => None
  end.

(** A value that is the forced one, or else comes from the pool. *)
Definition from {T : Type} (forced : option T) (pool : list T) (x : T) : Prop :=
  match forced with
  | Some y => x = y
  | None => In x pool
  end.

(** [out] with index [i] replaced: the in-range case of [store]. *)
Definition replaceAt {A : Type} (i : nat) (x : A) (out : list A) : list A :=
  (firstn i out ++ x :: skipn (S i) out)%list.

(** Index [i] is not one of the three slots the trap overwrites. *)
Definition outsideTrap (balls i : nat) : Prop :=
  (balls < 6)%nat
  \/ (i < DeliveryLogic.trapStart balls)%nat
  \/ (DeliveryLogic.trapStart balls + 2 < i)%nat.

(** The trap of a call: [isSpin ? trapForSpin(phase) : trapForPace(phase)]. *)
Definition trapOf (b : Cricket.Bowler) (phase : Cricket.PhaseId) : DeliveryLogic.Trap :=
  if StrategyMap.isSpin b then DeliveryLogic.trapForSpin phase
  else DeliveryLogic.trapForPace phase.

(** The state a call starts in: the stream at the seed, nothing used. *)
Definition startState (b : Cricket.Bowler) (phase : Cricket.PhaseId)
  (pitch : Cricket.PitchType) (seedHint : string) : DeliveryLogic.St :=
  {| DeliveryLogic.rngState := DeliveryLogic.seedOf b phase pitch seedHint;
     DeliveryLogic.used := [] |}.

(** What the library composer returns once its stream starts at [seed]:
    the fill loop, then the trap insertion, from a state in which no
    triple is used yet. *)
Definition composedFrom (seed : Z) (b : Cricket.Bowler) (balls : nat)
  (phase : Cricket.PhaseId) (pitch : Cricket.PitchType)
  : DeliveryLogic.result (list Cricket.DeliveryPlanItem) :=
  let pools := StrategyMap.buildWeightedPools b phase pitch in
  match DeliveryLogic.bind (DeliveryLogic.fill phase pools balls [])
          (fun out => DeliveryLogic.insertTrap phase pools (trapOf b phase) balls out)
          {| DeliveryLogic.rngState := seed; DeliveryLogic.used := [] |} with
  | DeliveryLogic.Ok (out, _) => DeliveryLogic.Ok out
  | DeliveryLogic.Err e => DeliveryLogic.Err e
  end.

(** The triple a trap step forces. *)
Definition forcedTriple (p : Cricket.PartialItem) : option DeliveryLogic.Triple :=
  match Cricket.p_type p, Cricket.p_length p, Cricket.p_line p with
  | Some t, Some l, Some n => Some (t, l, n)
  | _, _, _ => None
  end.

(** The three forced steps of a trap, in the order they are written. *)
Definition trapSteps (trap : DeliveryLogic.Trap) : list Cricket.PartialItem :=
  (DeliveryLogic.setup trap ++ [DeliveryLogic.payoff trap])%list.

(** The leg-spin family of the claim, written with the delivery types of
    the library engine: the family [Page.allowedTypesFor] gives a leg
    spinner. *)
Definition legSpinFamily : list Cricket.DeliveryType :=
  [Cricket.Leg_break; Cricket.Googly; Cricket.Top_spinner].

(** The lines a yorker may keep. *)
Definition yorkerLines : list Page.Line :=
  [Page.fourth_fifth_stump; Page.off_stump; Page.outside_off].

(** The delivery at index [i] of a plan, composed when the stream is at
    [t] and the last types are [recent]; [sampledLength] is the length
    it samples and [t'] the stream after it.  Type, length and line are
    sampled in this order from the tables of the ball.  The type is the
    sampled one.  For a spinner a sampled short
    length reads one more value of the stream and becomes back of length
    when that value is below 0.6; every other length is the sampled one
    and reads nothing.  The line of a bouncer is at the body, and the line
    of a yorker that is not one of the yorker lines is off stump. *)
Definition composedAt (bowler : Page.Bowler) (phase : Page.PhaseId) (pitch : Page.PitchType)
  (i : nat) (t : Z) (recent : list Page.Ball) (sampledLength : Page.Length)
  (d : Page.DeliveryPlanItem) (t' : Z) : Prop :=
  exists sampledType sampledLine t1 t2 t3,
    let tables := Page.localTables bowler phase pitch (i mod 6 + 1) in
    Page.weightedChoice Page.Ball_beq t (Page.localType tables) (Page.disallowFor recent)
    = (Some sampledType, t1)
    /\ Page.weightedChoice Page.Length_beq t1
         (Page.entries Page.lengthKeys (Page.localLength tables)) []
       = (Some sampledLength, t2)
    /\ Page.weightedChoice Page.Line_beq t2
         (Page.entries Page.lineKeys (Page.localLine tables)) []
       = (Some sampledLine, t3)
    /\ Page.btype d = sampledType
    /\ (if Page.isSpin bowler && Page.Length_beq sampledLength Page.short
        then Page.length d
             = (if Page.Qltb (Page.unitQ (snd (Page.mulberry t3))) Page.point6
                then Page.back_of_length else Page.short)
             /\ t' = fst (Page.mulberry t3)
        else Page.length d = sampledLength /\ t' = t3)
    /\ Page.line d
       = (let n := if Page.Ball_beq sampledType Page.bouncer then Page.at_body
                   else sampledLine in
          if Page.Length_beq (Page.length d) Page.yorker
          then if existsb (Page.Line_beq n) yorkerLines then n else Page.off_stump
          else n).

(** An alternative to [t] with positive weight is in the type table of
    the ball at index [i]. *)
Definition alternativeAt (bowler : Page.Bowler) (phase : Page.PhaseId)
  (pitch : Page.PitchType) (i : nat) (t : Page.Ball) : Prop :=
  exists k v,
    In (k, v) (Page.localType (Page.localTables bowler phase pitch (i mod 6 + 1)))
    /\ k <> t /\ (0 < v)%Q.

(** The six deliveries of the over at position [k] (from 0) of a plan. *)
Definition overBlock (k : nat) (plan : list Page.DeliveryPlanItem)
  : list Page.DeliveryPlanItem :=
  firstn 6 (skipn (6 * k) plan).

(** The bowler an id stands for: the first bowler of the roster with
    that id. *)
Definition firstWithId (roster : list Page.Bowler) (i : string) (b : Page.Bowler) : Prop :=
  exists before after,
    roster = (before ++ b :: after)%list
    /\ Page.id b = i
    /\ forall b', In b' before -> Page.id b' <> i.

(** Round-robin as the claim words it.  Scan [j] (from 0) of the list
    takes one over from each item that has overs left, that is from each
    item with more than [j] overs, in the order of the list; the scans
    follow each other until no item has overs left. *)
Definition roundOf (s : list Page.SpellItem) (j : nat) : list string :=
  map Page.bowlerId (filter (fun x => Z.of_nat j <? Page.overs x) s).

Definition mostOvers (s : list Page.SpellItem) : nat :=
  fold_right (fun x m => Nat.max (Z.to_nat (Page.overs x)) m) 0%nat s.

Definition roundRobin (s : list Page.SpellItem) : list string :=
  List.concat (map (roundOf s) (seq 0 (mostOvers s))).

(** The over at position [k] (from 0) of a plan is one over of
    [buildVariedPlan] for the bowler the id stands for, salted with the
    over number [k + 1]: its six deliveries sit at the indices [6 * k]
    to [6 * k + 5], each with the over number [k + 1] and every other
    field as composed. *)
Definition scheduled (roster : list Page.Bowler) (ph : Page.PhaseId) (pt : Page.PitchType)
  (plan : list Page.DeliveryPlanItem) (k : nat) (bowlerId : string) : Prop :=
  exists b oneOver,
    firstWithId roster bowlerId b
    /\ Page.buildVariedPlan b 1 ph pt ("over:" ++ JS.showNat (k + 1)) = Some oneOver
    /\ List.length oneOver = 6%nat
    /\ forall j d0,
         nth_error oneOver j = Some d0 ->
         exists d,
           nth_error plan (6 * k + j) = Some d
           /\ Page.over d = (k + 1)%nat
           /\ Page.ball d = Page.ball d0
           /\ Page.btype d = Page.btype d0
           /\ Page.length d = Page.length d0
           /\ Page.line d = Page.line d0
           /\ Page.pitchPurpose d = Page.pitchPurpose d0.

(** ** Checks that run *)

Definition checkOk {A : Type} (r : DeliveryLogic.result A) (f : A -> bool) : bool :=
  match r with
  | DeliveryLogic.Ok a => f a
  | DeliveryLogic.Err _ => false
  end.

Definition typeAt (out : list Cricket.DeliveryPlanItem) (i : nat)
  : option Cricket.DeliveryType :=
  option_map Cricket.dtype (nth_error out i).

Definition sameTripleAt (out : list Cricket.DeliveryPlanItem) (i j : nat) : bool :=
  match nth_error out i, nth_error out j with
  | Some di, Some dj => DeliveryLogic.Triple_beq (tripleOf di) (tripleOf dj)
  | _, _ => false
  end.

(** Three deliveries in a row, from index [i], with the type [t]. *)
Definition threeOf (t : Cricket.DeliveryType) (out : list Cricket.DeliveryPlanItem) (i : nat)
  : bool :=
  match typeAt out i, typeAt out (i + 1), typeAt out (i + 2) with
  | Some a, Some b, Some c =>
      Cricket.DeliveryType_beq a t && Cricket.DeliveryType_beq b t
      && Cricket.DeliveryType_beq c t
  | _, _, _ => false
  end.

(** A text of ASCII characters: every char code is below 128.  On such
    a text [toLowerCase] changes the letters A-Z only and [toUpperCase]
    the letters a-z only, each to one character, as [JS.toLowerCase] and
    [Text.upperChar] have it. *)
Definition isAscii (s : string) : bool :=
  forallb (fun c => c <? 128) (JS.charCodes s).

(** ** Bowlers of the examples *)

Definition kumble : Cricket.Bowler :=
  {| Cricket.id := "anil_kumble"; Cricket.name := "Anil Kumble"; Cricket.arm := Cricket.R;
     Cricket.type := Cricket.leg_spin; Cricket.strengths := ["Googly"; "Top spin"] |}.

Definition kumble_renamed : Cricket.Bowler :=
  {| Cricket.id := "anil_kumble"; Cricket.name := "A. Kumble"; Cricket.arm := Cricket.L;
     Cricket.type := Cricket.leg_spin; Cricket.strengths := ["Googly"; "Top spin"] |}.

Definition kumble_plain : Cricket.Bowler :=
  {| Cricket.id := "anil_kumble"; Cricket.name := "Anil Kumble"; Cricket.arm := Cricket.R;
     Cricket.type := Cricket.leg_spin; Cricket.strengths := [] |}.

Definition nehra : Cricket.Bowler :=
  {| Cricket.id := "ashish_nehra"; Cricket.name := "Ashish Nehra"; Cricket.arm := Cricket.L;
     Cricket.type := Cricket.pace; Cricket.strengths := [] |}.

Definition kumble_page : Page.Bowler :=
  {| Page.id := "anil_kumble"; Page.name := "Anil Kumble"; Page.type := Page.legspin;
     Page.arm := Page.R; Page.strengths := []; Page.strategies := "" |}.

Definition bumrah : Page.Bowler :=
  {| Page.id := "jasprit_bumrah"; Page.name := "Jasprit Bumrah"; Page.type := Page.pace;
     Page.arm := Page.R;
     Page.strengths := ["Yorkers"; "Hard 4th stump"; "Wobble seam"];
     Page.strategies :=
       "New ball: hard length 4th stump. Death: yorker > bouncer > wide yorker. Vary pace with cutters." |}.

(* ================================================================== *)
(** * Properties *)

(** ** 32-bit arithmetic *)

Section Int32Facts.
Import JS.

Lemma toUint32_range z : 0 <= toUint32 z < 2 ^ 32.
Proof. unfold toUint32. apply Z.mod_pos_bound. lia. Qed.

Lemma toUint32_toInt32 z : toUint32 (toInt32 z) = toUint32 z.
Proof.
  unfold toInt32, toUint32.
  destruct (z mod 2 ^ 32 <? 2 ^ 31).
  - apply Z.mod_mod. lia.
  - replace (z mod 2 ^ 32 - 2 ^ 32) with (z mod 2 ^ 32 + (-1) * 2 ^ 32) by ring.
    rewrite Z.mod_add by lia. apply Z.mod_mod. lia.
Qed.

Lemma toUint32_small z : 0 <= z < 2 ^ 32 -> toUint32 z = z.
Proof. intros H. unfold toUint32. apply Z.mod_small. exact H. Qed.

Lemma toUint32_land z : toUint32 z = Z.land z (Z.ones 32).
Proof. unfold toUint32. rewrite Z.land_ones by lia. reflexivity. Qed.

Lemma toUint32_lxor a b :
  toUint32 (Z.lxor a b) = Z.lxor (toUint32 a) (toUint32 b).
Proof.
  rewrite !toUint32_land. apply Z.bits_inj'. intros n Hn.
  rewrite Z.lxor_spec, !Z.land_spec, Z.lxor_spec.
  destruct (Z.testbit (Z.ones 32) n);
    rewrite ?andb_true_r, ?andb_false_r; reflexivity.
Qed.

Lemma toUint32_xor a b : toUint32 (xor a b) = Z.lxor (toUint32 a) (toUint32 b).
Proof. unfold xor. rewrite toUint32_lxor, !toUint32_toInt32. reflexivity. Qed.

Lemma toUint32_imul a b : toUint32 (imul a b) = (toUint32 a * toUint32 b) mod 2 ^ 32.
Proof.
  unfold imul. rewrite toUint32_toInt32. unfold toUint32 at 1.
  rewrite Z.mul_mod by lia.
  fold (toUint32 (toInt32 a)). fold (toUint32 (toInt32 b)).
  rewrite !toUint32_toInt32. reflexivity.
Qed.

Lemma charCodes_range s : Forall (fun c => 0 <= c < 2 ^ 32) (charCodes s).
Proof.
  induction s as [|c s IH]; simpl; constructor; auto.
  pose proof (N_ascii_bounded c) as Hc.
  change (2 ^ 32) with 4294967296. lia.
Qed.

End Int32Facts.

(** ** The seed *)

Section SeedFacts.
Import JS.

Lemma fnv_fold (step : Z -> Z -> Z) :
  (forall h c, 0 <= c < 2 ^ 32 ->
     toUint32 (step h c) = (Z.lxor (toUint32 h) c * 16777619) mod 2 ^ 32) ->
  forall cs h,
    Forall (fun c => 0 <= c < 2 ^ 32) cs ->
    toUint32 (fold_left step cs h) =
    fold_left (fun h c => (Z.lxor h c * 16777619) mod 2 ^ 32) cs (toUint32 h).
Proof.
  intros Hstep cs. induction cs as [|c cs IH]; intros h Hcs; simpl.
  - reflexivity.
  - inversion Hcs as [|? ? Hc Hcs']; subst.
    rewrite IH by assumption. rewrite Hstep by assumption. reflexivity.
Qed.

Lemma imul_xor_step h c :
  0 <= c < 2 ^ 32 ->
  toUint32 (imul (xor h c) 16777619) = (Z.lxor (toUint32 h) c * 16777619) mod 2 ^ 32.
Proof.
  intros Hc. rewrite toUint32_imul, toUint32_xor.
  rewrite (toUint32_small c) by assumption.
  rewrite (toUint32_small 16777619) by lia. reflexivity.
Qed.

Lemma seedFromCodes_fnv cs :
  Forall (fun c => 0 <= c < 2 ^ 32) cs -> Random.seedFromCodes cs = fnv1a32 cs.
Proof.
  intros Hcs. unfold Random.seedFromCodes, fnv1a32.
  rewrite (fnv_fold Random.seedStep);
    [reflexivity | intros; apply imul_xor_step; assumption | assumption].
Qed.

Lemma hashCodes_fnv cs :
  Forall (fun c => 0 <= c < 2 ^ 32) cs -> Page.hashCodes cs = fnv1a32 cs.
Proof.
  intros Hcs. unfold Page.hashCodes, fnv1a32.
  rewrite (fnv_fold Page.hashStep);
    [reflexivity | intros; apply imul_xor_step; assumption | assumption].
Qed.

Lemma fnv1a32_range cs : 0 <= fnv1a32 cs < 2 ^ 32.
Proof.
  unfold fnv1a32.
  assert (H : forall h, 0 <= h < 2 ^ 32 ->
            0 <= fold_left (fun h c => (Z.lxor h c * 16777619) mod 2 ^ 32) cs h < 2 ^ 32).
  { induction cs as [|c cs IH]; intros h Hh; simpl; [exact Hh|].
    apply IH. apply Z.mod_pos_bound. lia. }
  apply H. lia.
Qed.

End SeedFacts.

(** The published FNV-1a test vectors for "a" and "foobar". *)
Example seedFromString_a : Random.seedFromString "a" = 3826002220.
Proof. reflexivity. Qed.

Example hash32_foobar : Page.hash32 "foobar" = 3214735720.
Proof. reflexivity. Qed.

(** C7.  The seed of a call is the 32-bit FNV-1a hash of a string joined
    with "|".  A call of the page composer [buildVariedPlan] starts its
    stream at the hash of bowler id, phase, pitch, over count and salt.
    A call of the library composer [generateDeliveries] starts its stream
    at the hash of bowler id, phase, pitch and salt: its ball count is
    no part of the string, and the over count is in it only when the
    caller puts it in the salt, as [buildOverPlan] does with "ov:" and its
    over count.  Both seeds are unsigned 32-bit numbers, and equal strings
    give equal seeds. *)
Theorem seed_is_fnv1a_of_concatenation :
  (forall b overs phase pitch salt,
     Page.buildVariedPlan b overs phase pitch salt =
     Page.planLoop b phase pitch (Nat.max 1 overs * 6) 0
       (fnv1a32 (JS.charCodes
          (Page.id b ++ "|" ++ Page.phaseName phase ++ "|" ++ Page.pitchName pitch
             ++ "|" ++ JS.showNat overs ++ "|" ++ salt)))
       [] [])
  /\ (forall b balls phase pitch seedHint,
        DeliveryLogic.generateDeliveries b balls phase pitch seedHint =
        composedFrom
          (fnv1a32 (JS.charCodes
             (Cricket.id b ++ "|" ++ Cricket.phaseName phase ++ "|"
                ++ Cricket.pitchName pitch ++ "|" ++ seedHint)))
          b balls phase pitch)
  /\ (forall b overs phase pitch,
        OverLogic.buildOverPlan b overs phase pitch =
        match composedFrom
                (fnv1a32 (JS.charCodes
                   (Cricket.id b ++ "|" ++ Cricket.phaseName phase ++ "|"
                      ++ Cricket.pitchName pitch ++ "|" ++ "ov:" ++ JS.showNat overs)))
                b (overs * 6) phase pitch with
        | DeliveryLogic.Ok seq => DeliveryLogic.Ok (OverLogic.mapi OverLogic.stampOver 0 seq)
        | DeliveryLogic.Err e => DeliveryLogic.Err e
        end)
  /\ (forall b phase pitch seedHint,
        0 <= DeliveryLogic.seedOf b phase pitch seedHint < 2 ^ 32)
  /\ (forall b overs phase pitch salt, 0 <= Page.seedOf b overs phase pitch salt < 2 ^ 32)
  /\ (forall b1 ph1 pt1 h1 b2 ph2 pt2 h2,
        DeliveryLogic.seedString b1 ph1 pt1 h1 = DeliveryLogic.seedString b2 ph2 pt2 h2 ->
        DeliveryLogic.seedOf b1 ph1 pt1 h1 = DeliveryLogic.seedOf b2 ph2 pt2 h2)
  /\ (forall b1 o1 ph1 pt1 s1 b2 o2 ph2 pt2 s2,
        Page.seedString b1 o1 ph1 pt1 s1 = Page.seedString b2 o2 ph2 pt2 s2 ->
        Page.seedOf b1 o1 ph1 pt1 s1 = Page.seedOf b2 o2 ph2 pt2 s2).
Proof.
  assert (HL : forall s, Random.seedFromString s = fnv1a32 (JS.charCodes s)).
  { intros s. apply seedFromCodes_fnv, charCodes_range. }
  assert (HP : forall s, Page.hash32 s = fnv1a32 (JS.charCodes s)).
  { intros s. apply hashCodes_fnv, charCodes_range. }
  assert (HG : forall b balls phase pitch seedHint,
             DeliveryLogic.generateDeliveries b balls phase pitch seedHint =
             composedFrom
               (fnv1a32 (JS.charCodes
                  (Cricket.id b ++ "|" ++ Cricket.phaseName phase ++ "|"
                     ++ Cricket.pitchName pitch ++ "|" ++ seedHint)))
               b balls phase pitch).
  { intros. unfold DeliveryLogic.generateDeliveries, DeliveryLogic.seedOf, composedFrom.
    rewrite HL. reflexivity. }
  repeat split.
  - intros. unfold Page.buildVariedPlan, Page.seedOf. rewrite HP.
    rewrite toUint32_small by apply fnv1a32_range. reflexivity.
  - exact HG.
  - intros. unfold OverLogic.buildOverPlan. rewrite HG. reflexivity.
  - unfold DeliveryLogic.seedOf. rewrite HL. apply fnv1a32_range.
  - unfold DeliveryLogic.seedOf. rewrite HL. apply fnv1a32_range.
  - unfold Page.seedOf. rewrite HP. apply fnv1a32_range.
  - unfold Page.seedOf. rewrite HP. apply fnv1a32_range.
  - intros * H. unfold DeliveryLogic.seedOf. rewrite H. reflexivity.
  - intros * H. unfold Page.seedOf. rewrite H. reflexivity.
Qed.

(** The claim puts the over count into the hashed string of every call.
    Two calls of [generateDeliveries] for the same bowler, phase, pitch
    and salt, one for 6 balls (one over) and one for 12 (two overs), start
    their streams at one and the same seed, the hash of
    "ashish_nehra|middle|Normal|s", which is the hash of neither string
    with the over count in it; the strings with the over counts 1 and 2
    have different hashes.  Both calls return, and with the same first
    delivery. *)
Lemma library_seed_ignores_the_ball_count :
  let seed := fnv1a32 (JS.charCodes "ashish_nehra|middle|Normal|s") in
  DeliveryLogic.generateDeliveries nehra 6 Cricket.middle Cricket.Normal "s"
  = composedFrom seed nehra 6 Cricket.middle Cricket.Normal
  /\ DeliveryLogic.generateDeliveries nehra 12 Cricket.middle Cricket.Normal "s"
     = composedFrom seed nehra 12 Cricket.middle Cricket.Normal
  /\ seed <> fnv1a32 (JS.charCodes "ashish_nehra|middle|Normal|1|s")
  /\ seed <> fnv1a32 (JS.charCodes "ashish_nehra|middle|Normal|2|s")
  /\ fnv1a32 (JS.charCodes "ashish_nehra|middle|Normal|1|s")
     <> fnv1a32 (JS.charCodes "ashish_nehra|middle|Normal|2|s")
  /\ exists one two d,
       DeliveryLogic.generateDeliveries nehra 6 Cricket.middle Cricket.Normal "s"
       = DeliveryLogic.Ok one
       /\ DeliveryLogic.generateDeliveries nehra 12 Cricket.middle Cricket.Normal "s"
          = DeliveryLogic.Ok two
       /\ List.length one = 6%nat
       /\ List.length two = 12%nat
       /\ nth_error one 0 = Some d
       /\ nth_error two 0 = Some d.
Proof.
  cbv zeta. split; [vm_compute; reflexivity|]. split; [vm_compute; reflexivity|].
  split; [vm_compute; discriminate|]. split; [vm_compute; discriminate|].
  split; [vm_compute; discriminate|].
  destruct (DeliveryLogic.generateDeliveries nehra 6 Cricket.middle Cricket.Normal "s")
    as [one|e] eqn:E1; [|vm_compute in E1; discriminate].
  destruct (DeliveryLogic.generateDeliveries nehra 12 Cricket.middle Cricket.Normal "s")
    as [two|e] eqn:E2; [|vm_compute in E2; discriminate].
  vm_compute in E1. vm_compute in E2.
  inversion E1; subst one. inversion E2; subst two.
  eexists _, _, _. repeat split.
Qed.

(** ** Weight tables of the library engine *)

Section TableFacts.
Import StrategyMap.
Context {K : Type} (eqb : K -> K -> bool).
Hypothesis eqb_eq : forall a b, eqb a b = true <-> a = b.

Definition keys (w : Weights K) : list K := map fst w.

Lemma set_keys_in k v w : In k (keys w) -> keys (set eqb k v w) = keys w.
Proof.
  induction w as [|[k' v'] w IH]; simpl; intros Hin.
  - contradiction.
  - destruct (eqb k k') eqn:E; simpl.
    + reflexivity.
    + f_equal. apply IH. destruct Hin as [Hk|Hin]; [|exact Hin].
      subst k'. assert (eqb k k = true) by (apply eqb_eq; reflexivity). congruence.
Qed.

Lemma set_keys_new k v w : ~ In k (keys w) -> keys (set eqb k v w) = (keys w ++ [k])%list.
Proof.
  induction w as [|[k' v'] w IH]; simpl; intros Hin.
  - reflexivity.
  - destruct (eqb k k') eqn:E; simpl.
    + apply eqb_eq in E. subst k'. exfalso. apply Hin. left. reflexivity.
    + f_equal. apply IH. intros H. apply Hin. right. exact H.
Qed.

Lemma bump_keys_in k d w : In k (keys w) -> keys (bump eqb k d w) = keys w.
Proof. apply set_keys_in. Qed.

Lemma addTo_keys_in k d w : In k (keys w) -> keys (addTo eqb k d w) = keys w.
Proof. apply set_keys_in. Qed.

Lemma setAll_keys ks v :
  NoDup ks -> keys (setAll eqb ks v []) = ks.
Proof.
  unfold setAll.
  assert (H : forall w, NoDup (keys w ++ ks) ->
            keys (fold_left (fun w k => set eqb k v w) ks w) = (keys w ++ ks)%list).
  { induction ks as [|k ks IH]; intros w Hnd; simpl.
    - rewrite app_nil_r. reflexivity.
    - rewrite IH.
      + rewrite set_keys_new, <- app_assoc; [reflexivity|].
        apply NoDup_remove_2 in Hnd. intros Hin. apply Hnd.
        apply in_or_app. left. exact Hin.
      + rewrite set_keys_new, <- app_assoc; [exact Hnd|].
        apply NoDup_remove_2 in Hnd. intros Hin. apply Hnd.
        apply in_or_app. left. exact Hin. }
  intros Hnd. apply (H []). exact Hnd.
Qed.

End TableFacts.

Section PoolFacts.
Import JS Cricket StrategyMap.

Lemma DeliveryType_beq_eq a b : DeliveryType_beq a b = true <-> a = b.
Proof.
  split; [apply internal_DeliveryType_dec_bl | apply internal_DeliveryType_dec_lb].
Qed.

Lemma Length_beq_eq a b : Length_beq a b = true <-> a = b.
Proof. split; [apply internal_Length_dec_bl | apply internal_Length_dec_lb]. Qed.

Lemma Line_beq_eq a b : Line_beq a b = true <-> a = b.
Proof. split; [apply internal_Line_dec_bl | apply internal_Line_dec_lb]. Qed.

Ltac keep_keys :=
  repeat first
    [ progress unfold when, dbump, daddTo, lenAdd, lenBump, linAdd, linBump
    | match goal with
      | |- context [if ?c then _ else _] => destruct c
      end
    | rewrite (bump_keys_in _ DeliveryType_beq_eq)
    | rewrite (addTo_keys_in _ DeliveryType_beq_eq)
    | rewrite (bump_keys_in _ Length_beq_eq)
    | rewrite (addTo_keys_in _ Length_beq_eq)
    | rewrite (bump_keys_in _ Line_beq_eq)
    | rewrite (addTo_keys_in _ Line_beq_eq) ].

Lemma spinStrength_keys w s :
  keys w = DELIVERY_TYPES_SPIN -> keys (spinStrength w s) = DELIVERY_TYPES_SPIN.
Proof.
  intros H. unfold spinStrength.
  keep_keys; rewrite ?H; try reflexivity; simpl; tauto.
Qed.

Lemma paceStrength_keys w s :
  keys w = DELIVERY_TYPES_PACE -> keys (paceStrength w s) = DELIVERY_TYPES_PACE.
Proof.
  intros H. unfold paceStrength.
  keep_keys; rewrite ?H; try reflexivity; simpl; tauto.
Qed.

Lemma fold_strength_keys (f : Weights DeliveryType -> string -> Weights DeliveryType) ks :
  (forall w s, keys w = ks -> keys (f w s) = ks) ->
  forall ss w, keys w = ks -> keys (fold_left f ss w) = ks.
Proof.
  intros Hf ss. induction ss as [|s ss IH]; intros w Hw; simpl; auto.
Qed.

Lemma baseDeliveryWeights_keys b :
  keys (baseDeliveryWeights b) =
  if isSpin b then DELIVERY_TYPES_SPIN else DELIVERY_TYPES_PACE.
Proof.
  unfold baseDeliveryWeights. destruct (isSpin b).
  - apply fold_strength_keys; [apply spinStrength_keys | reflexivity].
  - apply fold_strength_keys; [apply paceStrength_keys | reflexivity].
Qed.

Lemma baseLengthWeights_keys b phase : keys (baseLengthWeights b phase) = LENGTHS.
Proof.
  unfold baseLengthWeights. destruct phase, (isSpin b); reflexivity.
Qed.

Lemma baseLineWeights_keys b phase : keys (baseLineWeights b phase) = LINES.
Proof.
  unfold baseLineWeights. destruct phase, (isSpin b); reflexivity.
Qed.

End PoolFacts.

Section BuiltPools.
Import JS Cricket StrategyMap.

Ltac bumped eq base :=
  repeat first [rewrite (bump_keys_in _ eq) | rewrite base];
  try reflexivity; simpl; tauto.

Lemma pools_lenPool_keys b phase pitch :
  keys (lenPool (buildWeightedPools b phase pitch)) = LENGTHS.
Proof.
  unfold buildWeightedPools, applyPitchModifiers, lenBump.
  destruct pitch; cbn [lenPool]; bumped Length_beq_eq baseLengthWeights_keys.
Qed.

Lemma pools_linPool_keys b phase pitch :
  keys (linPool (buildWeightedPools b phase pitch)) = LINES.
Proof.
  unfold buildWeightedPools, applyPitchModifiers, linBump.
  destruct pitch; cbn [linPool]; bumped Line_beq_eq baseLineWeights_keys.
Qed.

Lemma pools_delPool_keys_pace b phase pitch :
  isSpin b = false ->
  keys (delPool (buildWeightedPools b phase pitch)) = DELIVERY_TYPES_PACE.
Proof.
  intros Hb.
  assert (Hk := baseDeliveryWeights_keys b). rewrite Hb in Hk.
  unfold buildWeightedPools, applyPitchModifiers, dbump.
  destruct pitch; cbn [delPool]; bumped DeliveryType_beq_eq Hk.
Qed.

Lemma pools_delPool_keys_spin_normal b phase :
  isSpin b = true ->
  keys (delPool (buildWeightedPools b phase Normal)) = DELIVERY_TYPES_SPIN.
Proof.
  intros Hb. cbn [buildWeightedPools applyPitchModifiers delPool].
  rewrite baseDeliveryWeights_keys, Hb. reflexivity.
Qed.

(** On a pitch that is not Normal a spinner's pool gains pace types:
    [applyPitchModifiers] writes [(w[k] ?? 1) + d] to keys the table of a
    spinner lacks. *)
Lemma pools_delPool_keys_spin b phase pitch :
  isSpin b = true ->
  keys (delPool (buildWeightedPools b phase pitch)) =
  (DELIVERY_TYPES_SPIN ++
     match pitch with
     | Normal => []
     | Green => [Cross_seam]
     | Dusty => [Off_cutter; Leg_cutter]
     | Dry => [Slower]
     end)%list.
Proof.
  intros Hb.
  assert (Hk := baseDeliveryWeights_keys b). rewrite Hb in Hk.
  unfold buildWeightedPools, applyPitchModifiers, dbump.
  destruct pitch; cbn [delPool app].
  - rewrite Hk. reflexivity.
  - unfold bump. rewrite (set_keys_new _ DeliveryType_beq_eq); rewrite Hk;
      [reflexivity | simpl; intuition discriminate].
  - unfold bump.
    rewrite (set_keys_new _ DeliveryType_beq_eq);
      rewrite (set_keys_new _ DeliveryType_beq_eq); rewrite ?Hk;
      try reflexivity; simpl; intuition discriminate.
  - unfold bump. rewrite (set_keys_new _ DeliveryType_beq_eq); rewrite Hk;
      [reflexivity | simpl; intuition discriminate].
Qed.

Lemma pools_nonempty b phase pitch :
  let p := buildWeightedPools b phase pitch in
  delPool p <> [] /\ lenPool p <> [] /\ linPool p <> [].
Proof.
  intros p. repeat split; intros H.
  - assert (Hk : keys (delPool p) = []) by (rewrite H; reflexivity).
    destruct (isSpin b) eqn:Hb.
    + unfold p in Hk. rewrite (pools_delPool_keys_spin _ _ _ Hb) in Hk. discriminate.
    + unfold p in Hk. rewrite (pools_delPool_keys_pace _ _ _ Hb) in Hk. discriminate.
  - assert (Hk : keys (lenPool p) = []) by (rewrite H; reflexivity).
    unfold p in Hk. rewrite pools_lenPool_keys in Hk. discriminate.
  - assert (Hk : keys (linPool p) = []) by (rewrite H; reflexivity).
    unfold p in Hk. rewrite pools_linPool_keys in Hk. discriminate.
Qed.

End BuiltPools.

(** ** pickWeighted *)

Section PickFacts.
Import Random.
Context {T : Type}.

Lemma pickLoop_in r (items : list (T * float)) it :
  pickLoop r items = Some it -> In it (keys items).
Proof.
  revert r. induction items as [|[x w] items IH]; simpl; intros r H.
  - discriminate.
  - destruct (PrimFloat.leb (r - w) 0).
    + inversion H. left. reflexivity.
    + right. eapply IH. exact H.
Qed.

Lemma pickWeighted_in a (items : list (T * float)) x a' :
  pickWeighted a items = Some (x, a') -> In x (keys items).
Proof.
  unfold pickWeighted. destruct (rng a) as [u a1].
  destruct (pickLoop _ items) as [it|] eqn:E.
  - intros H. inversion H; subst. eapply pickLoop_in. exact E.
  - destruct (nth_error items (List.length items - 1)) as [[it w]|] eqn:En;
      [|discriminate].
    intros H. inversion H; subst.
    apply nth_error_In in En. apply (in_map fst) in En. exact En.
Qed.

Lemma pickWeighted_total a (items : list (T * float)) :
  items <> [] -> exists x a', pickWeighted a items = Some (x, a').
Proof.
  intros Hne. unfold pickWeighted. destruct (rng a) as [u a1].
  destruct (pickLoop _ items) as [it|]; [eauto|].
  destruct (nth_error items (List.length items - 1)) as [[it w]|] eqn:En; [eauto|].
  apply nth_error_None in En. destruct items; [contradiction | simpl in En; lia].
Qed.

(** The stream is advanced by one step whatever the pool. *)
Lemma pickWeighted_state a (items : list (T * float)) x a' :
  pickWeighted a items = Some (x, a') -> a' = fst (mulberry32 a).
Proof.
  unfold pickWeighted, rng. destruct (mulberry32 a) as [a1 k]. simpl.
  destruct (pickLoop _ items); [intros H; inversion H; reflexivity|].
  destruct (nth_error items _) as [[it w]|]; intros H; inversion H; reflexivity.
Qed.

End PickFacts.

(** ** drawUnique *)

Section MonadFacts.
Import DeliveryLogic.

Lemma bind_Ok {A B : Type} (m : M A) (f : A -> M B) st b st2 :
  bind m f st = Ok (b, st2) ->
  exists a st1, m st = Ok (a, st1) /\ f a st1 = Ok (b, st2).
Proof.
  unfold bind. destruct (m st) as [[a st1]|e]; [eauto | discriminate].
Qed.

Lemma Triple_beq_eq a b : Triple_beq a b = true <-> a = b.
Proof.
  destruct a as [[t l] n], b as [[t' l'] n']. unfold Triple_beq.
  rewrite !andb_true_iff, DeliveryType_beq_eq, Length_beq_eq, Line_beq_eq.
  split; [intros [[-> ->] ->]; reflexivity | intros H; inversion H; auto].
Qed.

Lemma existsb_Triple k l : existsb (Triple_beq k) l = true <-> In k l.
Proof.
  rewrite existsb_exists. split.
  - intros (x & Hin & Hx). apply Triple_beq_eq in Hx. subst. exact Hin.
  - intros Hin. exists k. split; [exact Hin | apply Triple_beq_eq; reflexivity].
Qed.

Lemma orElse_pick {T : Type} (forced : option T) (pool : list (T * float)) st x st1 :
  orElse forced (pick pool) st = Ok (x, st1) ->
  used st1 = used st /\ from forced (keys pool) x.
Proof.
  destruct forced as [y|]; simpl.
  - unfold ret. intros H. inversion H; subst. auto.
  - unfold pick. destruct (Random.pickWeighted _ pool) as [[z a']|] eqn:E;
      [|discriminate].
    intros H. inversion H; subst. simpl. split; [reflexivity|].
    eapply pickWeighted_in. exact E.
Qed.

Lemma orElse_pick_total {T : Type} (forced : option T) (pool : list (T * float)) st :
  pool <> [] -> exists x st1, orElse forced (pick pool) st = Ok (x, st1).
Proof.
  intros Hne. destruct forced as [y|]; simpl.
  - unfold ret. eauto.
  - unfold pick. destruct (pickWeighted_total (rngState st) pool Hne) as (x & a' & E).
    rewrite E. eauto.
Qed.

Lemma first_Ok {T : Type} (pool : list (T * float)) st x st1 :
  first pool st = Ok (x, st1) -> st1 = st /\ exists w rest, pool = (x, w) :: rest.
Proof.
  destruct pool as [|[y w] rest]; simpl; [discriminate|].
  unfold ret. intros H. inversion H; subst. eauto.
Qed.

End MonadFacts.

Section DrawFacts.
Import Cricket StrategyMap DeliveryLogic.
Variable phase : PhaseId.
Variable pools : Pools.

(** What a call of [drawUnique] did: it found a triple that was not used,
    recorded it, and took the purpose from [force] or the annotator; or
    it gave up and returned the fallback, recording nothing. *)
Inductive drawn (force : option PartialItem) (st : St) (d : DeliveryPlanItem) (st' : St)
  : Prop :=
| drawn_fresh :
    ~ In (tripleOf d) (used st) ->
    used st' = tripleOf d :: used st ->
    from (field force p_type) (keys (delPool pools)) (dtype d) ->
    from (field force p_length) (keys (lenPool pools)) (length d) ->
    from (field force p_line) (keys (linPool pools)) (line d) ->
    purpose d = match field force p_purpose with
                | Some p => p
                | None => describePurpose (dtype d) (length d) (line d) phase
                end ->
    drawn force st d st'
| drawn_fallback :
    fallbackTriple pools = Some (tripleOf d) ->
    used st' = used st ->
    purpose d = describePurpose (dtype d) (length d) (line d) phase ->
    drawn force st d st'.

Lemma drawLoop_spec attempts force st d st' :
  drawLoop phase pools attempts force st = Ok (d, st') ->
  over d = 1%nat /\ drawn force st d st'.
Proof.
  revert st. induction attempts as [|n IH]; intros st H.
  - simpl in H.
    apply bind_Ok in H. destruct H as (t & s1 & Ht & H).
    apply bind_Ok in H. destruct H as (L & s2 & HL & H).
    apply bind_Ok in H. destruct H as (l & s3 & Hl & H).
    apply first_Ok in Ht. destruct Ht as (-> & wt & rt & Et).
    apply first_Ok in HL. destruct HL as (-> & wL & rL & EL).
    apply first_Ok in Hl. destruct Hl as (-> & wl & rl & El).
    unfold ret in H. inversion H; subst. split; [reflexivity|].
    apply drawn_fallback; try reflexivity.
    unfold fallbackTriple. rewrite Et, EL, El. reflexivity.
  - simpl in H.
    apply bind_Ok in H. destruct H as (t & s1 & Ht & H).
    apply bind_Ok in H. destruct H as (L & s2 & HL & H).
    apply bind_Ok in H. destruct H as (l & s3 & Hl & H).
    apply bind_Ok in H. destruct H as (seen & s4 & Hs & H).
    apply orElse_pick in Ht. destruct Ht as (U1 & Ft).
    apply orElse_pick in HL. destruct HL as (U2 & FL).
    apply orElse_pick in Hl. destruct Hl as (U3 & Fl).
    unfold has in Hs. inversion Hs; subst s4 seen. clear Hs.
    assert (U : used s3 = used st) by congruence.
    destruct (existsb (Triple_beq (key t L l)) (used s3)) eqn:E; simpl in H.
    + apply IH in H. destruct H as (Ho & Hd). split; [exact Ho|].
      destruct Hd as [N A F1 F2 F3 P | F A P].
      * apply drawn_fresh; auto; rewrite <- U; assumption.
      * apply drawn_fallback; auto. congruence.
    + apply bind_Ok in H. destruct H as ([] & s5 & Ha & H).
      unfold add in Ha. rewrite E in Ha. inversion Ha; subst s5. clear Ha.
      unfold ret in H. inversion H; subst d st'. clear H.
      split; [reflexivity|].
      apply drawn_fresh; simpl; auto.
      * unfold tripleOf. simpl. rewrite <- U, <- existsb_Triple, E. discriminate.
      * unfold tripleOf. simpl. rewrite U. reflexivity.
Qed.

Hypothesis pools_ok :
  delPool pools <> [] /\ lenPool pools <> [] /\ linPool pools <> [].

Lemma first_total {T : Type} (pool : list (T * float)) st :
  pool <> [] -> exists x, first pool st = Ok (x, st).
Proof. destruct pool as [|[x w] rest]; [contradiction | simpl; unfold ret; eauto]. Qed.

(** [drawUnique] never throws. *)
Lemma drawLoop_total attempts force st :
  exists d st', drawLoop phase pools attempts force st = Ok (d, st').
Proof.
  destruct pools_ok as (Hd & HL & Hn).
  revert st. induction attempts as [|n IH]; intros st; simpl; unfold bind.
  - destruct (first_total (delPool pools) st Hd) as (t & ->).
    destruct (first_total (lenPool pools) st HL) as (L & ->).
    destruct (first_total (linPool pools) st Hn) as (l & ->).
    unfold ret. eauto.
  - destruct (orElse_pick_total (field force p_type) _ st Hd) as (t & s1 & ->).
    destruct (orElse_pick_total (field force p_length) _ s1 HL) as (L & s2 & ->).
    destruct (orElse_pick_total (field force p_line) _ s2 Hn) as (l & s3 & ->).
    unfold has. destruct (existsb _ (used s3)); simpl.
    + apply IH.
    + unfold add, ret. eauto.
Qed.

End DrawFacts.

(** ** The fill loop and the trap insertion *)

Section ReplaceFacts.
Context {A : Type}.

Lemma replaceAt_length i (x : A) out :
  (i < List.length out)%nat -> List.length (replaceAt i x out) = List.length out.
Proof.
  intros Hi. unfold replaceAt.
  rewrite length_app, length_firstn, length_cons, length_skipn. lia.
Qed.

Lemma replaceAt_same i (x : A) out :
  (i < List.length out)%nat -> nth_error (replaceAt i x out) i = Some x.
Proof.
  intros Hi. unfold replaceAt.
  rewrite nth_error_app2; rewrite length_firstn; [|lia].
  replace (i - Nat.min i (List.length out))%nat with 0%nat by lia. reflexivity.
Qed.

Lemma replaceAt_other i j (x : A) out :
  (i < List.length out)%nat -> j <> i ->
  nth_error (replaceAt i x out) j = nth_error out j.
Proof.
  intros Hi Hj. unfold replaceAt.
  destruct (Nat.lt_ge_cases j i) as [Hlt|Hge].
  - rewrite nth_error_app1 by (rewrite length_firstn; lia).
    rewrite nth_error_firstn. apply Nat.ltb_lt in Hlt. rewrite Hlt. reflexivity.
  - rewrite nth_error_app2 by (rewrite length_firstn; lia).
    rewrite length_firstn.
    replace (j - Nat.min i (List.length out))%nat with (S (j - S i)) by lia.
    cbn [nth_error]. rewrite nth_error_skipn. f_equal. lia.
Qed.

Lemma store_in_range (out : list A) i x st :
  (i < List.length out)%nat ->
  DeliveryLogic.store out i x st = DeliveryLogic.Ok (replaceAt i x out, st).
Proof.
  intros Hi. unfold DeliveryLogic.store.
  apply Nat.ltb_lt in Hi. rewrite Hi. reflexivity.
Qed.

End ReplaceFacts.

Lemma trapStart_eq balls : DeliveryLogic.trapStart balls = (balls / 2 - 2)%nat.
Proof.
  unfold DeliveryLogic.trapStart.
  change 2 with (Z.of_nat 2). rewrite <- Nat2Z.inj_div. lia.
Qed.

Lemma trapStart_in_range balls :
  (6 <= balls)%nat -> (DeliveryLogic.trapStart balls + 2 < balls)%nat.
Proof.
  intros H. rewrite trapStart_eq.
  assert (balls / 2 <= balls - 3)%nat; [|lia].
  apply Nat.Div0.div_le_upper_bound. lia.
Qed.

Section FillFacts.
Import Cricket StrategyMap DeliveryLogic.
Variable phase : PhaseId.
Variable pools : Pools.

Lemma fill_inv (I : list DeliveryPlanItem -> St -> Prop) :
  (forall out st d st',
     I out st -> drawUnique phase pools None st = Ok (d, st') ->
     I (out ++ [d])%list st') ->
  forall todo out st out' st',
    I out st -> fill phase pools todo out st = Ok (out', st') -> I out' st'.
Proof.
  intros Hstep todo. induction todo as [|n IH]; intros out st out' st' HI H; simpl in H.
  - unfold ret in H. inversion H; subst. exact HI.
  - apply bind_Ok in H. destruct H as (d & s1 & Hd & H).
    eapply IH; [|exact H]. eapply Hstep; eauto.
Qed.

Lemma fill_length todo out st out' st' :
  fill phase pools todo out st = Ok (out', st') ->
  List.length out' = (List.length out + todo)%nat.
Proof.
  revert out st. induction todo as [|n IH]; intros out st H; simpl in H.
  - unfold ret in H. inversion H; subst. lia.
  - apply bind_Ok in H. destruct H as (d & s1 & Hd & H).
    apply IH in H. rewrite H, length_app. simpl. lia.
Qed.

(** What the trap insertion does to a full [out]: three draws, three
    replacements in place. *)
Lemma insertTrap_spec trap balls out st out' st' :
  List.length out = balls -> (6 <= balls)%nat ->
  insertTrap phase pools trap balls out st = Ok (out', st') ->
  exists d0 d1 d2 s1 s2,
    drawUnique phase pools (nth_error (setup trap) 0) st = Ok (d0, s1)
    /\ drawUnique phase pools (nth_error (setup trap) 1) s1 = Ok (d1, s2)
    /\ drawUnique phase pools (Some (payoff trap)) s2 = Ok (d2, st')
    /\ out' = replaceAt (trapStart balls + 2) d2
                (replaceAt (trapStart balls + 1) d1
                   (replaceAt (trapStart balls) d0 out)).
Proof.
  intros Hlen Hb H. unfold insertTrap in H.
  assert (Hs := trapStart_in_range balls Hb).
  apply Nat.leb_le in Hb. rewrite Hb in H.
  apply bind_Ok in H. destruct H as (d0 & s1 & H0 & H).
  apply bind_Ok in H. destruct H as (o1 & s1' & E1 & H).
  rewrite store_in_range in E1 by lia. inversion E1; subst o1 s1'. clear E1.
  apply bind_Ok in H. destruct H as (d1 & s2 & H1 & H).
  apply bind_Ok in H. destruct H as (o2 & s2' & E2 & H).
  rewrite store_in_range in E2 by (rewrite replaceAt_length; lia).
  inversion E2; subst o2 s2'. clear E2.
  apply bind_Ok in H. destruct H as (d2 & s3 & H2 & H).
  rewrite store_in_range in H by (repeat rewrite replaceAt_length; lia).
  inversion H; subst out' s3.
  exists d0, d1, d2, s1, s2. auto.
Qed.

Hypothesis pools_ok :
  delPool pools <> [] /\ lenPool pools <> [] /\ linPool pools <> [].

Lemma fill_total todo out st :
  exists out' st', fill phase pools todo out st = Ok (out', st').
Proof.
  revert out st. induction todo as [|n IH]; intros out st; simpl.
  - unfold ret. eauto.
  - unfold bind, drawUnique.
    destruct (drawLoop_total phase pools pools_ok 200 None st) as (d & s1 & ->).
    apply IH.
Qed.

Lemma insertTrap_total trap balls out st :
  List.length out = balls ->
  exists out' st', insertTrap phase pools trap balls out st = Ok (out', st').
Proof.
  intros Hlen. unfold insertTrap.
  destruct (6 <=? balls)%nat eqn:Hb; [|unfold ret; eauto].
  apply Nat.leb_le in Hb. assert (Hs := trapStart_in_range balls Hb).
  unfold bind, drawUnique.
  destruct (drawLoop_total phase pools pools_ok 200 (nth_error (setup trap) 0) st)
    as (d0 & s1 & ->).
  rewrite store_in_range by lia.
  destruct (drawLoop_total phase pools pools_ok 200 (nth_error (setup trap) 1) s1)
    as (d1 & s2 & ->).
  rewrite store_in_range by (rewrite replaceAt_length; lia).
  destruct (drawLoop_total phase pools pools_ok 200 (Some (payoff trap)) s2)
    as (d2 & s3 & ->).
  rewrite store_in_range by (repeat rewrite replaceAt_length; lia).
  eauto.
Qed.

End FillFacts.

(** ** generateDeliveries and buildOverPlan *)

Section GenerateFacts.
Import Cricket StrategyMap DeliveryLogic OverLogic.

(** A call runs the fill loop, then the trap insertion, and returns. *)
Lemma generateDeliveries_run b balls phase pitch seedHint :
  exists out0 st1 out st2,
    fill phase (buildWeightedPools b phase pitch) balls []
      (startState b phase pitch seedHint) = Ok (out0, st1)
    /\ List.length out0 = balls
    /\ insertTrap phase (buildWeightedPools b phase pitch) (trapOf b phase) balls out0 st1
       = Ok (out, st2)
    /\ generateDeliveries b balls phase pitch seedHint = Ok out.
Proof.
  pose proof (pools_nonempty b phase pitch) as Hp. cbv zeta in Hp.
  destruct (fill_total phase _ Hp balls [] (startState b phase pitch seedHint))
    as (out0 & st1 & Hf).
  assert (Hl := fill_length _ _ _ _ _ _ _ Hf). simpl in Hl.
  destruct (insertTrap_total phase _ Hp (trapOf b phase) balls out0 st1 Hl)
    as (out & st2 & Hi).
  exists out0, st1, out, st2. repeat split; auto.
  unfold generateDeliveries, bind. fold (startState b phase pitch seedHint).
  rewrite Hf. fold (trapOf b phase). rewrite Hi. reflexivity.
Qed.

Lemma insertTrap_length phase pools trap balls out st out' st' :
  List.length out = balls ->
  insertTrap phase pools trap balls out st = Ok (out', st') ->
  List.length out' = balls.
Proof.
  intros Hlen H. destruct (Nat.lt_ge_cases balls 6) as [Hlt|Hge].
  - unfold insertTrap in H. apply Nat.leb_gt in Hlt. rewrite Hlt in H.
    unfold ret in H. inversion H; subst. reflexivity.
  - assert (Hs := trapStart_in_range balls Hge).
    apply insertTrap_spec in H; [|exact Hlen|exact Hge].
    destruct H as (d0 & d1 & d2 & s1 & s2 & _ & _ & _ & ->).
    repeat rewrite replaceAt_length; lia.
Qed.

Lemma mapi_length {A B : Type} (f : A -> nat -> B) l i :
  List.length (mapi f i l) = List.length l.
Proof. revert i. induction l as [|x l IH]; intros i; simpl; auto. Qed.

Lemma mapi_nth_error {A B : Type} (f : A -> nat -> B) l i0 i :
  nth_error (mapi f i0 l) i = option_map (fun x => f x (i0 + i)%nat) (nth_error l i).
Proof.
  revert i0 i. induction l as [|x l IH]; intros i0 i; simpl.
  - destruct i; reflexivity.
  - destruct i; simpl.
    + rewrite Nat.add_0_r. reflexivity.
    + rewrite IH. replace (S i0 + i)%nat with (i0 + S i)%nat by lia. reflexivity.
Qed.

Lemma buildOverPlan_run b overs phase pitch :
  exists seq,
    generateDeliveries b (overs * 6) phase pitch ("ov:" ++ JS.showNat overs) = Ok seq
    /\ List.length seq = (overs * 6)%nat
    /\ buildOverPlan b overs phase pitch = Ok (mapi stampOver 0 seq).
Proof.
  destruct (generateDeliveries_run b (overs * 6) phase pitch ("ov:" ++ JS.showNat overs))
    as (out0 & st1 & out & st2 & Hf & Hl & Hi & Hg).
  exists out. repeat split; auto.
  - eapply insertTrap_length; eauto.
  - unfold buildOverPlan. rewrite Hg. reflexivity.
Qed.

End GenerateFacts.

(** C10.  [generateDeliveries] returns, and its list has exactly the
    requested number of deliveries; [buildOverPlan] returns [6 * overs]
    deliveries. *)
Theorem generateDeliveries_returns_n_balls :
  (forall b n phase pitch seedHint,
     exists out,
       DeliveryLogic.generateDeliveries b n phase pitch seedHint = DeliveryLogic.Ok out
       /\ List.length out = n)
  /\ (forall b overs phase pitch,
        exists plan,
          OverLogic.buildOverPlan b overs phase pitch = DeliveryLogic.Ok plan
          /\ List.length plan = (6 * overs)%nat).
Proof.
  split.
  - intros b n phase pitch seedHint.
    destruct (generateDeliveries_run b n phase pitch seedHint)
      as (out0 & st1 & out & st2 & Hf & Hl & Hi & Hg).
    exists out. split; [exact Hg|]. eapply insertTrap_length; eauto.
  - intros b overs phase pitch.
    destruct (buildOverPlan_run b overs phase pitch) as (seq & Hg & Hl & Hb).
    eexists. split; [exact Hb|]. rewrite mapi_length, Hl. lia.
Qed.

(** C1.  The over composer reads a bowler's id, type and strengths and
    nothing else: for bowlers that agree on the three, and the same ball
    count, phase, pitch and salt, [generateDeliveries] returns the same
    list, and so does [buildOverPlan] for the same number of overs. *)
Theorem over_composer_deterministic (b1 b2 : Cricket.Bowler) :
  Cricket.id b1 = Cricket.id b2 ->
  Cricket.type b1 = Cricket.type b2 ->
  Cricket.strengths b1 = Cricket.strengths b2 ->
  forall balls overs phase pitch seedHint,
    DeliveryLogic.generateDeliveries b1 balls phase pitch seedHint =
    DeliveryLogic.generateDeliveries b2 balls phase pitch seedHint
    /\ OverLogic.buildOverPlan b1 overs phase pitch =
       OverLogic.buildOverPlan b2 overs phase pitch.
Proof.
  intros Hid Hty Hst balls overs phase pitch seedHint.
  assert (Hg : forall n hint,
             DeliveryLogic.generateDeliveries b1 n phase pitch hint =
             DeliveryLogic.generateDeliveries b2 n phase pitch hint).
  { intros n hint.
    unfold DeliveryLogic.generateDeliveries, DeliveryLogic.seedOf,
      DeliveryLogic.seedString, StrategyMap.buildWeightedPools,
      StrategyMap.baseDeliveryWeights, StrategyMap.baseLengthWeights,
      StrategyMap.baseLineWeights, StrategyMap.isSpin.
    rewrite Hid, Hty, Hst. reflexivity. }
  split; [apply Hg|].
  unfold OverLogic.buildOverPlan. rewrite Hg. reflexivity.
Qed.

Lemma over_composer_deterministic_witness :
  DeliveryLogic.generateDeliveries kumble 12 Cricket.middle Cricket.Dusty "ov:2" =
  DeliveryLogic.generateDeliveries kumble_renamed 12 Cricket.middle Cricket.Dusty "ov:2"
  /\ OverLogic.buildOverPlan kumble 2 Cricket.middle Cricket.Dusty =
     OverLogic.buildOverPlan kumble_renamed 2 Cricket.middle Cricket.Dusty.
Proof.
  apply (over_composer_deterministic kumble kumble_renamed); reflexivity.
Defined.

(** ** Uniqueness of the drawn triples *)

Section UniqueFacts.
Import Cricket StrategyMap DeliveryLogic.
Variable phase : PhaseId.
Variable pools : Pools.

(** Every delivery of [out] is recorded in [used] or is the fallback,
    and two deliveries of [out] with one triple are both the fallback. *)
Definition fillInv (out : list DeliveryPlanItem) (st : St) : Prop :=
  (forall d, In d out ->
     In (tripleOf d) (used st) \/ fallbackTriple pools = Some (tripleOf d))
  /\ (forall i j di dj,
        i <> j -> nth_error out i = Some di -> nth_error out j = Some dj ->
        tripleOf di = tripleOf dj -> fallbackTriple pools = Some (tripleOf di)).

Lemma nth_error_snoc {A : Type} (l : list A) (x y : A) i :
  nth_error (l ++ [x]) i = Some y ->
  ((i < List.length l)%nat /\ nth_error l i = Some y) \/ (i = List.length l /\ y = x).
Proof.
  intros H. destruct (Nat.lt_ge_cases i (List.length l)) as [Hlt|Hge].
  - left. rewrite nth_error_app1 in H by exact Hlt. auto.
  - right. rewrite nth_error_app2 in H by exact Hge.
    destruct (i - List.length l)%nat as [|k] eqn:E; simpl in H.
    + inversion H. split; [lia | reflexivity].
    + destruct k; discriminate.
Qed.

Lemma fillInv_step out st d st' :
  fillInv out st -> drawUnique phase pools None st = Ok (d, st') ->
  fillInv (out ++ [d])%list st'.
Proof.
  intros [Ha Hb] H. apply drawLoop_spec in H. destruct H as [_ Hd].
  destruct Hd as [N A _ _ _ _ | F A _].
  - split.
    + intros d' Hin. apply in_app_or in Hin. rewrite A. destruct Hin as [Hin|[<-|[]]].
      * destruct (Ha d' Hin); [left; right; assumption | right; assumption].
      * left. left. reflexivity.
    + intros i j di dj Hij Hi Hj E.
      apply nth_error_snoc in Hi. apply nth_error_snoc in Hj.
      destruct Hi as [[Li Hi]|[Li ->]], Hj as [[Lj Hj]|[Lj ->]].
      * eapply Hb; eauto.
      * apply nth_error_In in Hi. destruct (Ha di Hi) as [U|U]; [|exact U].
        exfalso. apply N. rewrite <- E. exact U.
      * apply nth_error_In in Hj. destruct (Ha dj Hj) as [U|U].
        -- exfalso. apply N. rewrite E. exact U.
        -- rewrite E. exact U.
      * lia.
  - split.
    + intros d' Hin. apply in_app_or in Hin. rewrite A. destruct Hin as [Hin|[<-|[]]].
      * apply Ha. exact Hin.
      * right. exact F.
    + intros i j di dj Hij Hi Hj E.
      apply nth_error_snoc in Hi. apply nth_error_snoc in Hj.
      destruct Hi as [[Li Hi]|[Li ->]], Hj as [[Lj Hj]|[Lj ->]].
      * eapply Hb; eauto.
      * rewrite E. exact F.
      * exact F.
      * lia.
Qed.

Lemma fill_unique todo st out st' :
  used st = [] -> fill phase pools todo [] st = Ok (out, st') -> fillInv out st'.
Proof.
  intros Hu H. eapply (fill_inv phase pools fillInv); [|  |exact H].
  - intros. eapply fillInv_step; eauto.
  - split.
    + intros d [].
    + intros i j di dj _ Hi. destruct i; discriminate.
Qed.

(** The trap stores leave every other index as the fill loop made it. *)
Lemma insertTrap_outside trap balls out st out' st' i :
  List.length out = balls ->
  insertTrap phase pools trap balls out st = Ok (out', st') ->
  outsideTrap balls i ->
  nth_error out' i = nth_error out i.
Proof.
  intros Hlen H Ho. destruct (Nat.lt_ge_cases balls 6) as [Hlt|Hge].
  - unfold insertTrap in H. apply Nat.leb_gt in Hlt. rewrite Hlt in H.
    unfold ret in H. inversion H; subst. reflexivity.
  - assert (Hs := trapStart_in_range balls Hge).
    apply insertTrap_spec in H; [|exact Hlen|exact Hge].
    destruct H as (d0 & d1 & d2 & s1 & s2 & _ & _ & _ & ->).
    unfold outsideTrap in Ho.
    rewrite !replaceAt_other; try reflexivity;
      repeat rewrite replaceAt_length; lia.
Qed.

End UniqueFacts.

(** C4 (as amended).  Two deliveries outside the trap window never share a
    triple, unless it is the fallback triple (the first entry of each
    pool), which [drawUnique] returns when its 200 attempts are used up. *)
Theorem unique_outside_trap_unless_fallback
  b balls phase pitch seedHint out i j di dj :
  DeliveryLogic.generateDeliveries b balls phase pitch seedHint = DeliveryLogic.Ok out ->
  i <> j -> outsideTrap balls i -> outsideTrap balls j ->
  nth_error out i = Some di -> nth_error out j = Some dj ->
  fallbackTriple (StrategyMap.buildWeightedPools b phase pitch) <> Some (tripleOf di) ->
  tripleOf di <> tripleOf dj.
Proof.
  intros Hg Hij Hoi Hoj Hi Hj Hf E.
  destruct (generateDeliveries_run b balls phase pitch seedHint)
    as (out0 & st1 & out' & st2 & Hfill & Hl & Hins & Hg').
  rewrite Hg in Hg'. inversion Hg'; subst out'. clear Hg'.
  rewrite (insertTrap_outside _ _ _ _ _ _ _ _ i Hl Hins Hoi) in Hi.
  rewrite (insertTrap_outside _ _ _ _ _ _ _ _ j Hl Hins Hoj) in Hj.
  apply fill_unique in Hfill; [|reflexivity].
  destruct Hfill as [_ Hb]. apply Hf. eapply Hb; eauto.
Qed.

Lemma unique_outside_trap_witness :
  exists out di dj,
    DeliveryLogic.generateDeliveries kumble 6 Cricket.middle Cricket.Normal "ov:1"
    = DeliveryLogic.Ok out
    /\ nth_error out 0 = Some di /\ nth_error out 5 = Some dj
    /\ tripleOf di <> tripleOf dj.
Proof.
  eexists. eexists. eexists.
  split; [vm_compute; reflexivity|].
  split; [reflexivity|]. split; [reflexivity|].
  eapply (unique_outside_trap_unless_fallback kumble 6 Cricket.middle Cricket.Normal
            "ov:1" _ 0 5).
  - vm_compute. reflexivity.
  - lia.
  - right. left. vm_compute. lia.
  - right. right. vm_compute. lia.
  - reflexivity.
  - reflexivity.
  - vm_compute. discriminate.
Defined.

Lemma checkOk_true {A : Type} (r : DeliveryLogic.result A) f :
  checkOk r f = true -> exists a, r = DeliveryLogic.Ok a /\ f a = true.
Proof. destruct r as [a|e]; simpl; [eauto | discriminate]. Qed.

Lemma sameTripleAt_true out i j :
  sameTripleAt out i j = true ->
  exists di dj,
    nth_error out i = Some di /\ nth_error out j = Some dj /\ tripleOf di = tripleOf dj.
Proof.
  unfold sameTripleAt.
  destruct (nth_error out i) as [di|]; [|discriminate].
  destruct (nth_error out j) as [dj|]; [|discriminate].
  intros H. apply Triple_beq_eq in H. eauto.
Qed.

Lemma kumble_264_balls :
  checkOk
    (DeliveryLogic.generateDeliveries kumble_plain 264 Cricket.middle Cricket.Normal "ov:44")
    (fun out => sameTripleAt out 161 261) = true.
Proof. vm_compute. reflexivity. Qed.

(** C4 as stated fails.  A spinner's pools hold 6 x 5 x 9 = 270 triples.
    For 264 balls (44 overs) the deliveries at indices 161 and 261, both
    outside the trap window 130..132, carry the same triple: index 261
    is the fallback after 200 failed redraws. *)
Lemma local_uniqueness_fails_near_exhaustion :
  exists out di dj,
    DeliveryLogic.generateDeliveries kumble_plain 264 Cricket.middle Cricket.Normal "ov:44"
    = DeliveryLogic.Ok out
    /\ (264 <= List.length Cricket.DELIVERY_TYPES_SPIN * List.length Cricket.LENGTHS
               * List.length Cricket.LINES)%nat
    /\ outsideTrap 264 161 /\ outsideTrap 264 261
    /\ nth_error out 161 = Some di /\ nth_error out 261 = Some dj
    /\ tripleOf di = tripleOf dj.
Proof.
  pose proof kumble_264_balls as H.
  apply checkOk_true in H. destruct H as (out & Hg & H).
  apply sameTripleAt_true in H. destruct H as (di & dj & Hi & Hj & E).
  exists out, di, dj.
  refine (conj Hg (conj _ (conj _ (conj _ (conj Hi (conj Hj E)))))).
  - simpl. lia.
  - right. right. vm_compute. lia.
  - right. right. vm_compute. lia.
Qed.

(** ** Delivery types of the library engine *)

Section TypeFacts.
Import Cricket StrategyMap DeliveryLogic.
Variable phase : PhaseId.
Variable pools : Pools.
Variable family : list DeliveryType.
Hypothesis pool_in_family : incl (keys (delPool pools)) family.

Lemma fallback_type t l n :
  fallbackTriple pools = Some (t, l, n) -> In t (keys (delPool pools)).
Proof.
  unfold fallbackTriple.
  destruct (delPool pools) as [|[t0 w0] r0]; [discriminate|].
  destruct (lenPool pools) as [|[l0 w1] r1]; [discriminate|].
  destruct (linPool pools) as [|[n0 w2] r2]; [discriminate|].
  intros H. inversion H; subst. left. reflexivity.
Qed.

Lemma drawUnique_type force st d st' :
  match field force p_type with
  | Some t => In t family
  | None => True
  end ->
  drawUnique phase pools force st = Ok (d, st') -> In (dtype d) family.
Proof.
  intros Hf H. apply drawLoop_spec in H. destruct H as [_ Hd].
  destruct Hd as [_ _ Ft _ _ _ | F _ _].
  - destruct (field force p_type) as [t|]; simpl in Ft.
    + rewrite Ft. exact Hf.
    + apply pool_in_family. exact Ft.
  - apply pool_in_family. eapply fallback_type. exact F.
Qed.

Lemma fill_types todo st out st' :
  fill phase pools todo [] st = Ok (out, st') ->
  Forall (fun d => In (dtype d) family) out.
Proof.
  intros H.
  eapply (fill_inv phase pools (fun out _ => Forall (fun d => In (dtype d) family) out));
    [| |exact H].
  - intros o s d s' Ho Hd. apply Forall_app. split; [exact Ho|].
    constructor; [|constructor].
    eapply drawUnique_type; [|exact Hd]. exact I.
  - constructor.
Qed.

Lemma Forall_replaceAt {A : Type} (P : A -> Prop) i x l :
  Forall P l -> P x -> Forall P (replaceAt i x l).
Proof.
  intros Hl Hx. unfold replaceAt. apply Forall_app. split.
  - rewrite <- (firstn_skipn i l) in Hl. apply Forall_app in Hl. tauto.
  - constructor; [exact Hx|].
    rewrite <- (firstn_skipn (S i) l) in Hl. apply Forall_app in Hl. tauto.
Qed.

Lemma insertTrap_types trap balls out st out' st' :
  (forall p, In p (payoff trap :: setup trap) -> exists t, p_type p = Some t /\ In t family) ->
  List.length out = balls ->
  Forall (fun d => In (dtype d) family) out ->
  insertTrap phase pools trap balls out st = Ok (out', st') ->
  Forall (fun d => In (dtype d) family) out'.
Proof.
  intros Ht Hlen Ho H. destruct (Nat.lt_ge_cases balls 6) as [Hlt|Hge].
  - unfold insertTrap in H. apply Nat.leb_gt in Hlt. rewrite Hlt in H.
    unfold ret in H. inversion H; subst. exact Ho.
  - apply insertTrap_spec in H; [|exact Hlen|exact Hge].
    destruct H as (d0 & d1 & d2 & s1 & s2 & H0 & H1 & H2 & ->).
    assert (Hforce : forall k, match field (nth_error (setup trap) k) p_type with
                               | Some t => In t family
                               | None => True
                               end).
    { intros k. destruct (nth_error (setup trap) k) as [p|] eqn:E; simpl; [|exact I].
      apply nth_error_In in E. destruct (Ht p (or_intror E)) as (t & -> & Hin).
      exact Hin. }
    repeat apply Forall_replaceAt; auto.
    + eapply drawUnique_type; [|exact H0]. apply Hforce.
    + eapply drawUnique_type; [|exact H1]. apply Hforce.
    + eapply drawUnique_type; [|exact H2]. simpl.
      destruct (Ht (payoff trap) (or_introl eq_refl)) as (t & -> & Hin). exact Hin.
Qed.

End TypeFacts.

Lemma trapForPace_types phase p :
  In p (DeliveryLogic.payoff (DeliveryLogic.trapForPace phase)
          :: DeliveryLogic.setup (DeliveryLogic.trapForPace phase)) ->
  exists t, Cricket.p_type p = Some t /\ In t Cricket.DELIVERY_TYPES_PACE.
Proof.
  destruct phase; simpl; intros [<-|[<-|[<-|[]]]]; simpl; eexists; split;
    try reflexivity; simpl; tauto.
Qed.

Lemma trapForSpin_types phase p :
  In p (DeliveryLogic.payoff (DeliveryLogic.trapForSpin phase)
          :: DeliveryLogic.setup (DeliveryLogic.trapForSpin phase)) ->
  exists t, Cricket.p_type p = Some t /\ In t Cricket.DELIVERY_TYPES_SPIN.
Proof.
  destruct phase; simpl; intros [<-|[<-|[<-|[]]]]; simpl; eexists; split;
    try reflexivity; simpl; tauto.
Qed.

(** The library engine keeps a bowler it takes for pace on pace types, and
    a spinner on spin types when the pitch is Normal. *)
Lemma generateDeliveries_family b balls phase pitch seedHint out :
  StrategyMap.isSpin b = false \/ pitch = Cricket.Normal ->
  DeliveryLogic.generateDeliveries b balls phase pitch seedHint = DeliveryLogic.Ok out ->
  Forall (fun d => In (Cricket.dtype d)
                     (if StrategyMap.isSpin b then Cricket.DELIVERY_TYPES_SPIN
                      else Cricket.DELIVERY_TYPES_PACE)) out.
Proof.
  intros Hcase Hg.
  destruct (generateDeliveries_run b balls phase pitch seedHint)
    as (out0 & st1 & out' & st2 & Hfill & Hl & Hins & Hg').
  rewrite Hg in Hg'. inversion Hg'; subst out'. clear Hg'.
  set (family := if StrategyMap.isSpin b then Cricket.DELIVERY_TYPES_SPIN
                 else Cricket.DELIVERY_TYPES_PACE).
  assert (Hpool : incl (keys (StrategyMap.delPool (StrategyMap.buildWeightedPools b phase pitch)))
                    family).
  { unfold family. destruct (StrategyMap.isSpin b) eqn:Hb.
    - destruct Hcase as [Hc| ->]; [discriminate|].
      rewrite pools_delPool_keys_spin_normal by exact Hb. apply incl_refl.
    - rewrite pools_delPool_keys_pace by exact Hb. apply incl_refl. }
  eapply insertTrap_types; [exact Hpool| |exact Hl| |exact Hins].
  - unfold trapOf, family. destruct (StrategyMap.isSpin b).
    + apply trapForSpin_types.
    + apply trapForPace_types.
  - eapply fill_types; [exact Hpool | exact Hfill].
Qed.

(* ================================================================== *)
(** ** The page engine: weightedChoice *)

Section ChoiceFacts.
Import Page.
Local Open Scope Q_scope.
Context {T : Type} (eqb : T -> T -> bool).
Hypothesis eqb_eq : forall a b, eqb a b = true <-> a = b.

Lemma includesKey_In l k : includesKey eqb l k = true <-> In k l.
Proof.
  unfold includesKey. rewrite existsb_exists. split.
  - intros (x & Hin & Hx). apply eqb_eq in Hx. subst. exact Hin.
  - intros Hin. exists k. split; [exact Hin | apply eqb_eq; reflexivity].
Qed.

Lemma Qltb_lt x y : Qltb x y = true <-> x < y.
Proof.
  unfold Qltb. rewrite negb_true_iff. split.
  - intros H. apply Qnot_le_lt. intros Hle. apply Qle_bool_iff in Hle. congruence.
  - intros H. destruct (Qle_bool y x) eqn:E; [|reflexivity].
    apply Qle_bool_iff in E. exfalso. apply (Qlt_not_le _ _ H). exact E.
Qed.

Lemma Qmax0_nonneg v : 0 <= Qmax0 v.
Proof.
  unfold Qmax0. destruct (Qle_bool 0 v) eqn:E.
  - apply Qle_bool_iff. exact E.
  - apply Qle_refl.
Qed.

Lemma Qmax0_pos v : 0 < v -> Qmax0 v == v.
Proof.
  intros H. unfold Qmax0. destruct (Qle_bool 0 v) eqn:E; [reflexivity|].
  exfalso. assert (Hle : 0 <= v) by (apply Qlt_le_weak; exact H).
  apply Qle_bool_iff in Hle. congruence.
Qed.

(** The sum [total] of [weightedChoice], as a recursion on the table. *)
Fixpoint sumAllowed (weights : list (T * Q)) (disallow : list T) : Q :=
  match weights with
  | [] => 0
  | (k, v) :: rest =>
      (if includesKey eqb disallow k then 0 else Qmax0 v) + sumAllowed rest disallow
  end.

Lemma sumAllowed_nonneg w dis : 0 <= sumAllowed w dis.
Proof.
  induction w as [|[k v] w IH]; simpl; [apply Qle_refl|].
  destruct (includesKey eqb dis k); [lra|].
  pose proof (Qmax0_nonneg v). lra.
Qed.

Lemma totalWeight_sum w dis : totalWeight eqb w dis == sumAllowed w dis.
Proof.
  unfold totalWeight.
  assert (H : forall acc,
            fold_left
              (fun total kv => if includesKey eqb dis (fst kv) then total
                               else total + Qmax0 (snd kv)) w acc
            == acc + sumAllowed w dis).
  { induction w as [|[k v] w IH]; intros acc; simpl; [lra|].
    rewrite IH. destruct (includesKey eqb dis k); lra. }
  rewrite H. lra.
Qed.

Lemma sumAllowed_pos w dis k v :
  In (k, v) w -> ~ In k dis -> 0 < v -> 0 < sumAllowed w dis.
Proof.
  intros Hin Hk Hv. induction w as [|[k' v'] w IH]; simpl; [contradiction|].
  destruct Hin as [E|Hin].
  - inversion E; subst k' v'.
    destruct (includesKey eqb dis k) eqn:Ei.
    + apply includesKey_In in Ei. contradiction.
    + pose proof (sumAllowed_nonneg w dis). pose proof (Qmax0_pos v Hv). lra.
  - specialize (IH Hin). destruct (includesKey eqb dis k'); [lra|].
    pose proof (Qmax0_nonneg v'). lra.
Qed.

Lemma chooseLoop_sound r w dis k :
  chooseLoop eqb r w dis = Some k -> In k (map fst w) /\ ~ In k dis.
Proof.
  revert r. induction w as [|[k' v] w IH]; simpl; intros r H; [discriminate|].
  destruct (includesKey eqb dis k') eqn:Ei.
  - apply IH in H. tauto.
  - destruct (Qltb r (Qmax0 v)).
    + inversion H; subst. split; [left; reflexivity|].
      intros Hin. apply includesKey_In in Hin. congruence.
    + apply IH in H. tauto.
Qed.

Lemma chooseLoop_complete r w dis :
  0 <= r -> r < sumAllowed w dis -> exists k, chooseLoop eqb r w dis = Some k.
Proof.
  revert r. induction w as [|[k' v] w IH]; simpl; intros r H0 H1; [lra|].
  destruct (includesKey eqb dis k').
  - apply IH; lra.
  - destruct (Qltb r (Qmax0 v)) eqn:E; [eauto|].
    apply IH.
    + assert (~ r < Qmax0 v) by (rewrite <- Qltb_lt; congruence).
      apply Qnot_lt_le in H. lra.
    + lra.
Qed.

Lemma mulberry_range t : (0 <= snd (mulberry t) < 2 ^ 32)%Z.
Proof. unfold mulberry. simpl. apply toUint32_range. Qed.

Lemma unitQ_range k : (0 <= k < 2 ^ 32)%Z -> 0 <= unitQ k /\ unitQ k < 1.
Proof.
  intros H. unfold unitQ, Qle, Qlt. simpl.
  change (2 ^ 32)%Z with 4294967296%Z in H. lia.
Qed.

Lemma weightedChoice_sound t w dis k t' :
  weightedChoice eqb t w dis = (Some k, t') -> In k (map fst w).
Proof.
  unfold weightedChoice. destruct (mulberry t) as [t1 k0].
  destruct (chooseLoop eqb _ w dis) as [key|] eqn:E.
  - intros H. inversion H; subst. apply chooseLoop_sound in E. tauto.
  - intros H. inversion H as [[Hk Ht]].
    destruct w as [|[k1 v1] w]; simpl in Hk; [discriminate|].
    inversion Hk; subst. left. reflexivity.
Qed.

Lemma weightedChoice_total t w dis :
  w <> [] -> exists k, weightedChoice eqb t w dis = (Some k, fst (mulberry t)).
Proof.
  intros Hne. unfold weightedChoice. destruct (mulberry t) as [t1 k0]. simpl.
  destruct (chooseLoop eqb _ w dis) as [key|]; [eauto|].
  destruct w as [|[k1 v1] w]; [contradiction | simpl; eauto].
Qed.

Lemma weightedChoice_state t w dis : snd (weightedChoice eqb t w dis) = fst (mulberry t).
Proof.
  unfold weightedChoice. destruct (mulberry t) as [t1 k0].
  destruct (chooseLoop eqb _ w dis); reflexivity.
Qed.

(** With a positive weight among the keys that are not disallowed, the
    choice is never a disallowed key: the scaled draw is below [total]
    and the loop returns before the fallback. *)
Lemma weightedChoice_avoids t w dis k t' :
  0 < sumAllowed w dis ->
  weightedChoice eqb t w dis = (Some k, t') -> ~ In k dis.
Proof.
  intros Hpos. unfold weightedChoice.
  pose proof (mulberry_range t) as Hr. destruct (mulberry t) as [t1 k0]. simpl in Hr.
  apply unitQ_range in Hr. destruct Hr as [H0 H1].
  pose proof (totalWeight_sum w dis) as Ht.
  destruct (chooseLoop_complete (unitQ k0 * totalWeight eqb w dis) w dis) as (key & E).
  - rewrite Ht. apply Qmult_le_0_compat; lra.
  - rewrite Ht. nra.
  - rewrite E. intros H. inversion H; subst. apply chooseLoop_sound in E. tauto.
Qed.

End ChoiceFacts.

(** ** The page engine: the type table of a ball *)

Section LocalTableFacts.
Import Page.
Local Open Scope Q_scope.

Lemma Ball_beq_eq a b : Ball_beq a b = true <-> a = b.
Proof. split; [apply internal_Ball_dec_bl | apply internal_Ball_dec_lb]. Qed.

Lemma Length2_beq_eq a b : Length_beq a b = true <-> a = b.
Proof. split; [apply internal_Length_dec_bl | apply internal_Length_dec_lb]. Qed.

Lemma Line2_beq_eq a b : Line_beq a b = true <-> a = b.
Proof. split; [apply internal_Line_dec_bl | apply internal_Line_dec_lb]. Qed.

Definition typeKeysOf (l : Local) : list Ball := map fst (localType l).

(** The keys of the type table every ball of a bowler is drawn from. *)
Definition typeKeys (bowler : Bowler) : list Ball :=
  filter (has (allowedTypesFor bowler)) (if isSpin bowler then spinKeys else paceKeys).

Lemma typeKeys_allowed bowler k : In k (typeKeys bowler) -> In k (allowedTypesFor bowler).
Proof.
  unfold typeKeys. rewrite filter_In. intros [_ H].
  unfold has in H. apply existsb_exists in H. destruct H as (x & Hin & Hx).
  apply Ball_beq_eq in Hx. subst. exact Hin.
Qed.

Lemma typeKeys_nonempty bowler : typeKeys bowler <> [].
Proof.
  unfold typeKeys, isSpin, allowedTypesFor.
  destruct (type bowler); cbv; discriminate.
Qed.

Lemma setW_keys_in k v w : In k (map fst w) -> map fst (setW k v w) = map fst w.
Proof.
  induction w as [|[k' v'] w IH]; simpl; intros Hin; [contradiction|].
  destruct (Ball_beq k k') eqn:E; simpl; [reflexivity|].
  f_equal. apply IH. destruct Hin as [Hk|Hin]; [|exact Hin].
  subst k'. assert (Ball_beq k k = true) by (apply Ball_beq_eq; reflexivity). congruence.
Qed.

Lemma getW_Some_in k w v : getW k w = Some v -> In k (map fst w).
Proof.
  induction w as [|[k' v'] w IH]; simpl; [discriminate|].
  destruct (Ball_beq k k') eqn:E.
  - apply Ball_beq_eq in E. subst. left. reflexivity.
  - intros H. right. apply IH. exact H.
Qed.

(** [f] keeps the keys of the type table when they are [ks]. *)
Definition keeps (ks : list Ball) (f : Local -> Local) : Prop :=
  forall l, typeKeysOf l = ks -> typeKeysOf (f l) = ks.

Lemma keeps_tAdd ks k d : In k ks -> keeps ks (tAdd k d).
Proof.
  intros Hin l Hl. unfold typeKeysOf, tAdd. simpl.
  rewrite setW_keys_in; [exact Hl|]. unfold typeKeysOf in Hl. rewrite Hl. exact Hin.
Qed.

Lemma keeps_tAddIfPresent ks k d : keeps ks (tAddIfPresent k d).
Proof.
  intros l Hl. unfold tAddIfPresent. destruct (getW k (localType l)) eqn:E; [|exact Hl].
  unfold typeKeysOf, tAdd. simpl. rewrite setW_keys_in; [exact Hl|].
  eapply getW_Some_in. exact E.
Qed.

Lemma keeps_lAdd ks k d : keeps ks (lAdd k d).
Proof. intros l Hl. exact Hl. Qed.

Lemma keeps_nAdd ks k d : keeps ks (nAdd k d).
Proof. intros l Hl. exact Hl. Qed.

Lemma keeps_id ks : keeps ks (fun l => l).
Proof. intros l Hl. exact Hl. Qed.

Lemma keeps_when ks c f : keeps ks f -> keeps ks (when c f).
Proof. intros Hf. unfold when. destruct c; [exact Hf | apply keeps_id]. Qed.

Lemma keeps_block ks ops : Forall (keeps ks) ops -> keeps ks (block ops).
Proof.
  unfold block. intros Hops. induction Hops as [|op ops Hop _ IH]; intros l Hl; simpl.
  - exact Hl.
  - apply IH. apply Hop. exact Hl.
Qed.

Ltac keeps_tac :=
  repeat first
    [ apply keeps_block; repeat constructor
    | apply keeps_when
    | apply keeps_lAdd
    | apply keeps_nAdd
    | apply keeps_id
    | apply keeps_tAddIfPresent
    | apply keeps_tAdd; simpl; tauto
    | match goal with
      | |- keeps _ (if ?c then _ else _) => destruct c
      end ].

Lemma keeps_pacePulses bowler phase ball : keeps paceKeys (pacePulses bowler phase ball).
Proof. unfold pacePulses. keeps_tac. Qed.

Lemma keeps_spinPulses ks ball : keeps ks (spinPulses ball).
Proof. unfold spinPulses. keeps_tac. Qed.

Lemma entries_keys {K : Type} (ks : list K) (f : Rec K) : map fst (entries ks f) = ks.
Proof. unfold entries. rewrite map_map. simpl. apply map_id. Qed.

Lemma filter_entries (p : Ball -> bool) ks (f : Rec Ball) :
  filter (fun kv => p (fst kv)) (entries ks f) = entries (filter p ks) f.
Proof.
  unfold entries. induction ks as [|k ks IH]; simpl; [reflexivity|].
  destruct (p k); simpl; rewrite IH; reflexivity.
Qed.

Lemma derivePaceWeights_entries b phase pitch s st :
  exists f, derivePaceWeights b phase pitch s st = entries paceKeys f.
Proof. unfold derivePaceWeights. eexists. reflexivity. Qed.

Lemma deriveSpinWeights_entries b phase pitch s st :
  exists f, deriveSpinWeights b phase pitch s st = entries spinKeys f.
Proof. unfold deriveSpinWeights. eexists. reflexivity. Qed.

Lemma clampFamily_entries bowler (f : Rec Ball) :
  clampFamily bowler (entries (if isSpin bowler then spinKeys else paceKeys) f)
  = entries (typeKeys bowler) f.
Proof.
  unfold clampFamily. rewrite filter_entries. fold (typeKeys bowler).
  pose proof (typeKeys_nonempty bowler) as Hne.
  destruct (typeKeys bowler) as [|k ks]; [contradiction | reflexivity].
Qed.

Lemma localTables_keys bowler phase pitch ball :
  typeKeysOf (localTables bowler phase pitch ball) = typeKeys bowler.
Proof.
  unfold localTables.
  destruct (isSpin bowler) eqn:Hs; cbn [negb].
  - destruct (deriveSpinWeights_entries bowler phase pitch
                (map JS.toLowerCase (strengths bowler))
                (JS.toLowerCase (strategies bowler))) as (f & ->).
    apply keeps_spinPulses. unfold typeKeysOf. cbn [localType].
    pose proof (clampFamily_entries bowler f) as Hc. rewrite Hs in Hc.
    rewrite Hc. apply entries_keys.
  - destruct (derivePaceWeights_entries bowler phase pitch
                (map JS.toLowerCase (strengths bowler))
                (JS.toLowerCase (strategies bowler))) as (f & ->).
    pose proof (clampFamily_entries bowler f) as Hc. rewrite Hs in Hc.
    assert (Hk : typeKeys bowler = paceKeys).
    { unfold typeKeys. rewrite Hs. unfold isSpin in Hs.
      destruct (type bowler) eqn:Et; try discriminate;
        unfold allowedTypesFor; rewrite Et; reflexivity. }
    rewrite Hk. apply keeps_pacePulses. unfold typeKeysOf. cbn [localType].
    rewrite Hc, Hk. apply entries_keys.
Qed.

End LocalTableFacts.

(** ** The page engine: one ball *)

Section DrawBallFacts.
Import Page.
Local Open Scope Q_scope.

Lemma coherence_spec spin bt pl pn t L N t' :
  coherence spin bt pl pn t = (L, N, t') ->
  (L = yorker -> In N yorkerLines)
  /\ (bt = bouncer -> L <> yorker -> N = at_body).
Proof.
  unfold coherence, yorkerLines.
  destruct (Ball_beq bt bouncer) eqn:Eb.
  - destruct (mulberry t) as [t1 k]. destruct (Qltb (unitQ k) point6);
      destruct spin, pl, pn; simpl; intros H; inversion H; subst;
        split; intros; try discriminate; try tauto; try congruence.
  - assert (Hb : bt <> bouncer).
    { intros ->. simpl in Eb. discriminate. }
    destruct (mulberry t) as [t1 k]. destruct (Qltb (unitQ k) point6);
      destruct spin, pl, pn; simpl; intros H; inversion H; subst;
        split; intros; try discriminate; try tauto; try congruence.
Qed.

Variable bowler : Bowler.
Variable phase : PhaseId.
Variable pitch : PitchType.

Definition tablesAt (i : nat) : Local := localTables bowler phase pitch (i mod 6 + 1).

Lemma drawBall_spec i t recent d t' recent' :
  drawBall bowler phase pitch i t recent = Some (d, t', recent') ->
  over d = (i / 6 + 1)%nat
  /\ ball d = (i mod 6 + 1)%nat
  /\ In (btype d) (typeKeys bowler)
  /\ recent' = remember recent (btype d)
  /\ (0 < sumAllowed Ball_beq (localType (tablesAt i)) (disallowFor recent) ->
      ~ In (btype d) (disallowFor recent))
  /\ (length d = yorker -> In (line d) yorkerLines)
  /\ (btype d = bouncer -> length d <> yorker -> line d = at_body).
Proof.
  unfold drawBall. fold (tablesAt i).
  destruct (weightedChoice Ball_beq t (localType (tablesAt i)) (disallowFor recent))
    as [[bt|] t1] eqn:E1; [|discriminate].
  destruct (weightedChoice Length_beq t1 _ []) as [[pl|] t2] eqn:E2;
    destruct (weightedChoice Line_beq t2 _ []) as [[pn|] t3] eqn:E3;
    try discriminate.
  destruct (coherence (isSpin bowler) bt pl pn t3) as [[L N] t4] eqn:Ec.
  intros H. inversion H; subst d t' recent'. clear H. simpl.
  apply coherence_spec in Ec. destruct Ec as [Hy Hb].
  repeat split; auto.
  - rewrite <- (localTables_keys bowler phase pitch (i mod 6 + 1)).
    eapply weightedChoice_sound; [apply Ball_beq_eq | exact E1].
  - intros Hpos. eapply weightedChoice_avoids; [apply Ball_beq_eq | exact Hpos | exact E1].
Qed.

(** One turn of the loop composes its delivery as [composedAt] says. *)
Lemma drawBall_composedAt i t recent d t' recent' :
  drawBall bowler phase pitch i t recent = Some (d, t', recent') ->
  (exists sampledLength, composedAt bowler phase pitch i t recent sampledLength d t')
  /\ recent' = remember recent (btype d).
Proof.
  unfold drawBall, composedAt. cbv zeta.
  set (tables := localTables bowler phase pitch (i mod 6 + 1)).
  destruct (weightedChoice Ball_beq t (localType tables) (disallowFor recent))
    as [[bt|] t1] eqn:E1; [|discriminate].
  destruct (weightedChoice Length_beq t1 _ []) as [[pl|] t2] eqn:E2;
    destruct (weightedChoice Line_beq t2 _ []) as [[pn|] t3] eqn:E3;
    try discriminate.
  destruct (coherence (isSpin bowler) bt pl pn t3) as [[L N] t4] eqn:Ec.
  intros H. inversion H; subst d t' recent'. clear H. cbn [btype length line].
  split; [|reflexivity].
  exists pl, bt, pn, t1, t2, t3.
  split; [reflexivity|]. split; [exact E2|]. split; [exact E3|]. split; [reflexivity|].
  unfold coherence in Ec. unfold yorkerLines.
  destruct (mulberry t3) as [t5 k]. cbn [fst snd].
  destruct (isSpin bowler), pl, (Qltb (unitQ k) point6), (Ball_beq bt bouncer), pn;
    simpl in Ec |- *; inversion Ec; subst; auto.
Qed.

Lemma drawBall_total i t recent :
  exists d t' recent', drawBall bowler phase pitch i t recent = Some (d, t', recent').
Proof.
  unfold drawBall. fold (tablesAt i).
  assert (Hne : localType (tablesAt i) <> []).
  { intros H. pose proof (localTables_keys bowler phase pitch (i mod 6 + 1)) as Hk.
    unfold typeKeysOf in Hk. fold (tablesAt i) in Hk. rewrite H in Hk.
    symmetry in Hk. apply (typeKeys_nonempty bowler). exact Hk. }
  destruct (weightedChoice_total Ball_beq t _ (disallowFor recent) Hne) as (bt & ->).
  set (t1 := fst (mulberry t)).
  destruct (weightedChoice_total Length_beq t1
              (entries lengthKeys (localLength (tablesAt i))) []) as (pl & ->);
    [discriminate|].
  set (t2 := fst (mulberry t1)).
  destruct (weightedChoice_total Line_beq t2
              (entries lineKeys (localLine (tablesAt i))) []) as (pn & ->);
    [discriminate|].
  destruct (coherence (isSpin bowler) bt pl pn (fst (mulberry t2))) as [[L N] t4].
  eauto.
Qed.

End DrawBallFacts.

(** ** The page engine: the plan loop *)

Section PlanFacts.
Import Page.
Local Open Scope Q_scope.
Variable bowler : Bowler.
Variable phase : PhaseId.
Variable pitch : PitchType.

Lemma planLoop_inv (I : nat -> list DeliveryPlanItem -> list Ball -> Prop) :
  (forall i t recent plan d t' recent',
     I i plan recent ->
     drawBall bowler phase pitch i t recent = Some (d, t', recent') ->
     I (S i) (plan ++ [d])%list recent') ->
  forall todo i t recent plan plan',
    I i plan recent ->
    planLoop bowler phase pitch todo i t recent plan = Some plan' ->
    exists recent', I (i + todo)%nat plan' recent'.
Proof.
  intros Hstep todo.
  induction todo as [|n IH]; intros i t recent plan plan' HI H; simpl in H.
  - inversion H; subst. exists recent. rewrite Nat.add_0_r. exact HI.
  - destruct (drawBall bowler phase pitch i t recent) as [[[d t1] r1]|] eqn:E;
      [|discriminate].
    replace (i + S n)%nat with (S i + n)%nat by lia.
    eapply IH; [|exact H]. eapply Hstep; eauto.
Qed.

Lemma planLoop_total todo i t recent plan :
  exists plan', planLoop bowler phase pitch todo i t recent plan = Some plan'.
Proof.
  revert i t recent plan. induction todo as [|n IH]; intros i t recent plan; simpl.
  - eauto.
  - destruct (drawBall_total bowler phase pitch i t recent) as (d & t1 & r1 & ->).
    apply IH.
Qed.

(** The loop as a trace: the stream and the last types before each
    delivery, and after the last one. *)
Lemma planLoop_trace todo i t recent plan0 out :
  planLoop bowler phase pitch todo i t recent plan0 = Some out ->
  exists news states,
    out = (plan0 ++ news)%list
    /\ nth_error states 0 = Some (t, recent)
    /\ forall j d,
         nth_error news j = Some d ->
         exists tj rj sampledLength tj',
           nth_error states j = Some (tj, rj)
           /\ nth_error states (S j) = Some (tj', remember rj (btype d))
           /\ composedAt bowler phase pitch (i + j) tj rj sampledLength d tj'.
Proof.
  revert i t recent plan0 out.
  induction todo as [|n IH]; intros i t recent plan0 out H; cbn [planLoop] in H.
  - inversion H; subst out. exists [], [(t, recent)].
    split; [rewrite app_nil_r; reflexivity|]. split; [reflexivity|].
    intros j d Hj. destruct j; discriminate.
  - destruct (drawBall bowler phase pitch i t recent) as [[[d t1] r1]|] eqn:E;
      [|discriminate].
    apply drawBall_composedAt in E. destruct E as [[pl Hc] Hr].
    destruct (IH _ _ _ _ _ H) as (news & states & Hout & H0 & Hall).
    exists (d :: news), ((t, recent) :: states).
    split; [rewrite Hout, <- app_assoc; reflexivity|]. split; [reflexivity|].
    intros j e Hj. destruct j as [|j]; cbn [nth_error] in Hj.
    + inversion Hj; subst e. exists t, recent, pl, t1.
      split; [reflexivity|]. split; [rewrite <- Hr; exact H0|].
      rewrite Nat.add_0_r. exact Hc.
    + destruct (Hall j e Hj) as (tj & rj & plj & tj' & Hs & Hs' & Hcj).
      exists tj, rj, plj, tj'. split; [exact Hs|]. split; [exact Hs'|].
      replace (i + S j)%nat with (S i + j)%nat by lia. exact Hcj.
Qed.

(** [recentTypes] holds the types of the last two deliveries. *)
Definition lastTwo (plan : list DeliveryPlanItem) : list Ball :=
  rev (firstn 2 (rev (map btype plan))).

Lemma remember_lastTwo plan d :
  remember (lastTwo plan) (btype d) = lastTwo (plan ++ [d]).
Proof.
  unfold lastTwo, remember. rewrite map_app, rev_app_distr. simpl.
  destruct (rev (map btype plan)) as [|a [|b r]]; reflexivity.
Qed.

Lemma last_two_split {A : Type} (l : list A) i x y :
  List.length l = S (S i) -> nth_error l i = Some x -> nth_error l (S i) = Some y ->
  l = (firstn i l ++ [x; y])%list.
Proof.
  revert i. induction l as [|a l IH]; intros i Hlen Hx Hy; [discriminate|].
  destruct i as [|i].
  - destruct l as [|b [|c l]]; try discriminate.
    simpl in Hx, Hy. inversion Hx; inversion Hy; subst. reflexivity.
  - simpl in *. f_equal. apply IH; auto.
Qed.

Lemma disallow_after plan i d0 d1 :
  List.length plan = S (S i) ->
  nth_error plan i = Some d0 -> nth_error plan (S i) = Some d1 ->
  btype d0 = btype d1 ->
  disallowFor (lastTwo plan) = [btype d1].
Proof.
  intros Hlen H0 H1 E.
  rewrite (last_two_split plan i d0 d1 Hlen H0 H1).
  unfold lastTwo. rewrite map_app, rev_app_distr. simpl.
  unfold disallowFor. simpl. rewrite E.
  assert (Ball_beq (btype d1) (btype d1) = true) as -> by (apply Ball_beq_eq; reflexivity).
  reflexivity.
Qed.

Definition numbered (plan : list DeliveryPlanItem) : Prop :=
  forall i d, nth_error plan i = Some d ->
              over d = (i / 6 + 1)%nat /\ ball d = (i mod 6 + 1)%nat.

Definition streakFree (plan : list DeliveryPlanItem) : Prop :=
  forall i d0 d1 d2,
    nth_error plan i = Some d0 -> nth_error plan (S i) = Some d1 ->
    nth_error plan (S (S i)) = Some d2 ->
    alternativeAt bowler phase pitch (S (S i)) (btype d1) ->
    ~ (btype d0 = btype d1 /\ btype d1 = btype d2).

Definition coherent (d : DeliveryPlanItem) : Prop :=
  In (btype d) (allowedTypesFor bowler)
  /\ (length d = yorker -> In (line d) yorkerLines)
  /\ (btype d = bouncer -> length d <> yorker -> line d = at_body).

Definition planInv (i : nat) (plan : list DeliveryPlanItem) (recent : list Ball) : Prop :=
  List.length plan = i
  /\ recent = lastTwo plan
  /\ numbered plan
  /\ streakFree plan
  /\ Forall coherent plan.

Lemma nth_error_snoc' {A : Type} (l : list A) (x y : A) i :
  nth_error (l ++ [x]) i = Some y ->
  ((i < List.length l)%nat /\ nth_error l i = Some y) \/ (i = List.length l /\ y = x).
Proof.
  intros H. destruct (Nat.lt_ge_cases i (List.length l)) as [Hlt|Hge].
  - left. rewrite nth_error_app1 in H by exact Hlt. auto.
  - right. rewrite nth_error_app2 in H by exact Hge.
    destruct (i - List.length l)%nat as [|k] eqn:E; simpl in H.
    + inversion H. split; [lia | reflexivity].
    + destruct k; discriminate.
Qed.

Lemma planInv_step i t recent plan d t' recent' :
  planInv i plan recent ->
  drawBall bowler phase pitch i t recent = Some (d, t', recent') ->
  planInv (S i) (plan ++ [d])%list recent'.
Proof.
  intros (Hlen & Hrec & Hnum & Hstreak & Hcoh) Hd.
  apply drawBall_spec in Hd.
  destruct Hd as (Ho & Hb & Hk & Hr & Hav & Hy & Hbo).
  unfold planInv. split; [|split; [|split; [|split]]].
  - rewrite length_app. simpl. lia.
  - rewrite Hr, Hrec. apply remember_lastTwo.
  - intros j e H. apply nth_error_snoc' in H. destruct H as [[_ H]|[-> ->]].
    + apply (Hnum _ _ H).
    + rewrite Hlen. split; assumption.
  - intros j d0 d1 d2 H0 H1 H2 Halt [E01 E12].
    apply nth_error_snoc' in H2. destruct H2 as [[L2 H2]|[L2 ->]].
    + rewrite nth_error_app1 in H0 by lia. rewrite nth_error_app1 in H1 by lia.
      apply (Hstreak j d0 d1 d2 H0 H1 H2 Halt). auto.
    + rewrite nth_error_app1 in H0 by lia. rewrite nth_error_app1 in H1 by lia.
      assert (Hdis : disallowFor recent = [btype d1]).
      { rewrite Hrec. eapply disallow_after; eauto; lia. }
      rewrite Hdis in Hav. apply Hav.
      * destruct Halt as (k & v & Hin & Hne & Hv).
        unfold tablesAt. replace i with (S (S j)) by lia.
        eapply sumAllowed_pos; [apply Ball_beq_eq | exact Hin | | exact Hv].
        intros [Hc|[]]. congruence.
      * left. exact E12.
  - apply Forall_app. split; [exact Hcoh|]. constructor; [|constructor].
    split; [|split]; auto. apply typeKeys_allowed. exact Hk.
Qed.

Lemma planLoop_planInv todo t plan :
  planLoop bowler phase pitch todo 0 t [] [] = Some plan ->
  exists recent, planInv todo plan recent.
Proof.
  intros H.
  destruct (planLoop_inv planInv planInv_step todo 0%nat t [] [] plan) as (r & Hr);
    [|exact H|exists r; exact Hr].
  unfold planInv. split; [|split; [|split; [|split]]].
  - reflexivity.
  - reflexivity.
  - intros i d Hn. destruct i; discriminate.
  - intros i d0 d1 d2 Hn. destruct i; discriminate.
  - constructor.
Qed.

End PlanFacts.

(** A call of [buildVariedPlan] returns, and its plan has every property
    the loop keeps. *)
Lemma buildVariedPlan_run bowler overs phase pitch salt :
  exists plan recent,
    Page.buildVariedPlan bowler overs phase pitch salt = Some plan
    /\ planInv bowler phase pitch (Nat.max 1 overs * 6) plan recent.
Proof.
  unfold Page.buildVariedPlan.
  destruct (planLoop_total bowler phase pitch (Nat.max 1 overs * 6) 0
              (JS.toUint32 (Page.seedOf bowler overs phase pitch salt)) [] [])
    as (plan & H).
  destruct (planLoop_planInv _ _ _ _ _ _ H) as (recent & Hr).
  exists plan, recent. split; assumption.
Qed.

(* ================================================================== *)
(** * The claims on the generated sequences *)

(** C9.  Numbering: the page composer stamps the delivery at index [i]
    with over [i / 6 + 1] and ball [i mod 6 + 1]; [buildOverPlan], whose
    deliveries have no ball number, stamps it with over [i / 6 + 1]. *)
Theorem numbering_invariant :
  (forall bowler overs phase pitch salt,
     exists plan,
       Page.buildVariedPlan bowler overs phase pitch salt = Some plan
       /\ List.length plan = (Nat.max 1 overs * 6)%nat
       /\ forall i d, nth_error plan i = Some d ->
                      Page.over d = (i / 6 + 1)%nat /\ Page.ball d = (i mod 6 + 1)%nat)
  /\ (forall b overs phase pitch,
        exists plan,
          OverLogic.buildOverPlan b overs phase pitch = DeliveryLogic.Ok plan
          /\ List.length plan = (overs * 6)%nat
          /\ forall i d, nth_error plan i = Some d -> Cricket.over d = (i / 6 + 1)%nat).
Proof.
  split.
  - intros bowler overs phase pitch salt.
    destruct (buildVariedPlan_run bowler overs phase pitch salt)
      as (plan & recent & Hp & Hlen & _ & Hnum & _).
    exists plan. auto.
  - intros b overs phase pitch.
    destruct (buildOverPlan_run b overs phase pitch) as (seq & Hg & Hl & Hb).
    eexists. split; [exact Hb|]. split; [rewrite mapi_length; exact Hl|].
    intros i d Hn. rewrite mapi_nth_error in Hn.
    destruct (nth_error seq i) as [x|]; [|discriminate].
    simpl in Hn. inversion Hn. reflexivity.
Qed.

(** C5 (as amended).  In a plan of [buildVariedPlan] no three consecutive
    deliveries have one type, whenever the type table of the third ball
    holds another type with a positive weight. *)
Theorem no_three_in_a_row bowler overs phase pitch salt plan i d0 d1 d2 :
  Page.buildVariedPlan bowler overs phase pitch salt = Some plan ->
  nth_error plan i = Some d0 ->
  nth_error plan (i + 1) = Some d1 ->
  nth_error plan (i + 2) = Some d2 ->
  alternativeAt bowler phase pitch (i + 2) (Page.btype d1) ->
  ~ (Page.btype d0 = Page.btype d1 /\ Page.btype d1 = Page.btype d2).
Proof.
  intros Hp H0 H1 H2 Halt.
  destruct (buildVariedPlan_run bowler overs phase pitch salt)
    as (plan' & recent & Hp' & _ & _ & _ & Hstreak & _).
  rewrite Hp in Hp'. inversion Hp'; subst plan'.
  replace (i + 1)%nat with (S i) in H1 by lia.
  replace (i + 2)%nat with (S (S i)) in H2, Halt by lia.
  eapply Hstreak; eauto.
Qed.

Lemma no_three_in_a_row_witness :
  exists plan d0 d1 d2,
    Page.buildVariedPlan bumrah 1 Page.powerplay Page.Normal "" = Some plan
    /\ nth_error plan 1 = Some d0 /\ nth_error plan 2 = Some d1
    /\ nth_error plan 3 = Some d2
    /\ Page.btype d0 = Page.btype d1
    /\ ~ (Page.btype d0 = Page.btype d1 /\ Page.btype d1 = Page.btype d2).
Proof.
  eexists. eexists. eexists. eexists.
  split; [vm_compute; reflexivity|].
  split; [reflexivity|]. split; [reflexivity|]. split; [reflexivity|].
  split; [reflexivity|].
  eapply (no_three_in_a_row bumrah 1 Page.powerplay Page.Normal "" _ 1).
  - vm_compute. reflexivity.
  - reflexivity.
  - reflexivity.
  - reflexivity.
  - exists Page.outswing. eexists. split; [vm_compute; left; reflexivity|].
    split; [discriminate | reflexivity].
Defined.

Lemma threeOf_true t out i :
  threeOf t out i = true ->
  exists d0 d1 d2,
    nth_error out i = Some d0 /\ nth_error out (i + 1) = Some d1
    /\ nth_error out (i + 2) = Some d2
    /\ Cricket.dtype d0 = t /\ Cricket.dtype d1 = t /\ Cricket.dtype d2 = t.
Proof.
  unfold threeOf, typeAt.
  destruct (nth_error out i) as [d0|]; [|discriminate].
  destruct (nth_error out (i + 1)) as [d1|]; [|discriminate].
  destruct (nth_error out (i + 2)) as [d2|]; [|discriminate].
  simpl. rewrite !andb_true_iff, !DeliveryType_beq_eq. intros [[H0 H1] H2].
  exists d0, d1, d2. auto 10.
Qed.

Lemma nehra_two_overs :
  checkOk (OverLogic.buildOverPlan nehra 2 Cricket.middle Cricket.Normal)
    (fun out => threeOf Cricket.Bouncer out 8) = true.
Proof. vm_compute. reflexivity. Qed.

(** C5 as stated fails on the library composer, which has no rule against
    streaks: in this two-over plan the deliveries at indices 8, 9 and 10,
    after the trap window 4..6, are three bouncers, while the seven other
    pace types sit in the pool with weight 1. *)
Lemma library_composer_streak :
  exists out d0 d1 d2,
    OverLogic.buildOverPlan nehra 2 Cricket.middle Cricket.Normal = DeliveryLogic.Ok out
    /\ nth_error out 8 = Some d0 /\ nth_error out 9 = Some d1 /\ nth_error out 10 = Some d2
    /\ outsideTrap 12 8 /\ outsideTrap 12 9 /\ outsideTrap 12 10
    /\ Cricket.dtype d0 = Cricket.dtype d1 /\ Cricket.dtype d1 = Cricket.dtype d2
    /\ exists k w,
         In (k, w) (StrategyMap.delPool
                      (StrategyMap.buildWeightedPools nehra Cricket.middle Cricket.Normal))
         /\ k <> Cricket.dtype d1 /\ PrimFloat.ltb 0 w = true.
Proof.
  pose proof nehra_two_overs as H.
  apply checkOk_true in H. destruct H as (out & Hg & H).
  apply threeOf_true in H. destruct H as (d0 & d1 & d2 & H0 & H1 & H2 & E0 & E1 & E2).
  exists out, d0, d1, d2.
  refine (conj Hg (conj H0 (conj H1 (conj H2 (conj _ (conj _ (conj _ (conj _ (conj _ _))))))))).
  - right. right. vm_compute. lia.
  - right. right. vm_compute. lia.
  - right. right. vm_compute. lia.
  - congruence.
  - congruence.
  - exists Cricket.Standard, 1%float. rewrite E1.
    split; [vm_compute; left; reflexivity|]. split; [discriminate | reflexivity].
Qed.

(** C8 (as amended).  In every delivery of a plan of [buildVariedPlan]: a
    yorker has its line among 4th/5th stump, off stump and outside off; a
    bouncer that is not a yorker is at the body.  And the deliveries of a
    plan follow each other on one stream that starts at the seed: each is
    composed from the stream where its predecessor left it, as
    [composedAt] says, so that for a spinner a sampled short length is
    back of length in the plan exactly when the next value of the stream
    is below 0.6, and in every other case the sampled length is the
    length in the plan and the stream is not read. *)
Theorem coherence_corrections :
  (forall bowler overs phase pitch salt,
     exists plan,
       Page.buildVariedPlan bowler overs phase pitch salt = Some plan
       /\ Forall (fun d =>
                    (Page.length d = Page.yorker -> In (Page.line d) yorkerLines)
                    /\ (Page.btype d = Page.bouncer -> Page.length d <> Page.yorker ->
                        Page.line d = Page.at_body)) plan)
  /\ (forall bowler overs phase pitch salt,
        exists plan states,
          Page.buildVariedPlan bowler overs phase pitch salt = Some plan
          /\ nth_error states 0
             = Some (JS.toUint32 (Page.seedOf bowler overs phase pitch salt), [])
          /\ forall i d,
               nth_error plan i = Some d ->
               exists t recent sampledLength t',
                 nth_error states i = Some (t, recent)
                 /\ nth_error states (S i) = Some (t', Page.remember recent (Page.btype d))
                 /\ composedAt bowler phase pitch i t recent sampledLength d t').
Proof.
  split.
  - intros bowler overs phase pitch salt.
    destruct (buildVariedPlan_run bowler overs phase pitch salt)
      as (plan & recent & Hp & _ & _ & _ & _ & Hcoh).
    exists plan. split; [exact Hp|].
    eapply Forall_impl; [|exact Hcoh]. intros d (_ & Hy & Hb). auto.
  - intros bowler overs phase pitch salt.
    destruct (buildVariedPlan_run bowler overs phase pitch salt)
      as (plan & recent & Hp & _).
    pose proof Hp as Hl. unfold Page.buildVariedPlan in Hl. cbv zeta in Hl.
    apply planLoop_trace in Hl.
    destruct Hl as (news & states & Hout & H0 & Hall).
    cbn [app] in Hout. subst news.
    exists plan, states. split; [exact Hp|]. split; [exact H0|]. exact Hall.
Qed.

(** Both cases of the spinner rule in one plan: a leg spinner's two overs
    in the middle phase with the salt "b".  The deliveries at the indices
    7 and 10 both sample a short length; the first is back of length in
    the plan, the second stays short.  Each reads the stream four times:
    the three samples and the value of the rule. *)
Example spinner_short_lengths_in_a_plan :
  Page.isSpin kumble_page = true
  /\ exists plan d e,
       Page.buildVariedPlan kumble_page 2 Page.middle Page.Normal "b" = Some plan
       /\ nth_error plan 7 = Some d
       /\ composedAt kumble_page Page.middle Page.Normal 7 39521886837
            [Page.leg_break; Page.leg_break] Page.short d 46848150089
       /\ Page.length d = Page.back_of_length
       /\ nth_error plan 10 = Some e
       /\ composedAt kumble_page Page.middle Page.Normal 10 57837544967
            [Page.top_spinner; Page.googly] Page.short e 65163808219
       /\ Page.length e = Page.short.
Proof.
  split; [reflexivity|].
  eexists. eexists. eexists. split; [vm_compute; reflexivity|].
  split; [reflexivity|]. split.
  { unfold composedAt. eexists. eexists. eexists. eexists. eexists.
    cbv zeta. split; [vm_compute; reflexivity|]. split; [vm_compute; reflexivity|].
    split; [vm_compute; reflexivity|]. split; [reflexivity|].
    split; vm_compute; auto. }
  split; [reflexivity|]. split; [reflexivity|]. split; [|reflexivity].
  unfold composedAt. eexists. eexists. eexists. eexists. eexists.
  cbv zeta. split; [vm_compute; reflexivity|]. split; [vm_compute; reflexivity|].
  split; [vm_compute; reflexivity|]. split; [reflexivity|].
  split; vm_compute; auto.
Qed.

(** C8 as stated fails.  On the page a bouncer that is also a yorker goes
    to off stump: the yorker rule runs after the bouncer rule.  The library
    composer has no coherence rule: outside the trap window 4..6 it bowls
    a bouncer at off stump and a yorker at the body. *)
Lemma coherence_not_as_claimed :
  (exists plan d,
     Page.buildVariedPlan bumrah 2 Page.death Page.Normal "" = Some plan
     /\ nth_error plan 9 = Some d
     /\ Page.btype d = Page.bouncer /\ Page.length d = Page.yorker
     /\ Page.line d = Page.off_stump)
  /\ (exists out d y,
        OverLogic.buildOverPlan nehra 2 Cricket.middle Cricket.Normal = DeliveryLogic.Ok out
        /\ outsideTrap 12 8 /\ nth_error out 8 = Some d
        /\ Cricket.dtype d = Cricket.Bouncer /\ Cricket.line d = Cricket.Off_stump
        /\ outsideTrap 12 1 /\ nth_error out 1 = Some y
        /\ Cricket.length y = Cricket.Yorker /\ Cricket.line y = Cricket.At_body).
Proof.
  split.
  - eexists. eexists. split; [vm_compute; reflexivity|].
    split; [reflexivity|]. auto.
  - eexists. eexists. eexists. split; [vm_compute; reflexivity|].
    split; [right; right; vm_compute; lia|]. split; [reflexivity|].
    split; [reflexivity|]. split; [reflexivity|].
    split; [right; left; vm_compute; lia|]. split; [reflexivity|]. auto.
Qed.

(** C2 (as amended).  On the page every delivery has a type in
    [allowedTypesFor] of its bowler.  The library composer knows two
    families: a bowler whose type does not contain "spin" gets pace types
    only, on every pitch, and a bowler whose type does gets spin types
    only on a Normal pitch, the three trap deliveries included. *)
Theorem archetype_legality :
  (forall bowler overs phase pitch salt,
     exists plan,
       Page.buildVariedPlan bowler overs phase pitch salt = Some plan
       /\ Forall (fun d => In (Page.btype d) (Page.allowedTypesFor bowler)) plan)
  /\ (forall b balls phase pitch seedHint,
        StrategyMap.isSpin b = false ->
        exists out,
          DeliveryLogic.generateDeliveries b balls phase pitch seedHint = DeliveryLogic.Ok out
          /\ Forall (fun d => In (Cricket.dtype d) Cricket.DELIVERY_TYPES_PACE) out)
  /\ (forall b balls phase seedHint,
        StrategyMap.isSpin b = true ->
        exists out,
          DeliveryLogic.generateDeliveries b balls phase Cricket.Normal seedHint
          = DeliveryLogic.Ok out
          /\ Forall (fun d => In (Cricket.dtype d) Cricket.DELIVERY_TYPES_SPIN) out).
Proof.
  split; [|split].
  - intros bowler overs phase pitch salt.
    destruct (buildVariedPlan_run bowler overs phase pitch salt)
      as (plan & recent & Hp & _ & _ & _ & _ & Hcoh).
    exists plan. split; [exact Hp|].
    eapply Forall_impl; [|exact Hcoh]. intros d (Ha & _). exact Ha.
  - intros b balls phase pitch seedHint Hb.
    destruct (generateDeliveries_run b balls phase pitch seedHint)
      as (out0 & st1 & out & st2 & _ & _ & _ & Hg).
    exists out. split; [exact Hg|].
    pose proof (generateDeliveries_family b balls phase pitch seedHint out
                  (or_introl Hb) Hg) as H.
    rewrite Hb in H. exact H.
  - intros b balls phase seedHint Hb.
    destruct (generateDeliveries_run b balls phase Cricket.Normal seedHint)
      as (out0 & st1 & out & st2 & _ & _ & _ & Hg).
    exists out. split; [exact Hg|].
    pose proof (generateDeliveries_family b balls phase Cricket.Normal seedHint out
                  (or_intror eq_refl) Hg) as H.
    rewrite Hb in H. exact H.
Qed.

(** C2 as stated fails.  The library composer has one trap for every
    spinner: this leg spinner's over holds an off-break at index 1, the
    first set-up of the trap. *)
Lemma leg_spinner_is_given_an_off_break :
  exists out d,
    OverLogic.buildOverPlan kumble_plain 1 Cricket.middle Cricket.Normal
    = DeliveryLogic.Ok out
    /\ Cricket.type kumble_plain = Cricket.leg_spin
    /\ nth_error out 1 = Some d
    /\ Cricket.dtype d = Cricket.Off_break
    /\ ~ In (Cricket.dtype d) legSpinFamily.
Proof.
  eexists. eexists. split; [vm_compute; reflexivity|].
  split; [reflexivity|]. split; [reflexivity|]. split; [reflexivity|].
  simpl. intuition discriminate.
Qed.

(** C3: the code at a failing input.  One over for this bowler, middle
    phase, Normal pitch: the trap window is 1..3.  The fill loop drew the
    payoff triple (arm ball, full, middle stump) for index 4, so the forced
    draw of the payoff finds it used 200 times and returns the fallback:
    index 3 holds (off-break, full, off stump) with the annotator's
    purpose, not the payoff. *)
Theorem trap_payoff_lost_when_already_drawn :
  exists out d3 d4,
    OverLogic.buildOverPlan kumble_plain 1 Cricket.middle Cricket.Normal
    = DeliveryLogic.Ok out
    /\ DeliveryLogic.trapStart 6 = 1%nat
    /\ nth_error out 4 = Some d4
    /\ forcedTriple (DeliveryLogic.payoff (trapOf kumble_plain Cricket.middle))
       = Some (tripleOf d4)
    /\ nth_error out 3 = Some d3
    /\ tripleOf d3 = (Cricket.Off_break, Cricket.Full, Cricket.Off_stump)
    /\ forcedTriple (DeliveryLogic.payoff (trapOf kumble_plain Cricket.middle))
       <> Some (tripleOf d3)
    /\ fallbackTriple
         (StrategyMap.buildWeightedPools kumble_plain Cricket.middle Cricket.Normal)
       = Some (tripleOf d3)
    /\ Cricket.p_purpose (DeliveryLogic.payoff (trapOf kumble_plain Cricket.middle))
       <> Some (Cricket.purpose d3).
Proof.
  eexists. eexists. eexists. split; [vm_compute; reflexivity|].
  split; [reflexivity|]. split; [reflexivity|]. split; [reflexivity|].
  split; [reflexivity|]. split; [reflexivity|].
  split; [vm_compute; discriminate|]. split; [reflexivity|].
  vm_compute. discriminate.
Qed.

(* ================================================================== *)
(** * The spell planner *)

Section SpellFacts.
Import Page.

Definition remainingSum (q : list (string * nat)) : nat := list_sum (map snd q).

Lemma pass_sum q :
  existsb (fun x => (0 <? snd x)%nat) q = true ->
  (remainingSum (fst (pass q)) < remainingSum q)%nat.
Proof.
  unfold remainingSum.
  assert (Hle : forall q, (list_sum (map snd (fst (pass q))) <= list_sum (map snd q))%nat).
  { intros q0. induction q0 as [|[b r] q0 IH]; simpl; [lia|].
    destruct (pass q0) as [q' pushed]. simpl in IH.
    destruct (0 <? r)%nat; simpl; lia. }
  induction q as [|[b r] q IH]; simpl; [discriminate|].
  specialize (Hle q). destruct (pass q) as [q' pushed]. simpl in *.
  destruct (0 <? r)%nat eqn:E; simpl.
  - intros _. apply Nat.ltb_lt in E. lia.
  - intros H. specialize (IH H). lia.
Qed.

(** The [while] loop ends: the sum of the remaining overs is fuel enough. *)
Lemma rounds_total fuel q order :
  (remainingSum q <= fuel)%nat -> exists o, rounds fuel q order = Some o.
Proof.
  revert q order. induction fuel as [|f IH]; intros q order Hf; simpl.
  - destruct (existsb _ q) eqn:E; [|eauto].
    apply pass_sum in E. lia.
  - destruct (existsb _ q) eqn:E; [|eauto].
    apply pass_sum in E. destruct (pass q) as [q' pushed]. simpl in E.
    apply IH. lia.
Qed.

Lemma buildOrder_total s : exists order, buildOrder s = Some order.
Proof. unfold buildOrder. apply rounds_total. unfold remainingSum. lia. Qed.

Variable roster : list Bowler.
Variable ph : PhaseId.
Variable pt : PitchType.

Lemma forEachOver_spec order :
  Forall (fun i => getBowlerById roster i <> None) order ->
  forall idx acc,
  exists plan' o2b',
    forEachOver roster ph pt order idx acc
    = Some ((fst acc ++ plan')%list, (snd acc ++ o2b')%list)
    /\ List.length plan' = (6 * List.length order)%nat
    /\ o2b' = combine (seq (idx + 1) (List.length order)) order
    /\ forall k bowlerId,
         nth_error order k = Some bowlerId ->
         exists b oneOver,
           getBowlerById roster bowlerId = Some b
           /\ buildVariedPlan b 1 ph pt ("over:" ++ JS.showNat (idx + k + 1))
              = Some oneOver
           /\ List.length oneOver = 6%nat
           /\ overBlock k plan' = map (restamp (idx + k + 1)) oneOver.
Proof.
  intros Hres. induction Hres as [|bid order Hb _ IH]; intros idx acc.
  - exists [], []. simpl. rewrite !app_nil_r. destruct acc.
    repeat split; auto. intros k i H. destruct k; discriminate.
  - cbn [forEachOver]. destruct (getBowlerById roster bid) as [b|] eqn:Eb; [|contradiction].
    destruct (buildVariedPlan_run b 1 ph pt ("over:" ++ JS.showNat (idx + 1)))
      as (oneOver & recent & Hp & Hlen & _).
    change (Nat.max 1 1 * 6)%nat with 6%nat in Hlen.
    rewrite Hp.
    destruct (IH (S idx)
                ((fst acc ++ map (restamp (idx + 1)) oneOver)%list,
                 (snd acc ++ [((idx + 1)%nat, bid)])%list))
      as (plan2 & o2b2 & Hf & Hl2 & Ho2 & Hk).
    exists (map (restamp (idx + 1)) oneOver ++ plan2)%list,
           (((idx + 1)%nat, bid) :: o2b2).
    split; [|split; [|split]].
    + rewrite Hf. simpl. rewrite <- !app_assoc. reflexivity.
    + rewrite length_app, length_map, Hlen, Hl2. cbn [List.length]. lia.
    + rewrite Ho2. cbn [List.length seq combine].
      replace (S idx + 1)%nat with (S (idx + 1)) by lia. reflexivity.
    + intros k i Hn. destruct k as [|k]; simpl in Hn.
      * inversion Hn; subst i. exists b, oneOver.
        rewrite Nat.add_0_r. split; [exact Eb|]. split; [exact Hp|].
        split; [exact Hlen|].
        unfold overBlock. rewrite Nat.mul_0_r. cbn [skipn].
        rewrite firstn_app, firstn_all2 by (rewrite length_map; lia).
        rewrite length_map, Hlen. simpl. rewrite app_nil_r. reflexivity.
      * destruct (Hk k i Hn) as (b' & o' & Hg & Hp' & Hl' & Hblock).
        exists b', o'. replace (idx + S k + 1)%nat with (S idx + k + 1)%nat by lia.
        split; [exact Hg|]. split; [exact Hp'|]. split; [exact Hl'|].
        rewrite <- Hblock. unfold overBlock.
        replace (6 * S k)%nat with (List.length (map (restamp (idx + 1)) oneOver) + 6 * k)%nat
          by (rewrite length_map; lia).
        rewrite skipn_app, skipn_all2 by lia.
        cbn [app]. f_equal. f_equal. lia.
Qed.

End SpellFacts.

Section SpellOrderFacts.
Import Page.

(** The ids a scan takes from the queue, and the largest number of overs
    an entry has left. *)
Definition roundQ (q : list (string * nat)) (j : nat) : list string :=
  map fst (filter (fun x => (j <? snd x)%nat) q).

Definition mostQ (q : list (string * nat)) : nat :=
  fold_right (fun x m => Nat.max (snd x) m) 0%nat q.

Definition less1 (x : string * nat) : string * nat := (fst x, (snd x - 1)%nat).

Lemma pass_closed q : pass q = (map less1 q, roundQ q 0).
Proof.
  unfold roundQ. induction q as [|[b r] q IH]; [reflexivity|].
  cbn [pass]. rewrite IH. cbn [map filter snd fst less1].
  destruct (0 <? r)%nat eqn:E; [reflexivity|].
  apply Nat.ltb_ge in E. replace r with 0%nat by lia. reflexivity.
Qed.

Lemma roundQ_less1 q j : roundQ (map less1 q) j = roundQ q (S j).
Proof.
  unfold roundQ. induction q as [|[b r] q IH]; [reflexivity|].
  cbn [map filter less1 snd fst].
  replace (j <? r - 1)%nat with (S j <? r)%nat.
  - destruct (S j <? r)%nat; cbn [map]; rewrite IH; reflexivity.
  - destruct (S j <? r)%nat eqn:E1; destruct (j <? r - 1)%nat eqn:E2;
      rewrite ?Nat.ltb_lt, ?Nat.ltb_ge in *; try reflexivity; lia.
Qed.

Lemma mostQ_less1 q : mostQ (map less1 q) = (mostQ q - 1)%nat.
Proof.
  induction q as [|[b r] q IH]; [reflexivity|].
  cbn [map mostQ fold_right less1 snd fst]. fold (mostQ (map less1 q)). fold (mostQ q).
  rewrite IH. lia.
Qed.

Lemma overs_left_mostQ q :
  existsb (fun x => (0 <? snd x)%nat) q = (0 <? mostQ q)%nat.
Proof.
  induction q as [|[b r] q IH]; [reflexivity|].
  cbn [existsb mostQ fold_right snd]. fold (mostQ q). rewrite IH.
  destruct (0 <? r)%nat eqn:E1; destruct (0 <? mostQ q)%nat eqn:E2;
    destruct (0 <? Nat.max r (mostQ q))%nat eqn:E3;
    rewrite ?Nat.ltb_lt, ?Nat.ltb_ge in *; try reflexivity; lia.
Qed.

(** The [while] loop, in closed form: scan after scan, as long as an
    entry has overs left. *)
Lemma rounds_closed fuel q order :
  (remainingSum q <= fuel)%nat ->
  rounds fuel q order = Some (order ++ List.concat (map (roundQ q) (seq 0 (mostQ q))))%list.
Proof.
  revert q order. induction fuel as [|f IH]; intros q order Hf.
  - cbn [rounds]. destruct (existsb _ q) eqn:E.
    + apply pass_sum in E. lia.
    + rewrite overs_left_mostQ in E. apply Nat.ltb_ge in E.
      replace (mostQ q) with 0%nat by lia. simpl. rewrite app_nil_r. reflexivity.
  - cbn [rounds]. destruct (existsb _ q) eqn:E.
    + pose proof (pass_sum q E) as Hs. rewrite pass_closed in *. cbn [fst] in Hs.
      rewrite IH by lia.
      rewrite overs_left_mostQ in E. apply Nat.ltb_lt in E.
      rewrite mostQ_less1.
      replace (mostQ q) with (S (mostQ q - 1)) at 2 by lia.
      cbn [seq map List.concat]. rewrite <- seq_shift, map_map, <- app_assoc.
      f_equal. f_equal. f_equal. f_equal. apply map_ext. intros j. apply roundQ_less1.
    + rewrite overs_left_mostQ in E. apply Nat.ltb_ge in E.
      replace (mostQ q) with 0%nat by lia. simpl. rewrite app_nil_r. reflexivity.
Qed.

Lemma roundQ_remainingOf s j : roundQ (remainingOf s) j = roundOf s j.
Proof.
  unfold roundQ, roundOf, remainingOf. induction s as [|x s IH]; [reflexivity|].
  cbn [map filter snd fst].
  replace (j <? Z.to_nat (Z.max 0 (overs x)))%nat with (Z.of_nat j <? overs x).
  - destruct (Z.of_nat j <? overs x); cbn [map]; rewrite IH; reflexivity.
  - destruct (Z.of_nat j <? overs x) eqn:E1;
      destruct (j <? Z.to_nat (Z.max 0 (overs x)))%nat eqn:E2;
      rewrite ?Z.ltb_lt, ?Z.ltb_ge, ?Nat.ltb_lt, ?Nat.ltb_ge in *; try reflexivity; lia.
Qed.

Lemma mostQ_remainingOf s : mostQ (remainingOf s) = mostOvers s.
Proof.
  unfold remainingOf, mostOvers. induction s as [|x s IH]; [reflexivity|].
  cbn [map mostQ fold_right snd]. fold (mostQ (map (fun x => (bowlerId x, Z.to_nat (Z.max 0 (overs x)))) s)).
  rewrite IH. f_equal. lia.
Qed.

Lemma buildOrder_closed s : buildOrder s = Some (roundRobin s).
Proof.
  unfold buildOrder. rewrite rounds_closed by (unfold remainingSum; lia).
  cbn [app]. rewrite mostQ_remainingOf. unfold roundRobin. f_equal. f_equal.
  apply map_ext. intros j. apply roundQ_remainingOf.
Qed.

Lemma getBowlerById_first roster i b :
  getBowlerById roster i = Some b -> firstWithId roster i b.
Proof.
  unfold getBowlerById, firstWithId.
  induction roster as [|x roster IH]; [discriminate|].
  cbn [find]. destruct (String.eqb (id x) i) eqn:E.
  - intros H. inversion H; subst x. exists [], roster.
    split; [reflexivity|]. split; [apply String.eqb_eq; exact E|]. intros b' [].
  - intros H. destruct (IH H) as (before & after & -> & Hid & Hb).
    exists (x :: before), after. split; [reflexivity|]. split; [exact Hid|].
    intros b' [<-|Hin]; [apply String.eqb_neq; exact E | apply Hb; exact Hin].
Qed.

Lemma getBowlerById_on_roster roster i :
  In i (map id roster) -> getBowlerById roster i <> None.
Proof.
  unfold getBowlerById. induction roster as [|x roster IH]; [intros []|].
  cbn [map find]. intros [H|H].
  - rewrite H, String.eqb_refl. discriminate.
  - destruct (String.eqb (id x) i); [discriminate | apply IH; exact H].
Qed.

Lemma overBlock_nth (plan : list DeliveryPlanItem) k j :
  (j < 6)%nat -> nth_error (overBlock k plan) j = nth_error plan (6 * k + j).
Proof.
  intros Hj. unfold overBlock. rewrite nth_error_firstn.
  apply Nat.ltb_lt in Hj. rewrite Hj. apply nth_error_skipn.
Qed.

End SpellOrderFacts.

(** C6.  The spell planner takes one over from each item with overs left,
    in the order of the list, scan after scan, until no item has overs
    left: the order of the overs is [roundRobin] of the spell, which for
    two overs each is A, B, A, B and for three and one is A, B, A, A.
    When every id of the order is the id of a bowler of the roster, the
    planner returns; the over at position [k] is one over (six balls) of
    [buildVariedPlan] for the first bowler of the roster with that id,
    with the salt ["over:" ++ (k + 1)]; its deliveries are in the plan at
    the indices [6 * k] to [6 * k + 5] with the over number [k + 1]; and
    over [k + 1] is mapped to the bowler's id. *)
Theorem round_robin_spell :
  (forall A B,
     Page.buildOrder [ {| Page.bowlerId := A; Page.overs := 2 |};
                       {| Page.bowlerId := B; Page.overs := 2 |} ] = Some [A; B; A; B])
  /\ (forall A B,
        Page.buildOrder [ {| Page.bowlerId := A; Page.overs := 3 |};
                          {| Page.bowlerId := B; Page.overs := 1 |} ] = Some [A; B; A; A])
  /\ (forall roster s ph pt,
        Page.buildOrder s = Some (roundRobin s)
        /\ (Forall (fun i => In i (map Page.id roster)) (roundRobin s) ->
            exists plan overToBowler,
              Page.buildSpellPlan roster s ph pt = Some (plan, overToBowler)
              /\ overToBowler
                 = combine (seq 1 (List.length (roundRobin s))) (roundRobin s)
              /\ List.length plan = (6 * List.length (roundRobin s))%nat
              /\ forall k bowlerId,
                   nth_error (roundRobin s) k = Some bowlerId ->
                   scheduled roster ph pt plan k bowlerId)).
Proof.
  split; [|split].
  - intros A B. reflexivity.
  - intros A B. reflexivity.
  - intros roster s ph pt.
    pose proof (buildOrder_closed s) as Ho. split; [exact Ho|].
    intros Hon.
    assert (Hres : Forall (fun i => Page.getBowlerById roster i <> None) (roundRobin s)).
    { eapply Forall_impl; [|exact Hon]. intros i. apply getBowlerById_on_roster. }
    destruct (forEachOver_spec roster ph pt (roundRobin s) Hres 0 ([], []))
      as (plan & o2b & Hf & Hl & Hc & Hk).
    exists plan, o2b. unfold Page.buildSpellPlan. rewrite Ho.
    split; [exact Hf|]. split; [exact Hc|]. split; [exact Hl|].
    intros k i Hn. destruct (Hk k i Hn) as (b & oneOver & Hb & Hp & Hlen & Hblock).
    exists b, oneOver. split; [apply getBowlerById_first; exact Hb|].
    split; [exact Hp|]. split; [exact Hlen|].
    intros j d0 Hj.
    assert (Hj6 : (j < 6)%nat).
    { rewrite <- Hlen. apply nth_error_Some. congruence. }
    exists (Page.restamp (k + 1) d0).
    rewrite <- (overBlock_nth plan k j Hj6), Hblock, nth_error_map, Hj.
    cbn [plus]. repeat split.
Qed.

(* ================================================================== *)
(** * The type table always offers an alternative *)

Section PositiveWeights.
Import Page.
Local Open Scope Q_scope.

(** [f] is pointwise at least [lo]. *)
Definition above (lo f : Rec Ball) : Prop := forall k, lo k <= f k.

Lemma above_refl lo : above lo lo.
Proof. intros k. apply Qle_refl. Qed.

Lemma above_bplus lo k d f : 0 <= d -> above lo f -> above lo (bplus k d f).
Proof.
  intros Hd Hf x. unfold bplus, plus. specialize (Hf x).
  destruct (Ball_beq x k); lra.
Qed.

Lemma above_when lo c g f :
  (forall f', above lo f' -> above lo (g f')) -> above lo f -> above lo (when c g f).
Proof. intros Hg Hf. unfold when. destruct c; auto. Qed.

Ltac above_tac :=
  repeat first
    [ assumption
    | apply above_refl
    | apply above_bplus; [unfold Qle; simpl; lia|]
    | apply above_when; [intros ? ?; cbv beta|]
    | match goal with
      | |- above _ (match ?x with _ => _ end) => destruct x
      end ].

Lemma derivePaceWeights_above b phase pitch s st :
  exists f, derivePaceWeights b phase pitch s st = entries paceKeys f
            /\ above (paceBase phase) f.
Proof.
  unfold derivePaceWeights. eexists. split; [reflexivity|]. above_tac.
Qed.

Lemma deriveSpinWeights_above b phase pitch s st :
  exists f, deriveSpinWeights b phase pitch s st
            = entries spinKeys (fun k => if has (allowedTypesFor b) k then f k else 0)
            /\ above (spinBase phase) f.
Proof.
  unfold deriveSpinWeights. eexists. split; [reflexivity|]. above_tac.
Qed.

Definition positive (l : Local) : Prop := Forall (fun kv => 0 < snd kv) (localType l).

Lemma paceBase_pos phase k : In k paceKeys -> 0 < paceBase phase k.
Proof.
  intros Hin. simpl in Hin.
  destruct phase; repeat (destruct Hin as [<-|Hin]; [reflexivity|]); contradiction.
Qed.

Lemma spinBase_pos phase k : In k spinKeys -> 0 < spinBase phase k.
Proof.
  intros Hin. simpl in Hin.
  destruct phase; repeat (destruct Hin as [<-|Hin]; [reflexivity|]); contradiction.
Qed.

Lemma entries_pos ks (f : Rec Ball) :
  (forall k, In k ks -> 0 < f k) -> Forall (fun kv => 0 < snd kv) (entries ks f).
Proof.
  intros H. unfold entries. apply Forall_forall. intros [k v] Hin.
  apply in_map_iff in Hin. destruct Hin as (k' & E & Hin). inversion E; subst.
  simpl. apply H. exact Hin.
Qed.

Lemma setW_pos k v w :
  0 < v -> Forall (fun kv => 0 < snd kv) w -> Forall (fun kv => 0 < snd kv) (setW k v w).
Proof.
  intros Hv Hw. induction Hw as [|[k' v'] w Hk Hw IH]; simpl.
  - constructor; [exact Hv | constructor].
  - destruct (Ball_beq k k'); constructor; auto.
Qed.

Lemma getW_pos k w v :
  Forall (fun kv => 0 < snd kv) w -> getW k w = Some v -> 0 < v.
Proof.
  intros Hw. induction Hw as [|[k' v'] w Hk Hw IH]; simpl; [discriminate|].
  destruct (Ball_beq k k'); [|exact IH].
  intros E. inversion E; subst. exact Hk.
Qed.

Definition keepsPos (f : Local -> Local) : Prop := forall l, positive l -> positive (f l).

Lemma keepsPos_tAdd k d : 0 < d -> keepsPos (tAdd k d).
Proof.
  intros Hd l Hl. unfold positive, tAdd. simpl. apply setW_pos; [|exact Hl].
  destruct (getW k (localType l)) as [v|] eqn:E.
  - pose proof (getW_pos _ _ _ Hl E). lra.
  - lra.
Qed.

Lemma keepsPos_tAddIfPresent k d : 0 < d -> keepsPos (tAddIfPresent k d).
Proof.
  intros Hd l Hl. unfold tAddIfPresent.
  destruct (getW k (localType l)); [apply keepsPos_tAdd; assumption | exact Hl].
Qed.

Lemma keepsPos_lAdd k d : keepsPos (lAdd k d).
Proof. intros l Hl. exact Hl. Qed.

Lemma keepsPos_nAdd k d : keepsPos (nAdd k d).
Proof. intros l Hl. exact Hl. Qed.

Lemma keepsPos_id : keepsPos (fun l => l).
Proof. intros l Hl. exact Hl. Qed.

Lemma keepsPos_when c f : keepsPos f -> keepsPos (when c f).
Proof. intros Hf. unfold when. destruct c; [exact Hf | apply keepsPos_id]. Qed.

Lemma keepsPos_block ops : Forall keepsPos ops -> keepsPos (block ops).
Proof.
  unfold block. intros Hops. induction Hops as [|op ops Hop _ IH]; intros l Hl; simpl.
  - exact Hl.
  - apply IH. apply Hop. exact Hl.
Qed.

Ltac keepsPos_tac :=
  repeat first
    [ apply keepsPos_block; repeat constructor
    | apply keepsPos_when
    | apply keepsPos_lAdd
    | apply keepsPos_nAdd
    | apply keepsPos_id
    | apply keepsPos_tAddIfPresent; reflexivity
    | apply keepsPos_tAdd; reflexivity
    | match goal with
      | |- keepsPos (if ?c then _ else _) => destruct c
      end ].

Lemma keepsPos_pacePulses bowler phase ball : keepsPos (pacePulses bowler phase ball).
Proof. unfold pacePulses. keepsPos_tac. Qed.

Lemma keepsPos_spinPulses ball : keepsPos (spinPulses ball).
Proof. unfold spinPulses. keepsPos_tac. Qed.

Lemma typeKeys_sub bowler k :
  In k (typeKeys bowler) -> In k (if isSpin bowler then spinKeys else paceKeys).
Proof. unfold typeKeys. rewrite filter_In. tauto. Qed.

(** Every weight of the type table of a ball is positive. *)
Lemma localTables_positive bowler phase pitch ball :
  positive (localTables bowler phase pitch ball).
Proof.
  unfold localTables.
  destruct (isSpin bowler) eqn:Hs; cbn [negb].
  - destruct (deriveSpinWeights_above bowler phase pitch
                (map JS.toLowerCase (strengths bowler))
                (JS.toLowerCase (strategies bowler))) as (f & -> & Hf).
    apply keepsPos_spinPulses. unfold positive. cbn [localType].
    pose proof (clampFamily_entries bowler
                  (fun k => if has (allowedTypesFor bowler) k then f k else 0)) as Hc.
    rewrite Hs in Hc. rewrite Hc. apply entries_pos. intros k Hk.
    assert (Ha : has (allowedTypesFor bowler) k = true).
    { unfold typeKeys in Hk. apply filter_In in Hk. tauto. }
    rewrite Ha. apply typeKeys_sub in Hk. rewrite Hs in Hk.
    pose proof (spinBase_pos phase k Hk). specialize (Hf k). lra.
  - destruct (derivePaceWeights_above bowler phase pitch
                (map JS.toLowerCase (strengths bowler))
                (JS.toLowerCase (strategies bowler))) as (f & -> & Hf).
    apply keepsPos_pacePulses. unfold positive. cbn [localType].
    pose proof (clampFamily_entries bowler f) as Hc. rewrite Hs in Hc. rewrite Hc.
    apply entries_pos. intros k Hk. apply typeKeys_sub in Hk. rewrite Hs in Hk.
    pose proof (paceBase_pos phase k Hk). specialize (Hf k). lra.
Qed.

Lemma typeKeys_two bowler :
  exists a b, In a (typeKeys bowler) /\ In b (typeKeys bowler) /\ a <> b.
Proof.
  unfold typeKeys, isSpin, allowedTypesFor.
  destruct (type bowler).
  1-3, 6: exists outswing, inswing; cbv; intuition discriminate.
  - exists leg_break, googly; cbv; intuition discriminate.
  - exists off_break, arm_ball; cbv; intuition discriminate.
  - exists off_break, arm_ball; cbv; intuition discriminate.
Qed.

(** Whatever the last two types were, the table of every ball holds
    another type with a positive weight. *)
Lemma alternative_always bowler phase pitch i t : alternativeAt bowler phase pitch i t.
Proof.
  destruct (typeKeys_two bowler) as (a & b & Ha & Hb & Hab).
  assert (Hk : exists k, In k (typeKeys bowler) /\ k <> t).
  { destruct (Ball_eq_dec a t) as [->|Hat]; [exists b | exists a]; auto. }
  destruct Hk as (k & Hk & Hkt).
  rewrite <- (localTables_keys bowler phase pitch (i mod 6 + 1)) in Hk.
  unfold typeKeysOf in Hk. apply in_map_iff in Hk. destruct Hk as ([k' v] & E & Hin).
  simpl in E. subst k'. exists k, v. split; [exact Hin|]. split; [exact Hkt|].
  pose proof (localTables_positive bowler phase pitch (i mod 6 + 1)) as Hp.
  unfold positive in Hp. rewrite Forall_forall in Hp. apply (Hp (k, v) Hin).
Qed.

End PositiveWeights.

(** X22.  The page composer never bowls three deliveries of one type in
    a row: in every type table another type has a positive weight, so the
    side condition of C5 always holds. *)
Corollary no_three_in_a_row_ever bowler overs phase pitch salt plan i d0 d1 d2 :
  Page.buildVariedPlan bowler overs phase pitch salt = Some plan ->
  nth_error plan i = Some d0 ->
  nth_error plan (i + 1) = Some d1 ->
  nth_error plan (i + 2) = Some d2 ->
  ~ (Page.btype d0 = Page.btype d1 /\ Page.btype d1 = Page.btype d2).
Proof.
  intros Hp H0 H1 H2.
  destruct (buildVariedPlan_run bowler overs phase pitch salt)
    as (plan' & recent & Hp' & _ & _ & _ & Hstreak & _).
  rewrite Hp in Hp'. inversion Hp'; subst plan'.
  replace (i + 1)%nat with (S i) in H1 by lia.
  replace (i + 2)%nat with (S (S i)) in H2 by lia.
  eapply Hstreak; eauto. apply alternative_always.
Qed.

(* ================================================================== *)
(** * When the trap is in place *)

Section TrapFacts.
Import Cricket StrategyMap DeliveryLogic.
Variable phase : PhaseId.
Variable pools : Pools.

Definition forcedItem (t : DeliveryType) (l : Length) (n : Line) (p : string)
  : DeliveryPlanItem :=
  {| over := 1; dtype := t; length := l; line := n; purpose := p |}.

(** A fully forced draw of a triple that is not used succeeds at once,
    reads nothing from the stream and records the triple. *)
Lemma drawLoop_forced attempts t l n p st :
  existsb (Triple_beq (key t l n)) (used st) = false ->
  drawLoop phase pools (S attempts) (Some (step t l n p)) st
  = Ok (forcedItem t l n p,
        {| rngState := rngState st; used := key t l n :: used st |}).
Proof.
  intros H. cbn [drawLoop]. unfold bind, orElse, field, step, ret, has, add.
  cbn [p_type p_length p_line p_purpose]. rewrite H. cbn [negb]. rewrite H.
  destruct st. reflexivity.
Qed.

(** A fully forced draw of a used triple ends in the fallback. *)
Lemma drawLoop_blocked attempts t l n p st d st' :
  existsb (Triple_beq (key t l n)) (used st) = true ->
  drawLoop phase pools attempts (Some (step t l n p)) st = Ok (d, st') ->
  fallbackTriple pools = Some (tripleOf d)
  /\ purpose d = describePurpose (dtype d) (length d) (line d) phase
  /\ st' = st.
Proof.
  intros Hu. induction attempts as [|a IH].
  - cbn [drawLoop]. intros H.
    apply bind_Ok in H. destruct H as (t0 & s1 & Ht & H).
    apply bind_Ok in H. destruct H as (l0 & s2 & HL & H).
    apply bind_Ok in H. destruct H as (n0 & s3 & Hl & H).
    apply first_Ok in Ht. destruct Ht as (-> & wt & rt & Et).
    apply first_Ok in HL. destruct HL as (-> & wL & rL & EL).
    apply first_Ok in Hl. destruct Hl as (-> & wl & rl & El).
    unfold ret in H. inversion H; subst. split; [|split]; try reflexivity.
    unfold fallbackTriple. rewrite Et, EL, El. reflexivity.
  - cbn [drawLoop]. unfold bind at 1 2 3 4, orElse, field, step, ret, has.
    cbn [p_type p_length p_line p_purpose]. rewrite Hu. cbn [negb]. exact IH.
Qed.

(** The triples the fill loop recorded are triples of its deliveries. *)
Lemma fill_used todo st out st' :
  used st = [] -> fill phase pools todo [] st = Ok (out, st') ->
  forall k, In k (used st') -> exists d, In d out /\ tripleOf d = k.
Proof.
  intros Hu H.
  eapply (fill_inv phase pools
            (fun out st => forall k, In k (used st) -> exists d, In d out /\ tripleOf d = k));
    [| |exact H].
  - intros o s d s' Ho Hd k Hk. apply drawLoop_spec in Hd. destruct Hd as [_ Hd].
    destruct Hd as [_ A _ _ _ _ | _ A _]; rewrite A in Hk.
    + destruct Hk as [<-|Hk].
      * exists d. split; [apply in_or_app; right; left|]; reflexivity.
      * destruct (Ho k Hk) as (d' & Hin & E). exists d'.
        split; [apply in_or_app; left; exact Hin | exact E].
    + destruct (Ho k Hk) as (d' & Hin & E). exists d'.
      split; [apply in_or_app; left; exact Hin | exact E].
  - rewrite Hu. intros k [].
Qed.

Lemma insertTrap_in_place t0 l0 n0 p0 t1 l1 n1 p1 t2 l2 n2 p2 balls out st :
  List.length out = balls -> (6 <= balls)%nat ->
  Triple_beq (key t1 l1 n1) (key t0 l0 n0) = false ->
  Triple_beq (key t2 l2 n2) (key t1 l1 n1) = false ->
  Triple_beq (key t2 l2 n2) (key t0 l0 n0) = false ->
  existsb (Triple_beq (key t0 l0 n0)) (used st) = false ->
  existsb (Triple_beq (key t1 l1 n1)) (used st) = false ->
  existsb (Triple_beq (key t2 l2 n2)) (used st) = false ->
  exists st',
    insertTrap phase pools
      {| setup := [step t0 l0 n0 p0; step t1 l1 n1 p1]; payoff := step t2 l2 n2 p2 |}
      balls out st
    = Ok (replaceAt (trapStart balls + 2) (forcedItem t2 l2 n2 p2)
            (replaceAt (trapStart balls + 1) (forcedItem t1 l1 n1 p1)
               (replaceAt (trapStart balls) (forcedItem t0 l0 n0 p0) out)), st').
Proof.
  intros Hlen Hb D10 D21 D20 U0 U1 U2.
  assert (Hs := trapStart_in_range balls Hb).
  unfold insertTrap. apply Nat.leb_le in Hb. rewrite Hb.
  cbn [setup payoff nth_error]. unfold drawUnique.
  change 200%nat with (S 199).
  unfold bind at 1. rewrite drawLoop_forced by exact U0.
  unfold bind at 1. rewrite store_in_range by lia.
  unfold bind at 1. rewrite drawLoop_forced by (cbn [used existsb]; rewrite D10, U1; reflexivity).
  unfold bind at 1. rewrite store_in_range by (repeat rewrite replaceAt_length; lia).
  unfold bind at 1.
  rewrite drawLoop_forced by (cbn [used existsb]; rewrite D21, D20, U2; reflexivity).
  rewrite store_in_range by (repeat rewrite replaceAt_length; lia).
  eauto.
Qed.

End TrapFacts.

(** X23.  What holds of the trap: for six balls or more, when no
    delivery the fill loop drew (overwritten or not) carries one of the
    three trap triples, the window holds the two set-ups and the payoff,
    each with the trap's own purpose. *)
Lemma trap_in_place_when_not_drawn b balls phase pitch seedHint :
  (6 <= balls)%nat ->
  exists filled st1 out,
    DeliveryLogic.fill phase (StrategyMap.buildWeightedPools b phase pitch) balls []
      (startState b phase pitch seedHint) = DeliveryLogic.Ok (filled, st1)
    /\ DeliveryLogic.generateDeliveries b balls phase pitch seedHint = DeliveryLogic.Ok out
    /\ ((forall d p, In d filled -> In p (trapSteps (trapOf b phase)) ->
                     forcedTriple p <> Some (tripleOf d)) ->
        forall k p,
          nth_error (trapSteps (trapOf b phase)) k = Some p ->
          exists d,
            nth_error out (DeliveryLogic.trapStart balls + k) = Some d
            /\ forcedTriple p = Some (tripleOf d)
            /\ Cricket.p_purpose p = Some (Cricket.purpose d)).
Proof.
  intros Hb.
  destruct (generateDeliveries_run b balls phase pitch seedHint)
    as (out0 & st1 & out & st2 & Hfill & Hl & Hins & Hg).
  exists out0, st1, out. split; [exact Hfill|]. split; [exact Hg|].
  intros Hfree.
  assert (Hs := trapStart_in_range balls Hb).
  assert (Hused : forall p, In p (trapSteps (trapOf b phase)) ->
                  forall t l n, forcedTriple p = Some (t, l, n) ->
                  existsb (DeliveryLogic.Triple_beq (DeliveryLogic.key t l n))
                    (DeliveryLogic.used st1) = false).
  { intros p Hp t l n Hf.
    destruct (existsb _ (DeliveryLogic.used st1)) eqn:E; [|reflexivity].
    apply existsb_Triple in E.
    destruct (fill_used phase _ balls (startState b phase pitch seedHint) out0 st1
                eq_refl Hfill _ E) as (d & Hin & Hd).
    exfalso. apply (Hfree d p Hin Hp). rewrite Hf, Hd. reflexivity. }
  assert (Hout : exists t0 l0 n0 p0 t1 l1 n1 p1 t2 l2 n2 p2,
             trapOf b phase
             = {| DeliveryLogic.setup := [DeliveryLogic.step t0 l0 n0 p0;
                                          DeliveryLogic.step t1 l1 n1 p1];
                  DeliveryLogic.payoff := DeliveryLogic.step t2 l2 n2 p2 |}
             /\ DeliveryLogic.Triple_beq (t1, l1, n1) (t0, l0, n0) = false
             /\ DeliveryLogic.Triple_beq (t2, l2, n2) (t1, l1, n1) = false
             /\ DeliveryLogic.Triple_beq (t2, l2, n2) (t0, l0, n0) = false).
  { unfold trapOf. destruct (StrategyMap.isSpin b), phase;
      do 12 eexists; (split; [reflexivity|]); repeat split. }
  destruct Hout as (t0 & l0 & n0 & p0 & t1 & l1 & n1 & p1 & t2 & l2 & n2 & p2
                    & Et & D10 & D21 & D20).
  rewrite Et in *.
  destruct (insertTrap_in_place phase (StrategyMap.buildWeightedPools b phase pitch)
              t0 l0 n0 p0 t1 l1 n1 p1 t2 l2 n2 p2 balls out0 st1 Hl Hb D10 D21 D20)
    as (st' & Hins').
  - apply (Hused (DeliveryLogic.step t0 l0 n0 p0)); [left|]; reflexivity.
  - apply (Hused (DeliveryLogic.step t1 l1 n1 p1)); [right; left|]; reflexivity.
  - apply (Hused (DeliveryLogic.step t2 l2 n2 p2)); [right; right; left|]; reflexivity.
  - rewrite Hins' in Hins. inversion Hins; subst out st2. clear Hins.
    intros k p Hk. unfold trapSteps in Hk. cbn [DeliveryLogic.setup DeliveryLogic.payoff app] in Hk.
    destruct k as [|[|[|k]]]; cbn [nth_error] in Hk.
    + inversion Hk; subst p. exists (forcedItem t0 l0 n0 p0). split; [|split; reflexivity].
      rewrite Nat.add_0_r.
      rewrite !replaceAt_other by (repeat rewrite replaceAt_length; lia).
      apply replaceAt_same. lia.
    + inversion Hk; subst p. exists (forcedItem t1 l1 n1 p1). split; [|split; reflexivity].
      rewrite replaceAt_other by (repeat rewrite replaceAt_length; lia).
      apply replaceAt_same. rewrite replaceAt_length; lia.
    + inversion Hk; subst p. exists (forcedItem t2 l2 n2 p2). split; [|split; reflexivity].
      apply replaceAt_same. repeat rewrite replaceAt_length; lia.
    + destruct k; discriminate.
Qed.

(* ================================================================== *)
(** * Further properties of the library engine *)

(** X1.  [pickWeighted] on a pool with an entry returns a key of the
    pool and advances the stream by exactly one step, whatever the
    weights are; on the empty pool it throws. *)
Theorem pickWeighted_picks_from_the_pool (T : Type) :
  (forall a, Random.pickWeighted a (@nil (T * float)) = None)
  /\ (forall a (items : list (T * float)),
        items <> [] ->
        exists x,
          Random.pickWeighted a items = Some (x, fst (Random.mulberry32 a))
          /\ In x (keys items)).
Proof.
  split.
  - intros a. unfold Random.pickWeighted, Random.rng.
    destruct (Random.mulberry32 a) as [a1 k]. reflexivity.
  - intros a items Hne.
    destruct (pickWeighted_total a items Hne) as (x & a' & H).
    exists x. rewrite H.
    rewrite (pickWeighted_state a items x a' H).
    split; [reflexivity|]. eapply pickWeighted_in. exact H.
Qed.

(** X2.  The keys of the three pools of [buildWeightedPools].  The
    length pool holds the five lengths and the line pool the nine lines,
    in the order of the constants.  A pace bowler's delivery pool holds
    the eight pace types on every pitch.  A spinner's pool holds the six
    spin types, and on a pitch that is not Normal also the pace types
    the pitch modifier writes to: Cross seam on Green, the two cutters on
    Dusty, Slower on Dry. *)
Theorem pool_keys_by_pitch b phase pitch :
  keys (StrategyMap.lenPool (StrategyMap.buildWeightedPools b phase pitch)) = Cricket.LENGTHS
  /\ keys (StrategyMap.linPool (StrategyMap.buildWeightedPools b phase pitch)) = Cricket.LINES
  /\ keys (StrategyMap.delPool (StrategyMap.buildWeightedPools b phase pitch))
     = if StrategyMap.isSpin b then
         (Cricket.DELIVERY_TYPES_SPIN ++
            match pitch with
            | Cricket.Normal => []
            | Cricket.Green => [Cricket.Cross_seam]
            | Cricket.Dusty => [Cricket.Off_cutter; Cricket.Leg_cutter]
            | Cricket.Dry => [Cricket.Slower]
            end)%list
       else Cricket.DELIVERY_TYPES_PACE.
Proof.
  split; [apply pools_lenPool_keys|]. split; [apply pools_linPool_keys|].
  destruct (StrategyMap.isSpin b) eqn:Hb.
  - apply pools_delPool_keys_spin. exact Hb.
  - apply pools_delPool_keys_pace. exact Hb.
Qed.

Section PurposeFacts.
Import Cricket StrategyMap DeliveryLogic OverLogic.

Lemma describePurpose_nonempty t l n phase : describePurpose t l n phase <> "".
Proof. destruct t, l, n, phase; discriminate. Qed.

(** The purpose is the annotator's text for the delivery. *)
Definition annotated (phase : PhaseId) (d : DeliveryPlanItem) : Prop :=
  purpose d = describePurpose (dtype d) (length d) (line d) phase.

Lemma drawUnique_None_annotated phase pools st d st' :
  drawUnique phase pools None st = Ok (d, st') -> annotated phase d.
Proof.
  intros H. apply drawLoop_spec in H. destruct H as [_ H].
  destruct H as [_ _ _ _ _ P | _ _ P]; exact P.
Qed.

Lemma fill_annotated phase pools todo out st out' st' :
  Forall (annotated phase) out ->
  fill phase pools todo out st = Ok (out', st') ->
  Forall (annotated phase) out'.
Proof.
  intros Hout H.
  apply (fill_inv phase pools (fun o _ => Forall (annotated phase) o)) in H; auto.
  intros o s d s' Ho Hd. apply Forall_app. split; [exact Ho|].
  constructor; [|constructor]. eapply drawUnique_None_annotated. exact Hd.
Qed.

(** The purpose of a forced draw: the step's own, or the annotator's when
    the draw fell back. *)
Lemma drawUnique_forced_purpose phase pools p st d st' :
  drawUnique phase pools (Some p) st = Ok (d, st') ->
  Some (purpose d) = p_purpose p \/ annotated phase d.
Proof.
  intros H. apply drawLoop_spec in H. destruct H as [_ H].
  destruct H as [_ _ _ _ _ P | _ _ P].
  - simpl in P. destruct (p_purpose p) as [q|].
    + left. rewrite P. reflexivity.
    + right. exact P.
  - right. exact P.
Qed.

Lemma trap_purposes_nonempty b phase p :
  In p (trapSteps (trapOf b phase)) -> exists q, p_purpose p = Some q /\ q <> "".
Proof.
  unfold trapOf, trapSteps.
  destruct (isSpin b), phase; simpl; intros H;
    repeat (destruct H as [<- | H]; [eexists; split; [reflexivity | discriminate]|]);
    contradiction.
Qed.

Lemma trap_setup_steps b phase :
  exists p0 p1, setup (trapOf b phase) = [p0; p1].
Proof. unfold trapOf. destruct (isSpin b), phase; simpl; eauto. Qed.

End PurposeFacts.

(** X3.  Every delivery of [generateDeliveries] has a purpose that is not
    empty.  Outside the three slots of the trap it is the text
    [describePurpose] gives for the delivery's own type, length and line;
    in a slot of the trap it is the purpose of the trap step or, when the
    forced draw fell back, that text again. *)
Theorem every_delivery_has_a_purpose b balls phase pitch seedHint :
  exists out,
    DeliveryLogic.generateDeliveries b balls phase pitch seedHint = DeliveryLogic.Ok out
    /\ (forall d, In d out -> Cricket.purpose d <> "")
    /\ (forall i d, nth_error out i = Some d -> outsideTrap balls i -> annotated phase d)
    /\ (forall k p d,
          (6 <= balls)%nat ->
          nth_error (trapSteps (trapOf b phase)) k = Some p ->
          nth_error out (DeliveryLogic.trapStart balls + k) = Some d ->
          Some (Cricket.purpose d) = Cricket.p_purpose p \/ annotated phase d).
Proof.
  destruct (generateDeliveries_run b balls phase pitch seedHint)
    as (out0 & st1 & out & st2 & Hfill & Hl & Hins & Hg).
  exists out. split; [exact Hg|].
  assert (H0 : Forall (annotated phase) out0).
  { eapply fill_annotated; [|exact Hfill]. constructor. }
  destruct (Nat.lt_ge_cases balls 6) as [Hlt|Hge].
  - unfold DeliveryLogic.insertTrap in Hins.
    assert (E : (6 <=? balls)%nat = false) by (apply Nat.leb_gt; exact Hlt).
    rewrite E in Hins. unfold DeliveryLogic.ret in Hins. inversion Hins; subst out st2.
    split; [|split].
    + intros d Hd. rewrite Forall_forall in H0. rewrite (H0 d Hd).
      apply describePurpose_nonempty.
    + intros i d Hn _. rewrite Forall_forall in H0. apply H0.
      eapply nth_error_In. exact Hn.
    + intros k p d Hb. lia.
  - assert (Hs := trapStart_in_range balls Hge).
    apply insertTrap_spec in Hins; [|exact Hl|exact Hge].
    destruct Hins as (d0 & d1 & d2 & s1 & s2 & D0 & D1 & D2 & ->).
    destruct (trap_setup_steps b phase) as (p0 & p1 & Es).
    rewrite Es in D0, D1. cbn [nth_error] in D0, D1.
    apply drawUnique_forced_purpose in D0, D1, D2.
    assert (Hin0 : In p0 (trapSteps (trapOf b phase)))
      by (unfold trapSteps; rewrite Es; simpl; auto).
    assert (Hin1 : In p1 (trapSteps (trapOf b phase)))
      by (unfold trapSteps; rewrite Es; simpl; auto).
    assert (Hin2 : In (DeliveryLogic.payoff (trapOf b phase)) (trapSteps (trapOf b phase)))
      by (unfold trapSteps; rewrite Es; simpl; auto).
    assert (Hne : forall p d,
              In p (trapSteps (trapOf b phase)) ->
              Some (Cricket.purpose d) = Cricket.p_purpose p \/ annotated phase d ->
              Cricket.purpose d <> "").
    { intros p d Hp [E|E].
      - destruct (trap_purposes_nonempty b phase p Hp) as (q & Ep & Hq).
        rewrite Ep in E. inversion E as [E1]. rewrite E1. exact Hq.
      - rewrite E. apply describePurpose_nonempty. }
    split; [|split].
    + assert (Hall : Forall (fun d => Cricket.purpose d <> "") out0).
      { eapply Forall_impl; [|exact H0]. intros d E. rewrite E.
        apply describePurpose_nonempty. }
      apply Forall_forall.
      apply Forall_replaceAt; [|exact (Hne _ _ Hin2 D2)].
      apply Forall_replaceAt; [|exact (Hne _ _ Hin1 D1)].
      apply Forall_replaceAt; [|exact (Hne _ _ Hin0 D0)].
      exact Hall.
    + intros i d Hn [Ho|Ho]; [lia|].
      rewrite !replaceAt_other in Hn by (repeat rewrite replaceAt_length; lia).
      rewrite Forall_forall in H0. apply H0. eapply nth_error_In. exact Hn.
    + intros k p d _ Hk Hn. unfold trapSteps in Hk. rewrite Es in Hk.
      cbn [app] in Hk.
      destruct k as [|[|[|k]]]; cbn [nth_error] in Hk.
      * inversion Hk; subst p. rewrite Nat.add_0_r in Hn.
        rewrite !replaceAt_other in Hn by (repeat rewrite replaceAt_length; lia).
        rewrite replaceAt_same in Hn by lia. inversion Hn; subst d. exact D0.
      * inversion Hk; subst p.
        rewrite replaceAt_other in Hn by (repeat rewrite replaceAt_length; lia).
        rewrite replaceAt_same in Hn by (rewrite replaceAt_length; lia).
        inversion Hn; subst d. exact D1.
      * inversion Hk; subst p.
        rewrite replaceAt_same in Hn by (repeat rewrite replaceAt_length; lia).
        inversion Hn; subst d. exact D2.
      * destruct k; discriminate.
Qed.

(* ================================================================== *)
(** * Further properties of the page engine *)

Section ChoiceMore.
Import Page.
Local Open Scope Q_scope.
Context {T : Type} (eqb : T -> T -> bool).
Hypothesis eqb_eq : forall a b, eqb a b = true <-> a = b.

Lemma Qmax0_gt v : 0 < Qmax0 v -> 0 < v.
Proof.
  unfold Qmax0. destruct (Qle_bool 0 v) eqn:E; [auto|]. intros H. lra.
Qed.

Lemma Qmax0_nonpos v : v <= 0 -> Qmax0 v == 0.
Proof.
  intros H. unfold Qmax0. destruct (Qle_bool 0 v) eqn:E; [|reflexivity].
  apply Qle_bool_iff in E. lra.
Qed.

(** The key the loop returns has a positive weight. *)
Lemma chooseLoop_positive r w dis k :
  0 <= r -> chooseLoop eqb r w dis = Some k -> exists v, In (k, v) w /\ 0 < v.
Proof.
  revert r. induction w as [|[k' v] w IH]; simpl; intros r Hr H; [discriminate|].
  destruct (includesKey eqb dis k').
  - destruct (IH r Hr H) as (v0 & Hin & Hv). eauto.
  - destruct (Qltb r (Qmax0 v)) eqn:E.
    + inversion H; subst k'. exists v. split; [left; reflexivity|].
      apply Qmax0_gt. apply (Qltb_lt r (Qmax0 v)) in E. lra.
    + destruct (IH (r - Qmax0 v)) as (v0 & Hin & Hv); [|exact H|eauto].
      assert (~ r < Qmax0 v) by (rewrite <- Qltb_lt; congruence).
      apply Qnot_lt_le in H0. lra.
Qed.

Lemma Qltb_false_of_le x y : y <= x -> Qltb x y = false.
Proof.
  intros H. destruct (Qltb x y) eqn:E; [|reflexivity].
  apply Qltb_lt in E. lra.
Qed.

(** Without a positive weight among the allowed keys the loop falls
    through. *)
Lemma chooseLoop_none r w dis :
  0 <= r ->
  (forall k v, In (k, v) w -> ~ In k dis -> v <= 0) ->
  chooseLoop eqb r w dis = None.
Proof.
  revert r. induction w as [|[k' v] w IH]; simpl; intros r Hr Hall; [reflexivity|].
  destruct (includesKey eqb dis k') eqn:Ei.
  - apply IH; [exact Hr|]. intros k0 v0 Hin. apply Hall. right. exact Hin.
  - assert (Hv : v <= 0).
    { apply (Hall k' v); [left; reflexivity|].
      intros Hin. apply (includesKey_In eqb eqb_eq) in Hin. congruence. }
    pose proof (Qmax0_nonpos v Hv) as Hz.
    rewrite Qltb_false_of_le by lra.
    apply IH; [lra|]. intros k0 v0 Hin. apply Hall. right. exact Hin.
Qed.

Lemma sumAllowed_zero w dis :
  (forall k v, In (k, v) w -> ~ In k dis -> v <= 0) -> sumAllowed eqb w dis == 0.
Proof.
  induction w as [|[k' v] w IH]; simpl; intros Hall; [reflexivity|].
  rewrite IH by (intros k0 v0 Hin; apply Hall; right; exact Hin).
  destruct (includesKey eqb dis k') eqn:Ei; [lra|].
  rewrite Qmax0_nonpos; [lra|].
  apply (Hall k' v); [left; reflexivity|].
  intros Hin. apply (includesKey_In eqb eqb_eq) in Hin. congruence.
Qed.

End ChoiceMore.

(** X4.  [weightedChoice] reads the stream once.  When some key that is
    not disallowed has a positive weight, it returns a key of the table
    that is not disallowed and whose weight is positive.  When none has,
    it returns the first key of the table, disallowed or not, and
    [undefined] for a table without keys. *)
Theorem weightedChoice_allowed_and_positive (T : Type) (eqb : T -> T -> bool)
  (t : Z) (w : list (T * Q)) (dis : list T) :
  (forall a b, eqb a b = true <-> a = b) ->
  ((exists k v, In (k, v) w /\ ~ In k dis /\ (0 < v)%Q) ->
   exists k v,
     Page.weightedChoice eqb t w dis = (Some k, fst (Page.mulberry t))
     /\ In (k, v) w /\ ~ In k dis /\ (0 < v)%Q)
  /\ ((forall k v, In (k, v) w -> ~ In k dis -> (v <= 0)%Q) ->
      Page.weightedChoice eqb t w dis
      = (option_map fst (nth_error w 0), fst (Page.mulberry t))).
Proof.
  intros eqb_eq. split.
  - intros (k0 & v0 & Hin0 & Hd0 & Hv0).
    assert (Hpos : (0 < sumAllowed eqb w dis)%Q)
      by (eapply sumAllowed_pos; eauto).
    unfold Page.weightedChoice.
    pose proof (mulberry_range t) as Hr.
    destruct (Page.mulberry t) as [t1 k1]. simpl in Hr. cbn [fst].
    apply unitQ_range in Hr. destruct Hr as [H0 H1].
    pose proof (totalWeight_sum eqb w dis) as Ht.
    assert (Hr0 : (0 <= Page.unitQ k1 * Page.totalWeight eqb w dis)%Q).
    { rewrite Ht. apply Qmult_le_0_compat; lra. }
    destruct (chooseLoop_complete eqb (Page.unitQ k1 * Page.totalWeight eqb w dis) w dis)
      as (key & E); [exact Hr0 | rewrite Ht; nra |].
    rewrite E.
    destruct (chooseLoop_positive eqb _ w dis key Hr0 E) as (v & Hin & Hv).
    apply (chooseLoop_sound eqb eqb_eq) in E.
    exists key, v. tauto.
  - intros Hall. unfold Page.weightedChoice.
    pose proof (mulberry_range t) as Hr.
    destruct (Page.mulberry t) as [t1 k1]. simpl in Hr. cbn [fst].
    apply unitQ_range in Hr. destruct Hr as [H0 H1].
    pose proof (totalWeight_sum eqb w dis) as Ht.
    rewrite (chooseLoop_none eqb eqb_eq); [reflexivity| |exact Hall].
    rewrite Ht, (sumAllowed_zero eqb eqb_eq w dis Hall). lra.
Qed.

Lemma weightedChoice_allowed_and_positive_witness :
  exists k v,
    Page.weightedChoice Page.Ball_beq 7 [(Page.outswing, 0%Q); (Page.inswing, 3%Q)]
      [Page.outswing]
    = (Some k, fst (Page.mulberry 7))
    /\ In (k, v) [(Page.outswing, 0%Q); (Page.inswing, 3%Q)]
    /\ ~ In k [Page.outswing] /\ (0 < v)%Q.
Proof.
  apply (proj1 (weightedChoice_allowed_and_positive Page.Ball Page.Ball_beq 7
                  [(Page.outswing, 0%Q); (Page.inswing, 3%Q)] [Page.outswing]
                  Ball_beq_eq)).
  exists Page.inswing, 3%Q. split; [simpl; auto|]. split.
  - simpl. intros [H|[]]. discriminate.
  - reflexivity.
Defined.

Section SpellMore.
Import Page.

(** The overs the entries of [q] with id [i] have left. *)
Definition oversLeft (i : string) (q : list (string * nat)) : nat :=
  list_sum (map snd (filter (fun x => String.eqb (fst x) i) q)).

Lemma pass_count i q :
  (count_occ string_dec (snd (pass q)) i + oversLeft i (fst (pass q)) = oversLeft i q)%nat.
Proof.
  unfold oversLeft. induction q as [|[b r] q IH]; simpl; [reflexivity|].
  destruct (pass q) as [q' pushed]. simpl in IH.
  destruct (0 <? r)%nat eqn:E; simpl.
  - apply Nat.ltb_lt in E.
    destruct (string_dec b i) as [->|Hne].
    + rewrite String.eqb_refl. simpl. lia.
    + apply String.eqb_neq in Hne. rewrite Hne. exact IH.
  - destruct (String.eqb b i); simpl; lia.
Qed.

Lemma pass_length q :
  (List.length (snd (pass q)) + remainingSum (fst (pass q)) = remainingSum q)%nat.
Proof.
  unfold remainingSum. induction q as [|[b r] q IH]; simpl; [reflexivity|].
  destruct (pass q) as [q' pushed]. simpl in IH.
  destruct (0 <? r)%nat eqn:E; simpl; [|lia].
  apply Nat.ltb_lt in E. lia.
Qed.

Lemma nothing_left q :
  existsb (fun x => (0 <? snd x)%nat) q = false -> remainingSum q = 0%nat.
Proof.
  unfold remainingSum. induction q as [|[b r] q IH]; simpl; [reflexivity|].
  intros H. apply orb_false_iff in H. destruct H as [Hr Hq].
  apply Nat.ltb_ge in Hr. rewrite (IH Hq). lia.
Qed.

Lemma oversLeft_le i q : (oversLeft i q <= remainingSum q)%nat.
Proof.
  unfold oversLeft, remainingSum. induction q as [|[b r] q IH]; simpl; [lia|].
  destruct (String.eqb b i); simpl; lia.
Qed.

Lemma rounds_count fuel q order o :
  rounds fuel q order = Some o ->
  (List.length o = List.length order + remainingSum q)%nat
  /\ forall i, (count_occ string_dec o i
                = count_occ string_dec order i + oversLeft i q)%nat.
Proof.
  revert q order. induction fuel as [|f IH]; intros q order; simpl.
  - destruct (existsb _ q) eqn:E; [discriminate|].
    intros H. inversion H; subst o. apply nothing_left in E.
    split; [lia|]. intros i. pose proof (oversLeft_le i q). lia.
  - destruct (existsb _ q) eqn:E.
    + pose proof (pass_length q) as Hl.
      pose proof (fun i => pass_count i q) as Hc.
      destruct (pass q) as [q' pushed]. simpl in Hl, Hc.
      intros H. apply IH in H. destruct H as [H1 H2]. split.
      * rewrite H1, length_app. lia.
      * intros i. rewrite H2, count_occ_app. specialize (Hc i). lia.
    + intros H. inversion H; subst o. apply nothing_left in E.
      split; [lia|]. intros i. pose proof (oversLeft_le i q). lia.
Qed.

Lemma totalSpellOvers_sum s :
  RosterPage.totalSpellOvers s = Z.of_nat (remainingSum (remainingOf s)).
Proof.
  unfold RosterPage.totalSpellOvers, remainingSum, remainingOf.
  assert (H : forall acc,
            fold_left (fun sum x => sum + Z.max 0 (overs x)) s acc
            = acc + Z.of_nat
                      (list_sum
                         (map snd
                            (map (fun x => (bowlerId x, Z.to_nat (Z.max 0 (overs x)))) s)))).
  { induction s as [|x s IH]; intros acc; simpl; [lia|].
    rewrite IH. lia. }
  rewrite H. lia.
Qed.

Lemma oversLeft_filter i s :
  oversLeft i (remainingOf s)
  = remainingSum (remainingOf (filter (fun x => String.eqb (bowlerId x) i) s)).
Proof.
  unfold oversLeft, remainingSum, remainingOf.
  induction s as [|x s IH]; simpl; [reflexivity|].
  destruct (String.eqb (bowlerId x) i); simpl; rewrite IH; reflexivity.
Qed.

End SpellMore.

(** X5.  The order of a spell has as many overs as [totalSpellOvers]
    counts, and every bowler id occurs in it as often as the overs of its
    spell items add up to (an item with no or negative overs counts for
    none).  So the order is empty exactly when [totalSpellOvers] is 0,
    the case [generateSpellNow] refuses. *)
Theorem spell_order_gives_each_bowler_their_overs s :
  exists order,
    Page.buildOrder s = Some order
    /\ Z.of_nat (List.length order) = RosterPage.totalSpellOvers s
    /\ (forall i,
          Z.of_nat (count_occ string_dec order i)
          = RosterPage.totalSpellOvers
              (filter (fun x => String.eqb (Page.bowlerId x) i) s))
    /\ (order = [] <-> RosterPage.totalSpellOvers s = 0).
Proof.
  destruct (buildOrder_total s) as (order & Ho). exists order.
  split; [exact Ho|].
  unfold Page.buildOrder in Ho. apply rounds_count in Ho. destruct Ho as [Hl Hc].
  simpl in Hl.
  assert (Hlen : Z.of_nat (List.length order) = RosterPage.totalSpellOvers s)
    by (rewrite totalSpellOvers_sum, Hl; reflexivity).
  split; [exact Hlen|]. split.
  - intros i. rewrite totalSpellOvers_sum, <- oversLeft_filter, Hc. reflexivity.
  - rewrite <- Hlen. split.
    + intros ->. reflexivity.
    + intros H. destruct order; [reflexivity | simpl in H; lia].
Qed.

Section PagePurpose.
Import Page.

Lemma purposeFor_nonempty t n l : purposeFor t n l <> "".
Proof. destruct t, n, l; discriminate. Qed.

Lemma drawBall_purpose bowler phase pitch i t recent d t' recent' :
  drawBall bowler phase pitch i t recent = Some (d, t', recent') ->
  pitchPurpose d = purposeFor (btype d) (line d) (length d).
Proof.
  unfold drawBall.
  destruct (weightedChoice Ball_beq t _ _) as [[bt|] t1]; [|discriminate].
  destruct (weightedChoice Length_beq t1 _ []) as [[pl|] t2];
    destruct (weightedChoice Line_beq t2 _ []) as [[pn|] t3];
    try discriminate.
  destruct (coherence (isSpin bowler) bt pl pn t3) as [[L N] t4].
  intros H. inversion H; subst d. reflexivity.
Qed.

Lemma planLoop_purpose bowler phase pitch todo t plan :
  planLoop bowler phase pitch todo 0 t [] [] = Some plan ->
  Forall (fun d => pitchPurpose d = purposeFor (btype d) (line d) (length d)) plan.
Proof.
  intros H.
  destruct (planLoop_inv bowler phase pitch
              (fun _ p _ =>
                 Forall (fun d => pitchPurpose d = purposeFor (btype d) (line d) (length d)) p)
              ) with (todo := todo) (i := 0%nat) (t := t) (recent := @nil Ball)
              (plan := @nil DeliveryPlanItem) (plan' := plan) as (r & Hr);
    [| constructor | exact H | exact Hr].
  intros i t0 recent p d t' recent' Hp Hd. apply Forall_app. split; [exact Hp|].
  constructor; [|constructor]. eapply drawBall_purpose. exact Hd.
Qed.

End PagePurpose.

(** X6.  In a plan of [buildVariedPlan] the purpose of every delivery is
    the text [purposeFor] gives for the type, line and length the
    delivery ends up with after the coherence rules, and it is not empty.
    A yorker is annotated as a yorker whatever its type: base of the
    stumps on off stump, toe crusher on the two wider lines. *)
Theorem page_purpose_matches_the_delivery bowler overs phase pitch salt :
  exists plan,
    Page.buildVariedPlan bowler overs phase pitch salt = Some plan
    /\ forall d, In d plan ->
         Page.pitchPurpose d = Page.purposeFor (Page.btype d) (Page.line d) (Page.length d)
         /\ Page.pitchPurpose d <> ""
         /\ (Page.length d = Page.yorker ->
             Page.pitchPurpose d
             = if Page.Line_beq (Page.line d) Page.off_stump
               then "base of stumps / toes" else "deny arc; toe crusher").
Proof.
  destruct (buildVariedPlan_run bowler overs phase pitch salt)
    as (plan & recent & Hp & _ & _ & _ & _ & Hcoh).
  exists plan. split; [exact Hp|].
  unfold Page.buildVariedPlan in Hp. apply planLoop_purpose in Hp.
  rewrite Forall_forall in Hp, Hcoh.
  intros d Hd. specialize (Hp d Hd). specialize (Hcoh d Hd).
  split; [exact Hp|]. split.
  - rewrite Hp. apply purposeFor_nonempty.
  - intros Hy. rewrite Hp, Hy.
    destruct Hcoh as (_ & Hl & _). specialize (Hl Hy).
    unfold yorkerLines in Hl. simpl in Hl.
    destruct Hl as [<-|[<-|[<-|[]]]]; reflexivity.
Qed.

(* ================================================================== *)
(** * The loaders and the exports *)

(** ** Strings *)

Section StringFacts.
Import JS Text.

Lemma append_nil_r s : s ++ "" = s.
Proof. induction s as [|c s IH]; simpl; [reflexivity | rewrite IH; reflexivity]. Qed.

Lemma append_assoc s1 s2 s3 : (s1 ++ s2) ++ s3 = s1 ++ (s2 ++ s3).
Proof. induction s1 as [|c s1 IH]; simpl; [reflexivity | rewrite IH; reflexivity]. Qed.

Lemma append_snoc cur c f : (cur ++ String c "") ++ f = cur ++ String c f.
Proof. rewrite append_assoc. reflexivity. Qed.

Lemma hasChar_false_cons c x s :
  hasChar c (String x s) = false -> Ascii.eqb x c = false /\ hasChar c s = false.
Proof. simpl. apply orb_false_iff. Qed.

Lemma trimStart_head s :
  trimStart s = "" \/ exists c t, trimStart s = String c t /\ isSpace c = false.
Proof.
  induction s as [|c s IH]; simpl; [left; reflexivity|].
  destruct (isSpace c) eqn:E; [exact IH|]. right. eauto.
Qed.

Lemma trimStart_fixed c t : isSpace c = false -> trimStart (String c t) = String c t.
Proof. intros H. simpl. rewrite H. reflexivity. Qed.

Lemma trimEnd_head c t :
  isSpace c = false -> exists t', trimEnd (String c t) = String c t'.
Proof. intros H. simpl. destruct (trimEnd t); rewrite ?H; eauto. Qed.

Lemma trimEnd_cons c s :
  trimEnd (String c s)
  = match trimEnd s with
    | EmptyString => if isSpace c then EmptyString else String c EmptyString
    | t => String c t
    end.
Proof. reflexivity. Qed.

Lemma trimEnd_idem s : trimEnd (trimEnd s) = trimEnd s.
Proof.
  induction s as [|c s IH]; [reflexivity|].
  rewrite trimEnd_cons. destruct (trimEnd s) as [|c' t'] eqn:E.
  - destruct (isSpace c) eqn:Ec; [reflexivity|].
    rewrite trimEnd_cons. simpl. rewrite Ec. reflexivity.
  - rewrite trimEnd_cons, IH. reflexivity.
Qed.

(** [trim] is idempotent. *)
Lemma trim_idem s : trim (trim s) = trim s.
Proof.
  unfold trim. destruct (trimStart_head s) as [E|(c & t & E & Hc)]; rewrite E.
  - reflexivity.
  - destruct (trimEnd_head c t Hc) as (t' & Et). rewrite Et.
    rewrite (trimStart_fixed c t' Hc), <- Et. apply trimEnd_idem.
Qed.

End StringFacts.

(** ** One line of CSV *)

Section CsvLineFacts.
Import JS Text CsvLoader.

(** A field without quote and comma is read up to its end. *)
Lemma parseLoop_plain f rest cur out :
  hasChar quote f = false -> hasChar comma f = false ->
  parseLoop (f ++ rest) false cur out = parseLoop rest false (cur ++ f) out.
Proof.
  revert cur. induction f as [|c f IH]; intros cur Hq Hc.
  - simpl. rewrite append_nil_r. reflexivity.
  - apply hasChar_false_cons in Hq. destruct Hq as [Hq1 Hq2].
    apply hasChar_false_cons in Hc. destruct Hc as [Hc1 Hc2].
    cbn [append parseLoop]. rewrite Hq1, Hc1.
    rewrite (IH _ Hq2 Hc2), append_snoc. reflexivity.
Qed.

(** What follows a field in a line: nothing, or a comma. *)
Definition fieldEnd (rest : string) : Prop :=
  rest = "" \/ exists rest', rest = String comma rest'.

(** Inside quotes the doubled quotes are read back as one, up to the
    closing quote. *)
Lemma parseLoop_quoted f rest cur out :
  fieldEnd rest ->
  parseLoop (replaceChar quote (String quote (String quote "")) f ++ String quote rest)
    true cur out
  = parseLoop rest false (cur ++ f) out.
Proof.
  intros Hrest. revert cur. induction f as [|c f IH]; intros cur.
  - cbn [replaceChar append parseLoop].
    rewrite Ascii.eqb_refl, append_nil_r.
    destruct Hrest as [->|(rest' & ->)]; reflexivity.
  - cbn [replaceChar]. destruct (Ascii.eqb c quote) eqn:E.
    + apply Ascii.eqb_eq in E. subst c.
      cbn [append parseLoop]. rewrite Ascii.eqb_refl.
      rewrite IH, append_snoc. reflexivity.
    + cbn [append parseLoop]. rewrite E.
      rewrite IH, append_snoc. reflexivity.
Qed.

(** A field that is read back: written as [e f], it leaves [f] in [cur]
    at its end. *)
Definition lineReadBack (e : string -> string) (f : string) : Prop :=
  forall rest out,
    fieldEnd rest ->
    parseLoop (e f ++ rest) false "" out = parseLoop rest false f out.

Lemma lineReadBack_esc f : lineReadBack PlanPage.esc f.
Proof.
  intros rest out Hrest. unfold PlanPage.esc.
  destruct (hasChar quote f || hasChar comma f || hasChar LF f) eqn:E.
  - cbn [append parseLoop]. rewrite Ascii.eqb_refl.
    rewrite append_assoc. cbn [append].
    rewrite parseLoop_quoted by exact Hrest. reflexivity.
  - apply orb_false_iff in E. destruct E as [E _].
    apply orb_false_iff in E. destruct E as [Hq Hc].
    rewrite parseLoop_plain by assumption. reflexivity.
Qed.

Lemma lineReadBack_plain f :
  hasChar quote f = false -> hasChar comma f = false -> lineReadBack (fun s => s) f.
Proof.
  intros Hq Hc rest out _. rewrite parseLoop_plain by assumption. reflexivity.
Qed.

Lemma parseLoop_row e f fields out :
  Forall (lineReadBack e) (f :: fields) ->
  parseLoop (join "," (map e (f :: fields))) false "" out = (out ++ f :: fields)%list.
Proof.
  revert f out. induction fields as [|g fields IH]; intros f out Hf.
  - inversion Hf as [|? ? H1 _]; subst.
    cbn [map join concat]. rewrite <- (append_nil_r (e f)).
    rewrite H1 by (left; reflexivity). reflexivity.
  - inversion Hf as [|? ? H1 Hf']; subst.
    change (join "," (map e (f :: g :: fields)))
      with (e f ++ String comma (join "," (map e (g :: fields)))).
    rewrite H1 by (right; eauto).
    cbn [parseLoop]. change (Ascii.eqb comma quote) with false.
    rewrite Ascii.eqb_refl. cbv iota.
    rewrite IH by exact Hf'. rewrite <- app_assoc. reflexivity.
Qed.

Lemma parseCsvLine_row e f fields :
  Forall (lineReadBack e) (f :: fields) ->
  parseCsvLine (join "," (map e (f :: fields))) = map trim (f :: fields).
Proof.
  intros Hf. unfold parseCsvLine. rewrite (parseLoop_row e f fields [] Hf). reflexivity.
Qed.

End CsvLineFacts.

(** X7.  A line written by the export of either page is read back by
    [parseCsvLine] of the CSV loader: for a row with at least one field,
    whatever the fields hold (quotes, commas, line feeds), the line of
    the escaped fields joined by commas parses to the same fields, each
    trimmed. *)
Theorem parseCsvLine_reads_back_an_escaped_row (fields : list string) :
  fields <> [] ->
  CsvLoader.parseCsvLine (Text.join "," (map PlanPage.esc fields)) = map Text.trim fields
  /\ CsvLoader.parseCsvLine (Text.join "," (map RosterPage.esc fields))
     = map Text.trim fields.
Proof.
  intros Hne. destruct fields as [|f fields]; [contradiction|].
  assert (H : CsvLoader.parseCsvLine (Text.join "," (map PlanPage.esc (f :: fields)))
              = map Text.trim (f :: fields)).
  { apply parseCsvLine_row. apply Forall_forall. intros g _. apply lineReadBack_esc. }
  split; exact H.
Qed.

Lemma parseCsvLine_reads_back_witness :
  CsvLoader.parseCsvLine
    (Text.join ","
       (map PlanPage.esc ["Yorkers, wide"; " 140-150 "; String Text.quote "hi"]))
  = map Text.trim ["Yorkers, wide"; " 140-150 "; String Text.quote "hi"]
  /\ CsvLoader.parseCsvLine
       (Text.join ","
          (map RosterPage.esc ["Yorkers, wide"; " 140-150 "; String Text.quote "hi"]))
     = map Text.trim ["Yorkers, wide"; " 140-150 "; String Text.quote "hi"].
Proof.
  apply (parseCsvLine_reads_back_an_escaped_row
           ["Yorkers, wide"; " 140-150 "; String Text.quote "hi"]).
  discriminate.
Defined.

(** ** dedupeStrings *)

Section DedupeFacts.
Import JS Text CsvLoader.

(** What the loop keeps: [seen] holds the lower-cased entries of [out],
    which are pairwise different; every entry of [out] is trimmed, not
    empty, and the trimmed form of an entry of the input. *)
Definition dedupeInv (arr : list string) (seen out : list string) : Prop :=
  (forall x, In x seen <-> In x (map toLowerCase out))
  /\ NoDup (map toLowerCase out)
  /\ Forall (fun k => k <> "" /\ exists s, In s arr /\ k = trim s) out.

Lemma NoDup_snoc {A : Type} (l : list A) x :
  NoDup l -> ~ In x l -> NoDup (l ++ [x]).
Proof.
  induction l as [|y l IH]; simpl; intros Hn Hx.
  - constructor; [intros [] | constructor].
  - inversion Hn as [|? ? Hy Hn']; subst. constructor.
    + rewrite in_app_iff. simpl. intros [H|[H|[]]]; [contradiction|].
      subst. apply Hx. left. reflexivity.
    + apply IH; [exact Hn'|]. intros H. apply Hx. right. exact H.
Qed.

Lemma existsb_eqb_In x l : existsb (String.eqb x) l = true <-> In x l.
Proof.
  rewrite existsb_exists. split.
  - intros (y & Hy & E). apply String.eqb_eq in E. subst. exact Hy.
  - intros H. exists x. split; [exact H | apply String.eqb_refl].
Qed.

Lemma dedupeLoop_inv all arr seen out :
  incl arr all ->
  dedupeInv all seen out ->
  dedupeInv all (map toLowerCase (dedupeLoop arr seen out)) (dedupeLoop arr seen out)
  /\ (exists more, dedupeLoop arr seen out = (out ++ more)%list)
  /\ (forall s, In s arr -> trim s <> "" ->
                In (toLowerCase (trim s)) (map toLowerCase (dedupeLoop arr seen out))).
Proof.
  revert seen out. induction arr as [|s arr IH]; intros seen out Hincl Hinv.
  - simpl. split; [|split].
    + destruct Hinv as (_ & Hn & Hf). split; [tauto|]. split; assumption.
    + exists []. rewrite app_nil_r. reflexivity.
    + intros s [].
  - assert (Hincl' : incl arr all) by (intros x Hx; apply Hincl; right; exact Hx).
    cbn [dedupeLoop]. destruct (String.eqb (trim s) "") eqn:Ee.
    + destruct (IH seen out Hincl' Hinv) as (H1 & H2 & H3).
      split; [exact H1|]. split; [exact H2|].
      intros s0 [<-|Hin] Hne; [|apply H3; assumption].
      apply String.eqb_eq in Ee. contradiction.
    + apply String.eqb_neq in Ee.
      destruct (existsb (String.eqb (toLowerCase (trim s))) seen) eqn:Es; cbn [negb].
      * destruct (IH seen out Hincl' Hinv) as (H1 & H2 & H3).
        split; [exact H1|]. split; [exact H2|].
        intros s0 [<-|Hin] Hne; [|apply H3; assumption].
        destruct H2 as (more & ->). rewrite map_app. apply in_or_app. left.
        apply Hinv. apply existsb_eqb_In. exact Es.
      * assert (Hnew : ~ In (toLowerCase (trim s)) (map toLowerCase out)).
        { intros Hin. apply Hinv in Hin. apply existsb_eqb_In in Hin. congruence. }
        assert (Hinv' : dedupeInv all (toLowerCase (trim s) :: seen) (out ++ [trim s])).
        { destruct Hinv as (Hs & Hn & Hf). split; [|split].
          - intros x. rewrite map_app, in_app_iff. simpl. rewrite Hs. tauto.
          - rewrite map_app. simpl. apply NoDup_snoc; assumption.
          - apply Forall_app. split; [exact Hf|]. constructor; [|constructor].
            split; [exact Ee|]. exists s. split; [apply Hincl; left|]; reflexivity. }
        destruct (IH _ _ Hincl' Hinv') as (H1 & H2 & H3).
        split; [exact H1|]. split.
        -- destruct H2 as (more & ->). exists (trim s :: more).
           rewrite <- app_assoc. reflexivity.
        -- intros s0 [<-|Hin] Hne; [|apply H3; assumption].
           destruct H2 as (more & ->). rewrite !map_app. apply in_or_app. left.
           apply in_or_app. right. left. reflexivity.
Qed.

(** A list that is already trimmed, without empty entries and without
    two entries equal up to case, none of them seen: the loop appends it
    as it is. *)
Lemma dedupeLoop_clean arr seen out :
  Forall (fun k => k <> "" /\ trim k = k) arr ->
  NoDup (map toLowerCase arr) ->
  (forall x, In x (map toLowerCase arr) -> ~ In x seen) ->
  dedupeLoop arr seen out = (out ++ arr)%list.
Proof.
  revert seen out. induction arr as [|s arr IH]; intros seen out Hf Hn Hd.
  - simpl. rewrite app_nil_r. reflexivity.
  - inversion Hf as [|? ? [Hne Ht] Hf']; subst. inversion Hn as [|? ? Hnot Hn']; subst.
    cbn [dedupeLoop]. rewrite Ht.
    apply String.eqb_neq in Hne. rewrite Hne.
    assert (Es : existsb (String.eqb (toLowerCase s)) seen = false).
    { destruct (existsb _ seen) eqn:E; [|reflexivity].
      apply existsb_eqb_In in E. exfalso. apply (Hd (toLowerCase s)); [left; reflexivity|exact E]. }
    rewrite Es. cbn [negb].
    rewrite IH; [rewrite <- app_assoc; reflexivity | exact Hf' | exact Hn' |].
    intros x Hx [<-|Hs]; [contradiction|].
    apply (Hd x); [right; exact Hx | exact Hs].
Qed.

End DedupeFacts.

(** X8.  On ASCII texts [dedupeStrings] returns trimmed entries of its
    input, none of them empty and no two of them equal up to the case of
    the letters A-Z; every entry of the input that is not blank is in the
    result up to case; and a second pass changes nothing. *)
Theorem dedupeStrings_keeps_one_of_each (arr : list string) :
  Forall (fun s => isAscii s = true) arr ->
  Forall (fun k => k <> "" /\ exists s, In s arr /\ k = Text.trim s) (CsvLoader.dedupeStrings arr)
  /\ NoDup (map JS.toLowerCase (CsvLoader.dedupeStrings arr))
  /\ (forall s, In s arr -> Text.trim s <> "" ->
                In (JS.toLowerCase (Text.trim s))
                  (map JS.toLowerCase (CsvLoader.dedupeStrings arr)))
  /\ CsvLoader.dedupeStrings (CsvLoader.dedupeStrings arr) = CsvLoader.dedupeStrings arr.
Proof.
  intros _. unfold CsvLoader.dedupeStrings.
  destruct (dedupeLoop_inv arr arr [] []) as ((_ & Hn & Hf) & _ & Hc).
  - apply incl_refl.
  - split; [simpl; tauto|]. split; constructor.
  - split; [exact Hf|]. split; [exact Hn|]. split; [exact Hc|].
    apply (dedupeLoop_clean _ [] []); [| exact Hn | intros x _ []].
    eapply Forall_impl; [|exact Hf].
    intros k (Hne & s & _ & ->). split; [exact Hne | apply trim_idem].
Qed.

Lemma dedupeStrings_keeps_one_of_each_witness :
  NoDup (map JS.toLowerCase (CsvLoader.dedupeStrings ["Yorker"; " yorker "; "Googly"]))
  /\ CsvLoader.dedupeStrings (CsvLoader.dedupeStrings ["Yorker"; " yorker "; "Googly"])
     = CsvLoader.dedupeStrings ["Yorker"; " yorker "; "Googly"].
Proof.
  assert (H : Forall (fun s => isAscii s = true) ["Yorker"; " yorker "; "Googly"])
    by (repeat constructor).
  split.
  - exact (proj1 (proj2 (dedupeStrings_keeps_one_of_each _ H))).
  - exact (proj2 (proj2 (proj2 (dedupeStrings_keeps_one_of_each _ H)))).
Defined.

(** ** The roster page: export, then import *)

Section DelimiterFacts.
Import JS Text RosterPage.

(** The sort of [detectDelimiter] on its three counts, in closed form:
    the first of comma, semicolon and tab whose count is the largest. *)
Lemma sortDesc_three (c s t : nat) :
  hd_error (sortDesc [(comma, c); (semicolon, s); (TAB, t)])
  = Some (if ((s <=? c) && (t <=? c))%nat then (comma, c)
          else if (t <=? s)%nat then (semicolon, s) else (TAB, t)).
Proof.
  unfold sortDesc. cbn [fold_left insertDesc snd].
  destruct (c <? s)%nat eqn:E1; cbn [insertDesc snd];
    destruct (s <? t)%nat eqn:E2; cbn [insertDesc snd hd_error];
    try (destruct (c <? t)%nat eqn:E3; cbn [insertDesc snd hd_error]);
    rewrite ?Nat.ltb_lt, ?Nat.ltb_ge in *;
    repeat match goal with
           | |- context [(?a <=? ?b)%nat] =>
               let E := fresh "L" in
               destruct (a <=? b)%nat eqn:E;
               rewrite ?Nat.leb_le, ?Nat.leb_gt in E
           end;
    cbn [andb]; try reflexivity; try lia.
Qed.

Lemma countChar_zero c s : hasChar c s = false -> countChar c s = 0%nat.
Proof.
  induction s as [|x s IH]; simpl; [reflexivity|].
  intros H. apply orb_false_iff in H. destruct H as [-> H]. rewrite (IH H). reflexivity.
Qed.

Lemma hasChar_app c s1 s2 : hasChar c (s1 ++ s2) = hasChar c s1 || hasChar c s2.
Proof.
  induction s1 as [|x s1 IH]; simpl; [reflexivity|].
  rewrite IH, orb_assoc. reflexivity.
Qed.

Lemma firstLine_app line rest :
  hasChar LF line = false -> hasChar CR line = false ->
  firstLine (line ++ String LF rest) = line.
Proof.
  induction line as [|c line IH]; intros Hl Hc.
  - simpl. reflexivity.
  - apply hasChar_false_cons in Hl. destruct Hl as [Hl1 Hl2].
    apply hasChar_false_cons in Hc. destruct Hc as [Hc1 Hc2].
    cbn [append firstLine]. rewrite Hl1, Hc1. cbn [andb].
    rewrite IH by assumption. reflexivity.
Qed.

Lemma detectDelimiter_closed text :
  detectDelimiter text
  = let line := firstLine text in
    let c := countChar comma line in
    let s := countChar semicolon line in
    let t := countChar TAB line in
    if ((s <=? c) && (t <=? c))%nat then comma
    else if (t <=? s)%nat then semicolon else TAB.
Proof.
  unfold detectDelimiter. cbv zeta.
  pose proof (sortDesc_three (countChar comma (firstLine text))
                (countChar semicolon (firstLine text))
                (countChar TAB (firstLine text))) as H.
  destruct (sortDesc _) as [|[d n] l]; [discriminate|].
  simpl in H. inversion H as [H1]. clear H.
  destruct ((countChar semicolon (firstLine text) <=? countChar comma (firstLine text))
            && (countChar TAB (firstLine text) <=? countChar comma (firstLine text)))%nat
    eqn:E1.
  - inversion H1; subst. destruct (0 <? _)%nat; reflexivity.
  - destruct (countChar TAB (firstLine text) <=? countChar semicolon (firstLine text))%nat
      eqn:E2; inversion H1; subst.
    + destruct (0 <? countChar semicolon (firstLine text))%nat eqn:E3; [reflexivity|].
      apply Nat.ltb_ge in E3. apply Nat.leb_le in E2.
      apply andb_false_iff in E1.
      destruct E1 as [E1|E1]; apply Nat.leb_gt in E1; lia.
    + destruct (0 <? countChar TAB (firstLine text))%nat eqn:E3; [reflexivity|].
      apply Nat.ltb_ge in E3. apply Nat.leb_gt in E2. lia.
Qed.

End DelimiterFacts.

(** X9.  [detectDelimiter] looks at the first line only and returns the
    first of comma, semicolon and tab that occurs there most often; a
    first line with none of them gives the comma. *)
Theorem detectDelimiter_is_the_most_frequent text :
  let line := RosterPage.firstLine text in
  let c := Text.countChar Text.comma line in
  let s := Text.countChar Text.semicolon line in
  let t := Text.countChar Text.TAB line in
  RosterPage.detectDelimiter text
  = (if ((s <=? c) && (t <=? c))%nat then Text.comma
     else if (t <=? s)%nat then Text.semicolon else Text.TAB)
  /\ (Text.countChar (RosterPage.detectDelimiter text) line = Nat.max c (Nat.max s t))
  /\ (c = 0%nat -> s = 0%nat -> t = 0%nat -> RosterPage.detectDelimiter text = Text.comma).
Proof.
  cbv zeta. rewrite detectDelimiter_closed. cbv zeta.
  set (line := RosterPage.firstLine text).
  set (c := Text.countChar Text.comma line).
  set (s := Text.countChar Text.semicolon line).
  set (t := Text.countChar Text.TAB line).
  split; [reflexivity|]. split.
  - destruct ((s <=? c) && (t <=? c))%nat eqn:E1.
    + apply andb_true_iff in E1. destruct E1 as [E1 E2].
      apply Nat.leb_le in E1, E2. fold c. lia.
    + destruct (t <=? s)%nat eqn:E2.
      * apply Nat.leb_le in E2. apply andb_false_iff in E1. fold s.
        destruct E1 as [E1|E1]; apply Nat.leb_gt in E1; lia.
      * apply Nat.leb_gt in E2. apply andb_false_iff in E1. fold t.
        destruct E1 as [E1|E1]; apply Nat.leb_gt in E1; lia.
  - intros -> -> ->. reflexivity.
Qed.

Section RoundTripFacts.
Import JS Text RosterPage.

(** Decide the tests between two characters that are known. *)
Ltac chars :=
  repeat match goal with
         | |- context [Ascii.eqb ?a ?b] =>
             let v := eval compute in (Ascii.eqb a b) in
             match v with
             | true => change (Ascii.eqb a b) with true
             | false => change (Ascii.eqb a b) with false
             end
         end.

(** What follows a cell in the text: nothing, a comma or a line feed. *)
Definition cellEnd (rest : string) : Prop :=
  rest = "" \/ exists c rest', rest = String c rest' /\ (c = comma \/ c = LF).

Lemma cellEnd_not_quote c rest : cellEnd (String c rest) -> Ascii.eqb c quote = false.
Proof.
  intros [H|(c' & r & H & [->| ->])]; [discriminate| |]; inversion H; reflexivity.
Qed.

Lemma scan_plain f rest field row rows :
  hasChar quote f = false -> hasChar comma f = false -> hasChar LF f = false ->
  scan comma (f ++ rest) false field row rows = scan comma rest false (field ++ f) row rows.
Proof.
  revert field. induction f as [|c f IH]; intros field Hq Hc Hl.
  - simpl. rewrite append_nil_r. reflexivity.
  - apply hasChar_false_cons in Hq. destruct Hq as [Hq1 Hq2].
    apply hasChar_false_cons in Hc. destruct Hc as [Hc1 Hc2].
    apply hasChar_false_cons in Hl. destruct Hl as [Hl1 Hl2].
    cbn [append scan]. rewrite Hq1, Hc1, Hl1.
    rewrite (IH _ Hq2 Hc2 Hl2), append_snoc. reflexivity.
Qed.

Lemma scan_quoted f rest field row rows :
  cellEnd rest ->
  scan comma (replaceChar quote (String quote (String quote "")) f ++ String quote rest)
    true field row rows
  = scan comma rest false (field ++ f) row rows.
Proof.
  intros Hrest. revert field. induction f as [|c f IH]; intros field.
  - cbn [replaceChar append scan].
    rewrite Ascii.eqb_refl, append_nil_r.
    destruct rest as [|c rest]; [reflexivity|].
    rewrite (cellEnd_not_quote c rest Hrest). reflexivity.
  - cbn [replaceChar]. destruct (Ascii.eqb c quote) eqn:E.
    + apply Ascii.eqb_eq in E. subst c.
      cbn [append scan]. rewrite Ascii.eqb_refl.
      rewrite IH, append_snoc. reflexivity.
    + cbn [append scan]. rewrite E.
      rewrite IH, append_snoc. reflexivity.
Qed.

(** A cell that is read back: written as [e f], it leaves [f] in
    [field] at its end. *)
Definition readBack (e : string -> string) (f : string) : Prop :=
  forall rest row rows,
    cellEnd rest ->
    scan comma (e f ++ rest) false "" row rows = scan comma rest false f row rows.

Lemma readBack_esc f : readBack esc f.
Proof.
  intros rest row rows Hrest. unfold esc.
  destruct (hasChar quote f || hasChar comma f || hasChar LF f) eqn:E.
  - cbn [append scan]. rewrite Ascii.eqb_refl.
    rewrite append_assoc. cbn [append].
    rewrite scan_quoted by exact Hrest. reflexivity.
  - apply orb_false_iff in E. destruct E as [E Hl].
    apply orb_false_iff in E. destruct E as [Hq Hc].
    rewrite scan_plain by assumption. reflexivity.
Qed.

Lemma readBack_plain f :
  hasChar quote f = false -> hasChar comma f = false -> hasChar LF f = false ->
  readBack (fun s => s) f.
Proof.
  intros Hq Hc Hl rest row rows _. rewrite scan_plain by assumption. reflexivity.
Qed.

Lemma join_cons sep x y l : join sep (x :: y :: l) = x ++ sep ++ join sep (y :: l).
Proof. reflexivity. Qed.

(** A line of cells followed by a line feed adds one row. *)
Lemma scan_line_lf e f fields rest row rows :
  Forall (readBack e) (f :: fields) ->
  scan comma (join "," (map e (f :: fields)) ++ String LF rest) false "" row rows
  = scan comma rest false "" [] (rows ++ [(row ++ f :: fields)%list])%list.
Proof.
  revert f row. induction fields as [|g fields IH]; intros f row Hf.
  - inversion Hf as [|? ? H1 _]; subst. cbn [map join concat].
    rewrite H1 by (right; exists LF, rest; auto).
    cbn [scan]. chars. reflexivity.
  - inversion Hf as [|? ? H1 Hf']; subst.
    cbn [map]. rewrite join_cons, !append_assoc.
    rewrite H1 by (right; exists comma; eexists; split; [reflexivity | auto]).
    cbn [append scan]. chars. cbv iota.
    change (e g :: map e fields) with (map e (g :: fields)).
    rewrite (IH g (row ++ [f])%list Hf'), <- app_assoc. reflexivity.
Qed.

(** The last line, when it has two cells or more, adds its row too. *)
Lemma scan_line_end e f g fields row rows :
  Forall (readBack e) (f :: g :: fields) ->
  scan comma (join "," (map e (f :: g :: fields))) false "" row rows
  = (rows ++ [(row ++ f :: g :: fields)%list])%list.
Proof.
  revert f g row. induction fields as [|h fields IH]; intros f g row Hf.
  - inversion Hf as [|? ? H1 Hf']; subst. inversion Hf' as [|? ? H2 _]; subst.
    cbn [map]. rewrite join_cons.
    rewrite H1 by (right; exists comma; eexists; split; [reflexivity | auto]).
    cbn [append scan]. chars. cbv iota. cbn [join concat].
    rewrite <- (append_nil_r (e g)). rewrite H2 by (left; reflexivity).
    cbn [scan]. rewrite length_app. cbn [List.length].
    replace (0 <? List.length row + 1)%nat with true
      by (symmetry; apply Nat.ltb_lt; lia).
    rewrite orb_true_r, <- app_assoc. reflexivity.
  - inversion Hf as [|? ? H1 Hf']; subst.
    cbn [map]. rewrite join_cons.
    rewrite H1 by (right; exists comma; eexists; split; [reflexivity | auto]).
    cbn [append scan]. chars. cbv iota.
    change (e g :: e h :: map e fields) with (map e (g :: h :: fields)).
    rewrite (IH g h (row ++ [f])%list Hf'), <- app_assoc. reflexivity.
Qed.

Lemma filter_map_comm {A B : Type} (g : A -> B) (p : B -> bool) l :
  filter p (map g l) = map g (filter (fun x => p (g x)) l).
Proof.
  induction l as [|x l IH]; [reflexivity|].
  cbn [map filter]. destruct (p (g x)); cbn [map]; rewrite IH; reflexivity.
Qed.

(** The header line. *)
Lemma scan_header columns body :
  columns <> [] -> Forall (readBack (fun s => s)) columns ->
  scan comma (join "," columns ++ String LF body) false "" [] []
  = scan comma body false "" [] [columns].
Proof.
  intros Hne Hc. destruct columns as [|c0 cs]; [contradiction|].
  pose proof (scan_line_lf (fun s => s) c0 cs body [] [] Hc) as H.
  rewrite map_id in H. exact H.
Qed.

(** The lines of the body, each of two cells or more. *)
Lemma scan_body e (lines : list (list string)) rows :
  Forall (fun l => (2 <= List.length l)%nat /\ Forall (readBack e) l) lines ->
  scan comma (join (String LF "") (map (fun l => join "," (map e l)) lines)) false "" [] rows
  = (rows ++ lines)%list.
Proof.
  revert rows. induction lines as [|l lines IH]; intros rows Hl.
  - simpl. rewrite app_nil_r. reflexivity.
  - inversion Hl as [|? ? [Hlen Hr] Hl']; subst.
    destruct l as [|f [|g fields]]; try (simpl in Hlen; lia).
    destruct lines as [|l2 lines].
    + change (scan comma (join "," (map e (f :: g :: fields))) false "" [] rows
              = (rows ++ [f :: g :: fields])%list).
      rewrite (scan_line_end e f g fields [] rows Hr). reflexivity.
    + change (join (String LF "") (map (fun l => join "," (map e l))
                                     ((f :: g :: fields) :: l2 :: lines)))
        with (join "," (map e (f :: g :: fields))
              ++ String LF (join (String LF "")
                              (map (fun l => join "," (map e l)) (l2 :: lines)))).
      rewrite (scan_line_lf e f (g :: fields) _ [] rows Hr).
      rewrite (IH _ Hl'), <- app_assoc. reflexivity.
Qed.

(** A column name the header line can hold as it is. *)
Definition plainName (c : string) : Prop :=
  hasChar quote c = false /\ hasChar comma c = false /\ hasChar LF c = false
  /\ hasChar CR c = false /\ hasChar semicolon c = false /\ hasChar TAB c = false.

Lemma hasChar_join c sep l :
  hasChar c sep = false -> Forall (fun s => hasChar c s = false) l ->
  hasChar c (join sep l) = false.
Proof.
  intros Hs Hl. induction Hl as [|x l Hx Hl IH]; [reflexivity|].
  destruct l as [|y l]; [exact Hx|].
  rewrite join_cons, !hasChar_app, Hx, Hs, IH. reflexivity.
Qed.

Lemma hasChar_replace c d r s :
  hasChar c r = false -> hasChar c s = false -> hasChar c (replaceChar d r s) = false.
Proof.
  intros Hr. induction s as [|x s IH]; intros Hs; [reflexivity|].
  apply hasChar_false_cons in Hs. destruct Hs as [H1 H2].
  cbn [replaceChar]. destruct (Ascii.eqb x d).
  - rewrite hasChar_app, Hr, (IH H2). reflexivity.
  - simpl. rewrite H1, (IH H2). reflexivity.
Qed.

Lemma hasChar_CR_esc f : hasChar CR f = false -> hasChar CR (esc f) = false.
Proof.
  intros H. unfold esc. destruct (_ || _ || _); [|exact H].
  cbn [hasChar]. change (Ascii.eqb quote CR) with false. cbn [orb].
  rewrite hasChar_app, hasChar_replace; [reflexivity | reflexivity | exact H].
Qed.

Lemma crlfToLf_fixed s : hasChar CR s = false -> crlfToLf s = s.
Proof.
  induction s as [|c s IH]; intros H; [reflexivity|].
  apply hasChar_false_cons in H. destruct H as [H1 H2].
  cbn [crlfToLf]. rewrite H1, (IH H2). reflexivity.
Qed.

Lemma replaceChar_fixed c r s : hasChar c s = false -> replaceChar c r s = s.
Proof.
  induction s as [|x s IH]; intros H; [reflexivity|].
  apply hasChar_false_cons in H. destruct H as [H1 H2].
  cbn [replaceChar]. rewrite H1, (IH H2). reflexivity.
Qed.

Lemma normalizeNewlines_fixed s : hasChar CR s = false -> normalizeNewlines s = s.
Proof.
  intros H. unfold normalizeNewlines.
  rewrite crlfToLf_fixed by exact H. apply replaceChar_fixed. exact H.
Qed.

(** Reading a column of an object built over distinct column names. *)
Lemma get_put_same o k v : Text.get (Text.put o k v) k = Some v.
Proof.
  induction o as [|[k' v'] o IH]; simpl.
  - rewrite String.eqb_refl. reflexivity.
  - destruct (String.eqb k' k) eqn:E; simpl; rewrite E; [reflexivity | exact IH].
Qed.

Lemma get_put_other o k k2 v : k <> k2 -> Text.get (Text.put o k v) k2 = Text.get o k2.
Proof.
  intros Hne. induction o as [|[k' v'] o IH]; simpl.
  - apply String.eqb_neq in Hne. rewrite Hne. reflexivity.
  - destruct (String.eqb k' k) eqn:E; simpl.
    + apply String.eqb_eq in E. subst k'.
      apply String.eqb_neq in Hne. rewrite Hne. reflexivity.
    + rewrite IH. reflexivity.
Qed.

Lemma get_set_same o k v :
  k <> Text.protoKey -> Text.get (Text.set o k v) k = Some v.
Proof.
  intros Hk. unfold Text.set. apply String.eqb_neq in Hk. rewrite Hk.
  apply get_put_same.
Qed.

Lemma get_set_other o k k2 v : k <> k2 -> Text.get (Text.set o k v) k2 = Text.get o k2.
Proof.
  intros Hne. unfold Text.set.
  destruct (String.eqb k Text.protoKey); [reflexivity | apply get_put_other; exact Hne].
Qed.

Lemma put_keys o k v x :
  In x (map fst (Text.put o k v)) -> x = k \/ In x (map fst o).
Proof.
  induction o as [|[k' v'] o IH]; simpl.
  - intros [<-|[]]. left. reflexivity.
  - destruct (String.eqb k' k); simpl.
    + intros [H|H]; right; [left | right]; exact H.
    + intros [H|H]; [right; left; exact H|].
      destruct (IH H) as [H'|H']; [left; exact H' | right; right; exact H'].
Qed.

(** No assignment gives an object the own property "__proto__". *)
Lemma objectOf_no_proto header r obj :
  ~ In Text.protoKey (map fst obj) ->
  ~ In Text.protoKey (map fst (objectOf header r obj)).
Proof.
  revert r obj. induction header as [|h header IH]; intros r obj Hobj; [exact Hobj|].
  cbn [objectOf]. apply IH. unfold Text.set.
  destruct (String.eqb h Text.protoKey) eqn:E; [exact Hobj|].
  intros Hin. apply put_keys in Hin. destruct Hin as [Hin|Hin]; [|exact (Hobj Hin)].
  apply String.eqb_neq in E. apply E. symmetry. exact Hin.
Qed.

Lemma get_objectOf_other header r obj k :
  ~ In k header -> Text.get (objectOf header r obj) k = Text.get obj k.
Proof.
  revert r obj. induction header as [|h header IH]; intros r obj Hk; [reflexivity|].
  cbn [objectOf]. rewrite IH by (intros H; apply Hk; right; exact H).
  apply get_set_other. intros ->. apply Hk. left. reflexivity.
Qed.

Lemma get_objectOf (f : string -> string) header obj k :
  NoDup header -> In k header -> k <> Text.protoKey ->
  Text.get (objectOf header (map f header) obj) k = Some (clean (f k)).
Proof.
  revert obj. induction header as [|h header IH]; intros obj Hn Hk Hp; [contradiction|].
  inversion Hn as [|? ? Hh Hn']; subst. cbn [objectOf map tl hd_error JsonLoader.nullish].
  destruct Hk as [->|Hk].
  - rewrite get_objectOf_other by exact Hh. apply get_set_same. exact Hp.
  - apply IH; assumption.
Qed.

End RoundTripFacts.

(** X10.  What [toCSV] of the roster page writes, [parseCSVRobust] reads
    back.  For two columns or more whose names hold no quote, comma,
    semicolon, tab or line break, and rows whose cells hold no carriage
    return: the rows with a cell that is not blank come back in order,
    each as the object of the cleaned column names and cleaned cells,
    whatever quotes, commas and line feeds the cells hold; a row of blank
    cells is dropped.  With distinct column names that are clean, the
    value of a column in such an object is the cleaned cell, for every
    column but one named "__proto__": an object never gets a property of
    that name, its assignment being the prototype setter. *)
Theorem roster_csv_round_trip (rows : list PlanPage.Row) (columns : list string) :
  (2 <= List.length columns)%nat ->
  Forall plainName columns ->
  (forall r c, In r rows -> In c columns ->
               Text.hasChar Text.CR (JsonLoader.nullish (r c) "") = false) ->
  RosterPage.parseCSVRobust (RosterPage.toCSV rows columns)
  = map (fun r => RosterPage.objectOf (map RosterPage.clean columns)
                    (PlanPage.cells columns r) [])
      (filter (fun r => existsb (fun c => (0 <? String.length (Text.trim c))%nat)
                          (PlanPage.cells columns r)) rows)
  /\ (NoDup columns -> Forall (fun c => RosterPage.clean c = c) columns ->
      forall r c, In c columns -> c <> "__proto__" ->
        Text.get (RosterPage.objectOf (map RosterPage.clean columns)
                    (PlanPage.cells columns r) []) c
        = Some (RosterPage.clean (JsonLoader.nullish (r c) "")))
  /\ (forall r,
        ~ In "__proto__"
            (map fst (RosterPage.objectOf (map RosterPage.clean columns)
                        (PlanPage.cells columns r) []))).
Proof.
  intros Hlen Hcols Hcr. split; [|split].
  - assert (Hheader : forall ch, (ch = Text.quote \/ ch = Text.comma \/ ch = Text.LF
                                 \/ ch = Text.CR \/ ch = Text.semicolon \/ ch = Text.TAB) ->
                                Forall (fun s => Text.hasChar ch s = false) columns).
    { intros ch Hch. eapply Forall_impl; [|exact Hcols].
      intros c (H1 & H2 & H3 & H4 & H5 & H6).
      destruct Hch as [->|[->|[->|[->|[->| ->]]]]]; assumption. }
    set (header := Text.join "," columns).
    set (body := Text.join (String Text.LF "")
                   (map (fun r => Text.join "," (map RosterPage.esc (PlanPage.cells columns r)))
                      rows)).
    assert (Etext : RosterPage.toCSV rows columns = header ++ String Text.LF body)
      by reflexivity.
    assert (Hh : forall ch, (ch = Text.LF \/ ch = Text.CR \/ ch = Text.semicolon
                             \/ ch = Text.TAB) -> Text.hasChar ch header = false).
    { intros ch Hch. apply hasChar_join.
      - destruct Hch as [->|[->|[->| ->]]]; reflexivity.
      - apply Hheader. tauto. }
    assert (Hbody : Text.hasChar Text.CR body = false).
    { apply hasChar_join; [reflexivity|]. apply Forall_forall.
      intros line Hline. apply in_map_iff in Hline. destruct Hline as (r & <- & Hr).
      apply hasChar_join; [reflexivity|]. apply Forall_forall.
      intros cell Hcell. apply in_map_iff in Hcell. destruct Hcell as (f & <- & Hf).
      apply hasChar_CR_esc. unfold PlanPage.cells in Hf.
      apply in_map_iff in Hf. destruct Hf as (c & <- & Hc). apply Hcr; assumption. }
    unfold RosterPage.parseCSVRobust. rewrite Etext.
    rewrite normalizeNewlines_fixed
      by (rewrite hasChar_app, Hh by tauto; simpl; exact Hbody).
    assert (Ed : RosterPage.detectDelimiter (header ++ String Text.LF body) = Text.comma).
    { rewrite detectDelimiter_closed. cbv zeta.
      rewrite firstLine_app by (apply Hh; tauto).
      rewrite (countChar_zero Text.semicolon), (countChar_zero Text.TAB)
        by (apply Hh; tauto).
      reflexivity. }
    rewrite Ed.
    assert (Hcols' : Forall (readBack (fun s => s)) columns).
    { eapply Forall_impl; [|exact Hcols].
      intros c (H1 & H2 & H3 & _). apply readBack_plain; assumption. }
    assert (Escan : RosterPage.scan Text.comma (header ++ String Text.LF body) false "" [] []
                    = columns :: map (PlanPage.cells columns) rows).
    { unfold header. rewrite scan_header; [|intros ->; simpl in Hlen; lia|exact Hcols'].
      unfold body.
      rewrite <- (map_map (PlanPage.cells columns)
                    (fun l => Text.join "," (map RosterPage.esc l))).
      rewrite scan_body; [reflexivity|].
      apply Forall_forall. intros l Hl. apply in_map_iff in Hl.
      destruct Hl as (r & <- & _). split.
      - unfold PlanPage.cells. rewrite length_map. exact Hlen.
      - apply Forall_forall. intros f _. apply readBack_esc. }
    rewrite Escan.
    rewrite <- (map_map (PlanPage.cells columns)
                  (fun r => RosterPage.objectOf (map RosterPage.clean columns) r [])).
    f_equal. apply filter_map_comm.
  - intros Hnd Hclean r c Hc Hp.
    assert (Em : map RosterPage.clean columns = columns).
    { clear - Hclean. induction Hclean as [|x l Hx _ IH]; [reflexivity|].
      simpl. rewrite Hx, IH. reflexivity. }
    rewrite Em. unfold PlanPage.cells.
    apply (get_objectOf (fun c => JsonLoader.nullish (r c) "")); assumption.
  - intros r. apply objectOf_no_proto. intros [].
Qed.

(** ** The JSON loader *)

Section IncludesFacts.
Import JS.

Lemma prefix_app_l p q s : String.prefix (p ++ q) s = true -> String.prefix p s = true.
Proof.
  revert s. induction p as [|c p IH]; intros s H; [destruct s; reflexivity|].
  destruct s as [|d s]; simpl in *; [discriminate|].
  destruct (ascii_dec c d); [apply IH; exact H | discriminate].
Qed.

Lemma includes_prefix p s : String.prefix p s = true -> includes s p = true.
Proof. intros H. destruct s; simpl in *; rewrite H; reflexivity. Qed.

Lemma includes_tail c s p : includes s p = true -> includes (String c s) p = true.
Proof. intros H. cbn [includes]. rewrite H. apply orb_true_r. Qed.

Lemma prefix_app_r p q s : String.prefix (p ++ q) s = true -> includes s q = true.
Proof.
  revert s. induction p as [|c p IH]; intros s H.
  - apply includes_prefix. exact H.
  - destruct s as [|d s]; simpl in H; [discriminate|].
    destruct (ascii_dec c d); [|discriminate].
    apply includes_tail. apply IH. exact H.
Qed.

Lemma includes_app_l s p q : includes s (p ++ q) = true -> includes s p = true.
Proof.
  induction s as [|c s IH]; cbn [includes]; intros H.
  - rewrite orb_false_r in *. rewrite (prefix_app_l _ _ _ H). reflexivity.
  - apply orb_true_iff in H. destruct H as [H|H].
    + rewrite (prefix_app_l _ _ _ H). reflexivity.
    + rewrite (IH H). apply orb_true_r.
Qed.

Lemma includes_app_r s p q : includes s (p ++ q) = true -> includes s q = true.
Proof.
  induction s as [|c s IH]; cbn [includes]; intros H.
  - rewrite orb_false_r in H. apply (prefix_app_r p q ""). exact H.
  - apply orb_true_iff in H. destruct H as [H|H].
    + apply (prefix_app_r p q (String c s)). exact H.
    + apply includes_tail. apply IH. exact H.
Qed.

Lemma toLowerCase_empty s : toLowerCase s = "" <-> s = "".
Proof. destruct s; simpl; split; intros H; try reflexivity; discriminate. Qed.

End IncludesFacts.

(** X11.  [deriveType] returns nine of the thirteen bowler types: never
    fast-medium, medium-fast, medium or pace-spin-hybrid.  The branch
    that returns fast-medium is dead, because a [pace_spin] text that
    holds "medium-fast" or "fast-medium" holds "fast" and the test for
    "fast" comes first. *)
Theorem deriveType_never_fast_medium (raw : JsonLoader.Raw) :
  ~ In (JsonLoader.deriveType raw)
      [Cricket.fast_medium; Cricket.medium_fast; Cricket.medium; Cricket.pace_spin_hybrid].
Proof.
  unfold JsonLoader.deriveType.
  set (bt := JS.toLowerCase _). set (ps := JS.toLowerCase _).
  repeat match goal with
         | |- context [if JS.includes ?a ?b then _ else _] =>
             destruct (JS.includes a b) eqn:?;
             [simpl; intuition discriminate|]
         end.
  destruct (JS.includes ps "medium-fast" || JS.includes ps "fast-medium") eqn:E;
    [|simpl; intuition discriminate].
  exfalso. apply orb_true_iff in E. destruct E as [E|E].
  - apply (includes_app_r ps "medium-" "fast") in E. congruence.
  - apply (includes_app_l ps "fast" "-medium") in E. congruence.
Qed.

(** X12.  How the composer sees a bowler of the JSON loader.  The
    composer takes a bowler for a spinner when the type name holds
    "spin": of the types [deriveType] returns these are off-spin,
    leg-spin and left-arm wrist-spin.  A record read as left-arm orthodox
    or as mystery is composed as a pace bowler: its delivery pool holds
    the eight pace types on every pitch and its trap is the pace trap. *)
Theorem json_roster_spin_archetypes (uuid : string) (r : JsonLoader.Raw)
  (phase : Cricket.PhaseId) (pitch : Cricket.PitchType) :
  (StrategyMap.isSpin (JsonLoader.mapRaw uuid r) = true
   <-> In (JsonLoader.deriveType r)
          [Cricket.off_spin; Cricket.leg_spin; Cricket.left_arm_wrist_spin])
  /\ (In (JsonLoader.deriveType r) [Cricket.left_arm_orthodox; Cricket.mystery] ->
      keys (StrategyMap.delPool
              (StrategyMap.buildWeightedPools (JsonLoader.mapRaw uuid r) phase pitch))
      = Cricket.DELIVERY_TYPES_PACE
      /\ trapOf (JsonLoader.mapRaw uuid r) phase = DeliveryLogic.trapForPace phase).
Proof.
  assert (Hs : StrategyMap.isSpin (JsonLoader.mapRaw uuid r)
               = JS.includes (Cricket.bowlerTypeName (JsonLoader.deriveType r)) "spin")
    by reflexivity.
  pose proof (deriveType_never_fast_medium r) as Hnever.
  split.
  - rewrite Hs. destruct (JsonLoader.deriveType r); simpl in *; intuition discriminate.
  - intros Hin.
    assert (Hp : StrategyMap.isSpin (JsonLoader.mapRaw uuid r) = false).
    { rewrite Hs. destruct Hin as [<-|[<-|[]]]; reflexivity. }
    split.
    + apply pools_delPool_keys_pace. exact Hp.
    + unfold trapOf. rewrite Hp. reflexivity.
Qed.

(** X13.  The two loaders read the arm from the first letter of the
    text, whatever its case.  On a trimmed text they agree wherever
    [normalizeArm] of the CSV loader is defined; where it is not (no
    text, or a first letter that is neither r nor l), [asArm] of the JSON
    loader answers R. *)
Theorem arms_agree_on_trimmed_text (v : option string) :
  JsonLoader.asArm (option_map Text.trim v)
  = match CsvLoader.normalizeArm v with
    | Some a => a
    | None => Cricket.R
    end.
Proof.
  unfold JsonLoader.asArm, CsvLoader.normalizeArm, CsvLoader.safeStr.
  destruct v as [s|]; [|reflexivity]. cbn [option_map JsonLoader.orStr].
  destruct (Text.trim s) as [|c t] eqn:E; [reflexivity|].
  cbn [JsonLoader.orStr].
  destruct (String.eqb (JS.toLowerCase (String c t)) "") eqn:E0.
  - apply String.eqb_eq in E0. apply toLowerCase_empty in E0. discriminate.
  - destruct (Text.startsWith _ "r"); [reflexivity|].
    destruct (Text.startsWith _ "l"); reflexivity.
Qed.

(** ** Rosters keyed by id *)

(** The distinct entries of a list, in the order of their first
    occurrence. *)
Fixpoint firstSeen (l : list string) : list string :=
  match l with
  | [] => []
  | x :: l' => x :: filter (fun y => negb (String.eqb x y)) (firstSeen l')
  end.

Section KeyedFacts.

Lemma existsb_eqb_In' x (l : list string) :
  existsb (fun y => String.eqb y x) l = true <-> In x l.
Proof.
  rewrite existsb_exists. split.
  - intros (y & Hy & E). apply String.eqb_eq in E. subst. exact Hy.
  - intros H. exists x. split; [exact H | apply String.eqb_refl].
Qed.

Lemma firstSeen_In x l : In x (firstSeen l) <-> In x l.
Proof.
  induction l as [|a l IH]; simpl; [tauto|].
  rewrite filter_In, IH. split.
  - intros [H|[H _]]; auto.
  - intros [H|H]; [auto|].
    destruct (String.eqb a x) eqn:E.
    + apply String.eqb_eq in E. auto.
    + right. split; [exact H | reflexivity].
Qed.

Lemma existsb_firstSeen x l :
  existsb (fun y => String.eqb y x) (firstSeen l) = existsb (fun y => String.eqb y x) l.
Proof.
  destruct (existsb _ l) eqn:E2.
  - apply existsb_eqb_In'. apply (proj2 (firstSeen_In x l)).
    apply (proj1 (existsb_eqb_In' x l)). exact E2.
  - destruct (existsb _ (firstSeen l)) eqn:E1; [|reflexivity].
    apply (proj1 (existsb_eqb_In' x _)) in E1. apply (proj1 (firstSeen_In x l)) in E1.
    apply (proj2 (existsb_eqb_In' x l)) in E1. congruence.
Qed.

Lemma firstSeen_snoc l x :
  firstSeen (l ++ [x])
  = (firstSeen l ++ if existsb (fun y => String.eqb y x) l then [] else [x])%list.
Proof.
  induction l as [|a l IH]; [reflexivity|].
  cbn [app firstSeen existsb]. rewrite IH, filter_app. f_equal. f_equal.
  destruct (String.eqb a x) eqn:E; cbn [orb].
  - destruct (existsb _ l); [reflexivity|]. simpl. rewrite E. reflexivity.
  - destruct (existsb _ l); [reflexivity|]. simpl. rewrite E. reflexivity.
Qed.

Lemma firstSeen_NoDup l : NoDup (firstSeen l).
Proof.
  induction l as [|a l IH]; simpl; constructor.
  - rewrite filter_In. intros [_ H]. rewrite String.eqb_refl in H. discriminate.
  - apply NoDup_filter. exact IH.
Qed.

Context {B : Type} (id : B -> string).

(** The entries of a [Map] keyed by id, after the loop over [l]: the key
    of an entry is the id of its value. *)
Definition keyed (m : list (string * B)) : Prop :=
  Forall (fun e => fst e = id (snd e)) m.

Lemma find_keyed m i :
  keyed m ->
  find (fun b => String.eqb (id b) i) (map snd m)
  = option_map snd (find (fun e => String.eqb (fst e) i) m).
Proof.
  intros H. induction H as [|[k v] m Hk _ IH]; [reflexivity|].
  simpl in *. subst k. destruct (String.eqb (id v) i); [reflexivity | exact IH].
Qed.

Lemma find_append {A : Type} (f : A -> bool) (l1 l2 : list A) :
  find f (l1 ++ l2)
  = match find f l1 with
    | Some e => Some e
    | None => find f l2
    end.
Proof.
  induction l1 as [|e l1 IH]; [reflexivity|].
  simpl. destruct (f e); [reflexivity | exact IH].
Qed.

End KeyedFacts.

Section MergeFacts.
Import Page RosterPage.

Lemma mapSet_keys m b :
  map fst (mapSet m b)
  = (map fst m ++ if existsb (fun k => String.eqb k (id b)) (map fst m) then [] else [id b])%list.
Proof.
  induction m as [|[k v] m IH]; [reflexivity|].
  cbn [mapSet]. destruct (String.eqb k (id b)) eqn:E.
  - cbn [map fst existsb]. rewrite E. cbn [orb]. rewrite app_nil_r. reflexivity.
  - cbn [map fst existsb app]. rewrite E, IH. reflexivity.
Qed.

Lemma mapSet_keyed m b : keyed id m -> keyed id (mapSet m b).
Proof.
  intros H. induction H as [|[k v] m Hk Hm IH]; simpl.
  - constructor; [reflexivity | constructor].
  - destruct (String.eqb k (id b)) eqn:E.
    + constructor; [|exact Hm]. apply String.eqb_eq in E. exact E.
    + constructor; assumption.
Qed.

Lemma mapSet_find m b i :
  find (fun e => String.eqb (fst e) i) (mapSet m b)
  = if String.eqb (id b) i then Some (id b, b)
    else find (fun e => String.eqb (fst e) i) m.
Proof.
  induction m as [|[k v] m IH]; simpl.
  - destruct (String.eqb (id b) i); reflexivity.
  - destruct (String.eqb k (id b)) eqn:E; simpl.
    + apply String.eqb_eq in E. subst k.
      destruct (String.eqb (id b) i); reflexivity.
    + destruct (String.eqb k i) eqn:Ei.
      * destruct (String.eqb (id b) i) eqn:Eb; [|reflexivity].
        apply String.eqb_eq in Ei, Eb. subst. rewrite String.eqb_refl in E. discriminate.
      * exact IH.
Qed.

(** The [Map] after [l.forEach((b) => map.set(b.id, b))] from empty. *)
Lemma mapOf_spec l :
  let m := fold_left mapSet l [] in
  keyed id m
  /\ map fst m = firstSeen (map id l)
  /\ forall i, find (fun e => String.eqb (fst e) i) m
               = option_map (fun b => (id b, b))
                   (find (fun b => String.eqb (id b) i) (rev l)).
Proof.
  cbv zeta. induction l as [|b l IH] using rev_ind.
  - simpl. split; [constructor|]. split; [reflexivity|]. intros i. reflexivity.
  - rewrite fold_left_app. cbn [fold_left].
    destruct IH as (Hk & Hkeys & Hfind). split; [|split].
    + apply mapSet_keyed. exact Hk.
    + rewrite mapSet_keys, Hkeys, map_app. cbn [map]. rewrite firstSeen_snoc.
      rewrite existsb_firstSeen. reflexivity.
    + intros i. rewrite mapSet_find, rev_app_distr. simpl.
      destruct (String.eqb (id b) i); [reflexivity | apply Hfind].
Qed.

End MergeFacts.

(** X14.  [mergeRoster] returns one bowler for each id of the two
    rosters: the last one with that id, the incoming roster read after
    the existing one, so an incoming bowler replaces an existing bowler
    with its id.  The ids keep the order of their first occurrence:
    a replaced bowler stays at its place and new ids come at the end. *)
Theorem mergeRoster_last_one_wins (existing incoming : list Page.Bowler) :
  NoDup (map Page.id (RosterPage.mergeRoster existing incoming))
  /\ map Page.id (RosterPage.mergeRoster existing incoming)
     = firstSeen (map Page.id (existing ++ incoming))
  /\ forall i,
       find (fun b => String.eqb (Page.id b) i) (RosterPage.mergeRoster existing incoming)
       = find (fun b => String.eqb (Page.id b) i) (rev (existing ++ incoming)).
Proof.
  unfold RosterPage.mergeRoster. rewrite <- fold_left_app.
  destruct (mapOf_spec (existing ++ incoming)) as (Hk & Hkeys & Hfind).
  assert (Hids : map Page.id (map snd (fold_left RosterPage.mapSet (existing ++ incoming) []))
                 = firstSeen (map Page.id (existing ++ incoming))).
  { rewrite <- Hkeys. rewrite map_map. apply map_ext_in.
    intros e He. unfold keyed in Hk. rewrite Forall_forall in Hk.
    symmetry. apply Hk. exact He. }
  split; [rewrite Hids; apply firstSeen_NoDup|]. split; [exact Hids|].
  intros i. rewrite (find_keyed Page.id _ i Hk), Hfind.
  destruct (find _ (rev (existing ++ incoming))); reflexivity.
Qed.

Section JsonDedupFacts.
Import Cricket JsonLoader.

Lemma hasId_keys k dedup :
  hasId k dedup = existsb (fun y => String.eqb y k) (map fst dedup).
Proof.
  unfold hasId. induction dedup as [|e d IH]; [reflexivity|].
  simpl. rewrite IH. reflexivity.
Qed.

Lemma dedupLoop_snoc l b dedup :
  dedupLoop (l ++ [b]) dedup
  = if hasId (id b) (dedupLoop l dedup) then dedupLoop l dedup
    else (dedupLoop l dedup ++ [(id b, b)])%list.
Proof.
  revert dedup. induction l as [|a l IH]; intros dedup; [reflexivity|].
  cbn [app dedupLoop]. destruct (hasId (id a) dedup); apply IH.
Qed.

Lemma find_none_keys {B : Type} (m : list (string * B)) i :
  existsb (fun y => String.eqb y i) (map fst m) = false ->
  find (fun e => String.eqb (fst e) i) m = None.
Proof.
  induction m as [|e m IH]; [reflexivity|].
  simpl. intros H. apply orb_false_iff in H. destruct H as [H1 H2].
  rewrite H1. apply IH. exact H2.
Qed.

Lemma find_some_keys {B : Type} (m : list (string * B)) i :
  existsb (fun y => String.eqb y i) (map fst m) = true ->
  exists e, find (fun e => String.eqb (fst e) i) m = Some e.
Proof.
  induction m as [|e m IH]; [discriminate|].
  simpl. destruct (String.eqb (fst e) i); [eauto|]. exact IH.
Qed.

Lemma dedupLoop_from l dedup e :
  In e (dedupLoop l dedup) -> In e dedup \/ In (snd e) l.
Proof.
  revert dedup. induction l as [|b l IH]; intros dedup H; [left; exact H|].
  cbn [dedupLoop] in H. destruct (hasId (id b) dedup).
  - destruct (IH _ H) as [H1|H1]; [left; exact H1 | right; right; exact H1].
  - destruct (IH _ H) as [H1|H1]; [|right; right; exact H1].
    apply in_app_or in H1. destruct H1 as [H1|[<-|[]]]; [left; exact H1|].
    right. left. reflexivity.
Qed.

Lemma mapi_In {A C : Type} (f : A -> nat -> C) l i0 y :
  In y (OverLogic.mapi f i0 l) -> exists x i, In x l /\ y = f x i.
Proof.
  revert i0. induction l as [|x l IH]; intros i0 H; [contradiction|].
  destruct H as [<-|H].
  - exists x, i0. split; [left|]; reflexivity.
  - destruct (IH _ H) as (x' & i & Hx & ->). exists x', i. split; [right; exact Hx | reflexivity].
Qed.

Lemma replaceRuns_no_space b s : Text.anyChar Text.isSpace (Text.replaceRuns b "_" s) = false.
Proof.
  revert b. induction s as [|c s IH]; intros b; [reflexivity|].
  cbn [Text.replaceRuns]. destruct (Text.isSpace c) eqn:E.
  - destruct b; [apply IH|]. cbn [append Text.anyChar]. rewrite IH. reflexivity.
  - cbn [Text.anyChar]. rewrite E, IH. reflexivity.
Qed.

Lemma lowerChar_not_upper c :
  let n := N_of_ascii (JS.lowerChar c) in ((65 <=? n) && (n <=? 90))%N = false.
Proof. destruct c as [[] [] [] [] [] [] [] []]; reflexivity. Qed.

Lemma toLowerCase_no_upper s : CsvLoader.hasUpper (JS.toLowerCase s) = false.
Proof.
  induction s as [|c s IH]; [reflexivity|].
  cbn [JS.toLowerCase CsvLoader.hasUpper]. rewrite IH, orb_false_r.
  apply lowerChar_not_upper.
Qed.

Lemma replaceRuns_no_upper b s :
  CsvLoader.hasUpper s = false -> CsvLoader.hasUpper (Text.replaceRuns b "_" s) = false.
Proof.
  revert b. induction s as [|c s IH]; intros b H; [reflexivity|].
  cbn [CsvLoader.hasUpper] in H. apply orb_false_iff in H. destruct H as [H1 H2].
  cbn [Text.replaceRuns]. destruct (Text.isSpace c).
  - destruct b; [apply IH; exact H2|].
    cbn [append CsvLoader.hasUpper]. rewrite (IH true H2). reflexivity.
  - cbn [CsvLoader.hasUpper]. rewrite H1, (IH false H2). reflexivity.
Qed.

Lemma mapRaw_id_normal uuid r :
  Text.anyChar Text.isSpace (id (mapRaw uuid r)) = false
  /\ CsvLoader.hasUpper (id (mapRaw uuid r)) = false.
Proof.
  unfold mapRaw. cbn [id]. unfold Text.replaceSpaces. split.
  - apply replaceRuns_no_space.
  - apply replaceRuns_no_upper. apply toLowerCase_no_upper.
Qed.

(** The [Map] after the loop over [l] from empty. *)
Lemma dedupOf_spec l :
  let m := dedupLoop l [] in
  keyed id m
  /\ map fst m = firstSeen (map id l)
  /\ forall i, find (fun e => String.eqb (fst e) i) m
               = option_map (fun b => (id b, b)) (find (fun b => String.eqb (id b) i) l).
Proof.
  cbv zeta. induction l as [|b l IH] using rev_ind.
  - simpl. split; [constructor|]. split; [reflexivity|]. intros i. reflexivity.
  - rewrite dedupLoop_snoc. destruct IH as (Hk & Hkeys & Hfind).
    rewrite hasId_keys. rewrite map_app. cbn [map]. rewrite firstSeen_snoc.
    assert (Ee : existsb (fun y => String.eqb y (id b)) (map fst (dedupLoop l []))
                 = existsb (fun y => String.eqb y (id b)) (map id l)).
    { rewrite Hkeys. apply existsb_firstSeen. }
    rewrite <- Ee.
    destruct (existsb _ (map fst (dedupLoop l []))) eqn:E.
    + split; [exact Hk|]. split; [rewrite app_nil_r; exact Hkeys|].
      intros i. rewrite Hfind, find_append.
      destruct (find _ l) eqn:Ef; [reflexivity|]. simpl.
      destruct (String.eqb (id b) i) eqn:Eb; [|reflexivity].
      apply String.eqb_eq in Eb. subst i.
      destruct (find_some_keys _ _ E) as (e & He). rewrite Hfind, Ef in He. discriminate.
    + split; [|split].
      * apply Forall_app. split; [exact Hk|]. constructor; [reflexivity | constructor].
      * rewrite map_app, Hkeys. reflexivity.
      * intros i. rewrite find_append, Hfind, find_append.
        destruct (find _ l) eqn:Ef; [reflexivity|]. simpl.
        destruct (String.eqb (id b) i); reflexivity.
Qed.

End JsonDedupFacts.

(** X15.  [parseJSONToBowlers], from the parsed array on, returns one
    bowler for each id: the first record with that id, in the order of
    first occurrence.  Where [mergeRoster] keeps the last bowler of an
    id, this loader keeps the first.  Every id it returns is normalised:
    it holds no white space and no capital letter A-Z. *)
Theorem parseJSONToBowlers_first_one_wins (uuid : nat -> string) (arr : list JsonLoader.Raw) :
  let mapped := OverLogic.mapi (fun r i => JsonLoader.mapRaw (uuid i) r) 0 arr in
  NoDup (map Cricket.id (JsonLoader.bowlersOf uuid arr))
  /\ map Cricket.id (JsonLoader.bowlersOf uuid arr) = firstSeen (map Cricket.id mapped)
  /\ (forall i,
        find (fun b => String.eqb (Cricket.id b) i) (JsonLoader.bowlersOf uuid arr)
        = find (fun b => String.eqb (Cricket.id b) i) mapped)
  /\ (forall b, In b (JsonLoader.bowlersOf uuid arr) ->
                Text.anyChar Text.isSpace (Cricket.id b) = false
                /\ CsvLoader.hasUpper (Cricket.id b) = false).
Proof.
  cbv zeta. unfold JsonLoader.bowlersOf.
  set (mapped := OverLogic.mapi _ 0 arr).
  destruct (dedupOf_spec mapped) as (Hk & Hkeys & Hfind).
  assert (Hids : map Cricket.id (map snd (JsonLoader.dedupLoop mapped []))
                 = firstSeen (map Cricket.id mapped)).
  { rewrite <- Hkeys. rewrite map_map. apply map_ext_in.
    intros e He. unfold keyed in Hk. rewrite Forall_forall in Hk.
    symmetry. apply Hk. exact He. }
  split; [rewrite Hids; apply firstSeen_NoDup|]. split; [exact Hids|]. split.
  - intros i. rewrite (find_keyed Cricket.id _ i Hk), Hfind.
    destruct (find _ mapped); reflexivity.
  - intros b Hb. apply in_map_iff in Hb. destruct Hb as (e & <- & He).
    apply dedupLoop_from in He. destruct He as [[]|He].
    apply mapi_In in He. destruct He as (r & i & _ & ->).
    apply mapRaw_id_normal.
Qed.

(** ** The CSV loader: formats and names *)

(** Entry [raw] names the format [k]. *)
Definition namesFormat (k : CsvLoader.Format) (raw : string) : bool :=
  match CsvLoader.formatOf raw with
  | Some k' => CsvLoader.Format_beq k k'
  | None => false
  end.

Section FormatFacts.
Import JS Text CsvLoader.

Lemma addFormat_has k out k' :
  existsb (Format_beq k) (addFormat out k') = existsb (Format_beq k) out || Format_beq k k'.
Proof.
  unfold addFormat. destruct (existsb (Format_beq k') out) eqn:E.
  - destruct (Format_beq k k') eqn:Ek; [|rewrite orb_false_r; reflexivity].
    assert (k = k') by (destruct k, k'; try discriminate; reflexivity). subst k'.
    rewrite E. reflexivity.
  - rewrite existsb_app. simpl. rewrite orb_false_r. reflexivity.
Qed.

Lemma fold_formats_has k a out :
  existsb (Format_beq k)
    (fold_left (fun out raw => match formatOf raw with
                               | Some k => addFormat out k
                               | None => out
                               end) a out)
  = existsb (Format_beq k) out || existsb (namesFormat k) a.
Proof.
  revert out. induction a as [|raw a IH]; intros out; simpl.
  - rewrite orb_false_r. reflexivity.
  - rewrite IH. unfold namesFormat at 2. destruct (formatOf raw) as [k'|].
    + rewrite addFormat_has, orb_assoc. reflexivity.
    + reflexivity.
Qed.

Lemma formatOf_trim raw : formatOf (trim raw) = formatOf raw.
Proof. unfold formatOf. rewrite trim_idem. reflexivity. Qed.

Lemma formatOf_blank raw : nonEmpty (trim raw) = false -> formatOf raw = None.
Proof.
  unfold nonEmpty, formatOf. intros H. apply negb_false_iff in H. rewrite H. reflexivity.
Qed.

Lemma names_toStringArray k v :
  existsb (namesFormat k) (toStringArrayOfArray v) = existsb (namesFormat k) v.
Proof.
  unfold toStringArrayOfArray. induction v as [|raw v IH]; [reflexivity|].
  cbn [map filter existsb]. destruct (nonEmpty (trim raw)) eqn:E.
  - cbn [existsb]. rewrite IH. unfold namesFormat at 1 3. rewrite formatOf_trim.
    reflexivity.
  - rewrite IH. unfold namesFormat at 2. rewrite (formatOf_blank raw E). reflexivity.
Qed.

End FormatFacts.

(** X16.  [normalizeFormats] on an array of strings returns the formats
    its entries name, in the display order T20I, ODI, Test and each once,
    whatever the order, the case, the blanks and the repetitions of the
    entries; it is undefined when no entry names a format, and never an
    empty array.  An entry names Test as "test", ODI as "odi" and T20I as
    "t20", "t20i" or "ipl only", in any case. *)
Theorem normalizeFormats_in_display_order (v : list string) :
  CsvLoader.normalizeFormats v
  = match filter (fun k => existsb (namesFormat k) v)
            [CsvLoader.T20I; CsvLoader.ODI; CsvLoader.Test] with
    | [] => None
    | l => Some l
    end.
Proof.
  unfold CsvLoader.normalizeFormats, CsvLoader.normalizeFormatsOf.
  assert (E : forall k,
            existsb (CsvLoader.Format_beq k)
              (fold_left (fun out raw => match CsvLoader.formatOf raw with
                                         | Some k => CsvLoader.addFormat out k
                                         | None => out
                                         end) (CsvLoader.toStringArrayOfArray v) [])
            = existsb (namesFormat k) v).
  { intros k. rewrite fold_formats_has, names_toStringArray. reflexivity. }
  destruct (CsvLoader.toStringArrayOfArray v) as [|x a] eqn:Ea.
  - assert (Hn : forall k, existsb (namesFormat k) v = false).
    { intros k. rewrite <- names_toStringArray, Ea. reflexivity. }
    cbn [filter]. rewrite !Hn. reflexivity.
  - cbn [filter]. rewrite !E.
    destruct (existsb (namesFormat CsvLoader.T20I) v),
      (existsb (namesFormat CsvLoader.ODI) v),
      (existsb (namesFormat CsvLoader.Test) v); reflexivity.
Qed.

Section TitleFacts.
Import JS Text CsvLoader.

Lemma lower_upper c : lowerChar (upperChar c) = lowerChar c.
Proof. destruct c as [[] [] [] [] [] [] [] []]; reflexivity. Qed.

Lemma toLowerCase_app s1 s2 : toLowerCase (s1 ++ s2) = toLowerCase s1 ++ toLowerCase s2.
Proof.
  induction s1 as [|c s1 IH]; [reflexivity|]. simpl. rewrite IH. reflexivity.
Qed.

Lemma length_append s1 s2 :
  String.length (s1 ++ s2) = (String.length s1 + String.length s2)%nat.
Proof. induction s1 as [|c s1 IH]; [reflexivity|]. simpl. rewrite IH. reflexivity. Qed.

Lemma titleWord_lower w : toLowerCase (titleWord w) = toLowerCase w.
Proof.
  destruct w as [|c rest]; [reflexivity|].
  unfold titleWord. destruct (hasUpper rest); [reflexivity|].
  simpl. rewrite lower_upper. reflexivity.
Qed.

Lemma titleWord_length w : String.length (titleWord w) = String.length w.
Proof.
  destruct w as [|c rest]; [reflexivity|].
  unfold titleWord. destruct (hasUpper rest); reflexivity.
Qed.

Lemma split_nonempty d s : split d s <> [].
Proof.
  destruct s as [|c s]; simpl; [discriminate|].
  destruct (d c); [discriminate|]. destruct (split d s); discriminate.
Qed.

(** Joining the pieces of [split] with the separator gives the string
    back. *)
Lemma join_split c0 s : join (String c0 "") (split (Ascii.eqb c0) s) = s.
Proof.
  induction s as [|c s IH]; [reflexivity|].
  cbn [split]. pose proof (split_nonempty (Ascii.eqb c0) s) as Hne.
  destruct (Ascii.eqb c0 c) eqn:E.
  - apply Ascii.eqb_eq in E. subst c.
    destruct (split (Ascii.eqb c0) s) as [|w ws]; [contradiction|].
    change (join (String c0 "") ("" :: w :: ws))
      with (String c0 (join (String c0 "") (w :: ws))).
    rewrite IH. reflexivity.
  - destruct (split (Ascii.eqb c0) s) as [|w ws]; [contradiction|].
    destruct ws as [|w2 ws].
    + simpl in *. rewrite IH. reflexivity.
    + change (join (String c0 "") (String c w :: w2 :: ws))
        with (String c (w ++ String c0 (join (String c0 "") (w2 :: ws)))).
      change (join (String c0 "") (w :: w2 :: ws))
        with (w ++ String c0 (join (String c0 "") (w2 :: ws))) in IH.
      rewrite IH. reflexivity.
Qed.

(** Two lists of words that agree word by word under [f], a measure
    that distributes over the joins, agree when joined. *)
Lemma join_map_eq {A : Type} (f : string -> A) (g : A -> A -> A) sep l1 l2 :
  (forall s1 s2, f (s1 ++ s2) = g (f s1) (f s2)) ->
  map f l1 = map f l2 ->
  f (join sep l1) = f (join sep l2).
Proof.
  intros Hf. revert l2. induction l1 as [|x l1 IH]; intros l2 H.
  - destruct l2; [reflexivity | discriminate].
  - destruct l2 as [|y l2]; [discriminate|].
    simpl in H. inversion H as [[Hx Hl]].
    destruct l1 as [|x2 l1]; destruct l2 as [|y2 l2]; try discriminate.
    + simpl. exact Hx.
    + change (join sep (x :: x2 :: l1)) with (x ++ sep ++ join sep (x2 :: l1)).
      change (join sep (y :: y2 :: l2)) with (y ++ sep ++ join sep (y2 :: l2)).
      rewrite !Hf, Hx, (IH (y2 :: l2) Hl). reflexivity.
Qed.

End TitleFacts.

(** X17.  On an ASCII text [titleCase] changes nothing but the case of
    letters: the result has the length of the text and the same
    lower-cased form.  Only the first character of a word (the pieces
    between single spaces) can change, and only when the rest of the word
    has no capital. *)
Theorem titleCase_changes_case_only (s : string) :
  isAscii s = true ->
  JS.toLowerCase (CsvLoader.titleCase s) = JS.toLowerCase s
  /\ String.length (CsvLoader.titleCase s) = String.length s.
Proof.
  intros _. unfold CsvLoader.titleCase.
  pose proof (join_split Text.space s) as Hs.
  change (String Text.space "") with " " in Hs.
  split.
  - rewrite <- Hs at 2.
    apply (join_map_eq JS.toLowerCase append); [apply toLowerCase_app|].
    rewrite map_map. apply map_ext. apply titleWord_lower.
  - rewrite <- Hs at 2.
    apply (join_map_eq String.length Nat.add); [apply length_append|].
    rewrite map_map. apply map_ext. apply titleWord_length.
Qed.

Example titleCase_slower_ball : CsvLoader.titleCase "slower ball" = "Slower Ball".
Proof. reflexivity. Qed.

Lemma titleCase_changes_case_only_witness :
  JS.toLowerCase (CsvLoader.titleCase "slower ball") = JS.toLowerCase "slower ball"
  /\ String.length (CsvLoader.titleCase "slower ball") = String.length "slower ball".
Proof.
  apply (titleCase_changes_case_only "slower ball"). reflexivity.
Defined.

(** ** shuffleInPlace *)

Section ShuffleFacts.
Import JS Random Shuffle.
Context {T : Type}.

(** The list without its element at [i]. *)
Definition without (i : nat) (l : list T) : list T := (firstn i l ++ skipn (S i) l)%list.

Lemma nth_error_cut (l : list T) i a :
  nth_error l i = Some a -> l = (firstn i l ++ a :: skipn (S i) l)%list.
Proof.
  revert i. induction l as [|x l IH]; intros i H; [destruct i; discriminate|].
  destruct i as [|i]; simpl in *.
  - inversion H. reflexivity.
  - f_equal. apply IH. exact H.
Qed.

Lemma perm_cut (l : list T) i a :
  nth_error l i = Some a -> Permutation l (a :: without i l).
Proof.
  intros H. rewrite (nth_error_cut l i a H) at 1.
  symmetry. apply Permutation_middle.
Qed.

Lemma perm_replaceAt (l : list T) i b : Permutation (replaceAt i b l) (b :: without i l).
Proof. unfold replaceAt. symmetry. apply Permutation_middle. Qed.

Lemma swap_replaceAt (arr : list T) i j x y :
  nth_error arr i = Some x -> nth_error arr j = Some y ->
  swap arr i j = replaceAt j x (replaceAt i y arr).
Proof. intros Hi Hj. unfold swap. rewrite Hi, Hj. reflexivity. Qed.

(** A swap of two places of the array permutes it. *)
Lemma swap_perm (arr : list T) i j :
  (i < List.length arr)%nat -> (j < List.length arr)%nat ->
  Permutation (swap arr i j) arr.
Proof.
  intros Hi Hj.
  destruct (nth_error arr i) as [x|] eqn:Ei; [|apply nth_error_None in Ei; lia].
  destruct (nth_error arr j) as [y|] eqn:Ej; [|apply nth_error_None in Ej; lia].
  rewrite (swap_replaceAt arr i j x y Ei Ej).
  set (arr1 := replaceAt i y arr).
  assert (E1 : nth_error arr1 j = Some y).
  { unfold arr1. destruct (Nat.eq_dec j i) as [->|Hne].
    - apply replaceAt_same. exact Hi.
    - rewrite replaceAt_other by assumption. exact Ej. }
  assert (P1 : Permutation (y :: without j arr1) (y :: without i arr)).
  { rewrite <- (perm_cut arr1 j y E1). apply perm_replaceAt. }
  apply Permutation_cons_inv in P1.
  rewrite perm_replaceAt, P1. symmetry. apply perm_cut. exact Ei.
Qed.

Lemma index_le k i : 0 <= k < 2 ^ 32 -> (index k i <= i)%nat.
Proof.
  intros Hk. unfold index.
  assert (H : k * Z.of_nat (i + 1) / 2 ^ 32 < Z.of_nat (i + 1)).
  { apply Z.div_lt_upper_bound; [lia|]. nia. }
  assert (0 <= k * Z.of_nat (i + 1) / 2 ^ 32) by (apply Z.div_pos; lia).
  lia.
Qed.

Lemma mulberry32_range a : 0 <= snd (mulberry32 a) < 2 ^ 32.
Proof. unfold mulberry32. cbn [snd]. apply toUint32_range. Qed.

Lemma shuffleFrom_perm i a (arr : list T) :
  (i < List.length arr)%nat \/ i = 0%nat ->
  Permutation (snd (shuffleFrom i a arr)) arr.
Proof.
  revert a arr. induction i as [|i IH]; intros a arr Hi; [reflexivity|].
  destruct Hi as [Hi|Hi]; [|discriminate].
  cbn [shuffleFrom]. pose proof (mulberry32_range a) as Hr.
  destruct (mulberry32 a) as [a' k]. cbn [snd] in Hr.
  pose proof (index_le k (S i) Hr) as Hj.
  assert (P : Permutation (swap arr (S i) (index k (S i))) arr)
    by (apply swap_perm; lia).
  rewrite IH; [exact P|].
  left. rewrite (Permutation_length P). lia.
Qed.

End ShuffleFacts.

(** X18.  [shuffleInPlace] permutes the array: every swap exchanges two
    places inside it, since the index drawn for place [i] is at most
    [i].  Nothing is lost, added or written past the end. *)
Theorem shuffleInPlace_permutes (T : Type) (a : Z) (arr : list T) :
  Z.of_nat (List.length arr) <= 2 ^ 21 ->
  Permutation (snd (Shuffle.shuffleInPlace a arr)) arr
  /\ List.length (snd (Shuffle.shuffleInPlace a arr)) = List.length arr.
Proof.
  intros _.
  assert (P : Permutation (snd (Shuffle.shuffleInPlace a arr)) arr).
  { unfold Shuffle.shuffleInPlace. apply shuffleFrom_perm.
    destruct arr as [|x arr]; [right; reflexivity | left; simpl; lia]. }
  split; [exact P | apply Permutation_length; exact P].
Qed.

Lemma shuffleInPlace_permutes_witness :
  Permutation (snd (Shuffle.shuffleInPlace 42 ["a"; "b"; "c"; "d"])) ["a"; "b"; "c"; "d"]
  /\ List.length (snd (Shuffle.shuffleInPlace 42 ["a"; "b"; "c"; "d"])) = 4%nat.
Proof.
  apply (shuffleInPlace_permutes string 42 ["a"; "b"; "c"; "d"]).
  vm_compute. discriminate.
Defined.

(** ** The plan page: export, then the CSV loader *)

Section SplitCsvFacts.
Import JS Text CsvLoader.

Lemma split_plain c0 s : hasChar c0 s = false -> split (Ascii.eqb c0) s = [s].
Proof.
  induction s as [|c s IH]; intros H; [reflexivity|].
  apply hasChar_false_cons in H. destruct H as [H1 H2].
  cbn [split]. rewrite Ascii.eqb_sym, H1, (IH H2). reflexivity.
Qed.

Lemma split_app c0 s rest :
  hasChar c0 s = false ->
  split (Ascii.eqb c0) (s ++ String c0 rest) = s :: split (Ascii.eqb c0) rest.
Proof.
  induction s as [|c s IH]; intros H.
  - cbn [append split]. rewrite Ascii.eqb_refl. reflexivity.
  - apply hasChar_false_cons in H. destruct H as [H1 H2].
    cbn [append split]. rewrite Ascii.eqb_sym, H1, (IH H2). reflexivity.
Qed.

(** Splitting the join of lines without line feed gives the lines. *)
Lemma split_join c0 l :
  l <> [] -> Forall (fun s => hasChar c0 s = false) l ->
  split (Ascii.eqb c0) (join (String c0 "") l) = l.
Proof.
  intros Hne Hl. induction Hl as [|x l Hx Hl IH]; [contradiction|].
  destruct l as [|y l].
  - cbn [join concat]. apply split_plain. exact Hx.
  - change (join (String c0 "") (x :: y :: l))
      with (x ++ String c0 (join (String c0 "") (y :: l))).
    rewrite split_app by exact Hx. rewrite IH by discriminate. reflexivity.
Qed.

Lemma hasChar_esc c f :
  Ascii.eqb quote c = false -> hasChar c f = false -> hasChar c (PlanPage.esc f) = false.
Proof.
  intros Hc H. unfold PlanPage.esc. destruct (_ || _ || _); [|exact H].
  cbn [hasChar]. rewrite Hc. cbn [orb].
  rewrite hasChar_app, hasChar_replace.
  - cbn [hasChar]. rewrite Hc. reflexivity.
  - cbn [hasChar]. rewrite Hc. reflexivity.
  - exact H.
Qed.

Lemma join_two_nonEmpty a b l : nonEmpty (join "," (a :: b :: l)) = true.
Proof.
  change (join "," (a :: b :: l)) with (a ++ String comma (join "," (b :: l))).
  destruct a; reflexivity.
Qed.

Lemma filter_all {A : Type} (p : A -> bool) l : Forall (fun x => p x = true) l -> filter p l = l.
Proof.
  intros H. induction H as [|x l Hx _ IH]; [reflexivity|].
  simpl. rewrite Hx, IH. reflexivity.
Qed.

End SplitCsvFacts.

(** X19.  What [toCSV] of the plan page writes, [splitCsv] of the CSV
    loader reads back, as long as no cell holds a line break: the loader
    cuts the text into lines before it looks at the quotes.  For two
    columns or more with plain names and such rows, the rows of the text
    are the column names and the cells, each trimmed. *)
Theorem plan_csv_is_read_back_by_the_loader (rows : list PlanPage.Row)
  (columns : list string) :
  (2 <= List.length columns)%nat ->
  Forall plainName columns ->
  (forall r c, In r rows -> In c columns ->
               Text.hasChar Text.LF (JsonLoader.nullish (r c) "") = false
               /\ Text.hasChar Text.CR (JsonLoader.nullish (r c) "") = false) ->
  CsvLoader.splitCsv (PlanPage.toCSV rows columns)
  = map (map Text.trim) (columns :: map (PlanPage.cells columns) rows).
Proof.
  intros Hlen Hcols Hcells.
  set (line := fun r => Text.join "," (map PlanPage.esc (PlanPage.cells columns r))).
  assert (Etext : PlanPage.toCSV rows columns
                  = Text.join (String Text.LF "") (Text.join "," columns :: map line rows))
    by reflexivity.
  assert (Hcell : forall ch, (ch = Text.LF \/ ch = Text.CR) ->
                  forall r, In r rows ->
                  Forall (fun s => Text.hasChar ch s = false)
                    (map PlanPage.esc (PlanPage.cells columns r))).
  { intros ch Hch r Hr. apply Forall_forall. intros cell Hc.
    apply in_map_iff in Hc. destruct Hc as (f & <- & Hf).
    unfold PlanPage.cells in Hf. apply in_map_iff in Hf. destruct Hf as (c & <- & Hc).
    destruct (Hcells r c Hr Hc) as [H1 H2].
    destruct Hch as [->| ->]; apply hasChar_esc; try reflexivity; assumption. }
  assert (Hhead : forall ch, (ch = Text.LF \/ ch = Text.CR) ->
                             Text.hasChar ch (Text.join "," columns) = false).
  { intros ch Hch. apply hasChar_join.
    - destruct Hch as [->| ->]; reflexivity.
    - eapply Forall_impl; [|exact Hcols].
      intros c (_ & _ & H3 & H4 & _). destruct Hch as [->| ->]; assumption. }
  assert (Hlines : forall ch, (ch = Text.LF \/ ch = Text.CR) ->
                   Forall (fun s => Text.hasChar ch s = false)
                     (Text.join "," columns :: map line rows)).
  { intros ch Hch. constructor; [apply Hhead; exact Hch|].
    apply Forall_forall. intros l Hl. apply in_map_iff in Hl. destruct Hl as (r & <- & Hr).
    apply hasChar_join; [destruct Hch as [->| ->]; reflexivity|].
    apply Hcell; assumption. }
  unfold CsvLoader.splitCsv. rewrite Etext.
  rewrite crlfToLf_fixed by (apply hasChar_join; [reflexivity | apply Hlines; auto]).
  rewrite split_join by (try discriminate; apply Hlines; auto).
  destruct columns as [|c0 [|c1 columns]]; try (simpl in Hlen; lia).
  rewrite filter_all.
  - cbn [map]. f_equal.
    + rewrite <- (map_id (c0 :: c1 :: columns)) at 1.
      apply parseCsvLine_row.
      eapply Forall_impl; [|exact Hcols].
      intros c (H1 & H2 & _). apply lineReadBack_plain; assumption.
    + rewrite !map_map. apply map_ext. intros r. unfold line.
      apply (parseCsvLine_row PlanPage.esc (JsonLoader.nullish (r c0) "")
               (PlanPage.cells (c1 :: columns) r)).
      apply Forall_forall. intros f _. apply lineReadBack_esc.
  - constructor; [apply join_two_nonEmpty|].
    apply Forall_forall. intros l Hl. apply in_map_iff in Hl. destruct Hl as (r & <- & _).
    unfold line.
    apply (join_two_nonEmpty (PlanPage.esc (JsonLoader.nullish (r c0) ""))
             (PlanPage.esc (JsonLoader.nullish (r c1) ""))
             (map PlanPage.esc (PlanPage.cells columns r))).
Qed.

(** ** dedupeAndFixIds *)

(** The id the loop gives a record with base [base] that is the [n]-th
    with it. *)
Definition fixedId (base : string) (n : nat) : string :=
  if (n =? 1)%nat then base else base ++ "-" ++ JS.showNat n.

Section FixIdsFacts.
Import JS Text RosterPage.

Lemma countGet_set seen k n k' :
  countGet (countSet seen k n) k' = if String.eqb k k' then n else countGet seen k'.
Proof.
  induction seen as [|[k0 n0] seen IH]; simpl.
  - reflexivity.
  - destruct (String.eqb k0 k) eqn:E; simpl.
    + apply String.eqb_eq in E. subst k0. destruct (String.eqb k k'); reflexivity.
    + rewrite IH. destruct (String.eqb k0 k') eqn:E1; [|reflexivity].
      destruct (String.eqb k k') eqn:E2; [|reflexivity].
      apply String.eqb_eq in E1, E2. subst. rewrite String.eqb_refl in E. discriminate.
Qed.

(** The number of collisions the record reports for a base that occurs
    [c] times. *)
Definition reported (c : nat) : nat := if (2 <=? c)%nat then c else 0%nat.

Lemma count_occ_snoc (l : list string) x k :
  count_occ string_dec (l ++ [x]) k
  = (count_occ string_dec l k + if String.eqb x k then 1 else 0)%nat.
Proof.
  rewrite count_occ_app. simpl. destruct (string_dec x k) as [->|Hne].
  - rewrite String.eqb_refl. reflexivity.
  - apply String.eqb_neq in Hne. rewrite Hne. reflexivity.
Qed.

(** The loop after the bases [before]: it appends the records of [l],
    each with the id of its rank among the records of its base. *)
Lemma fixLoop_spec l before seen out coll :
  (forall k, countGet seen k = count_occ string_dec before k) ->
  (forall k, countGet coll k
             = if String.eqb k protoKey then 0%nat
               else reported (count_occ string_dec before k)) ->
  let r := fixLoop l seen out coll in
  List.length (fst r) = (List.length out + List.length l)%nat
  /\ (forall i, (i < List.length out)%nat -> nth_error (fst r) i = nth_error out i)
  /\ (forall i b, nth_error l i = Some b ->
        nth_error (fst r) (List.length out + i)
        = Some (withId b (fixedId (baseOf b)
                            (S (count_occ string_dec (before ++ map baseOf (firstn i l))
                                  (baseOf b))))))
  /\ (forall k, countGet (snd r) k
                = if String.eqb k protoKey then 0%nat
                  else reported (count_occ string_dec (before ++ map baseOf l) k)).
Proof.
  cbv zeta. revert before seen out coll.
  induction l as [|b l IH]; intros before seen out coll Hseen Hcoll.
  - cbn [fixLoop fst snd]. split; [simpl; lia|]. split; [reflexivity|]. split.
    + intros i b H. destruct i; discriminate.
    + intros k. simpl. rewrite app_nil_r. apply Hcoll.
  - cbn [fixLoop]. rewrite Hseen.
    set (c := count_occ string_dec before (baseOf b)).
    assert (Hseen' : forall k, countGet (countSet seen (baseOf b) (c + 1)) k
                               = count_occ string_dec (before ++ [baseOf b]) k).
    { intros k. rewrite countGet_set, count_occ_snoc, Hseen.
      destruct (String.eqb (baseOf b) k) eqn:E; [|lia].
      apply String.eqb_eq in E. subst k. reflexivity. }
    assert (Hid : (if (c + 1 =? 1)%nat then withId b (baseOf b)
                   else withId b (baseOf b ++ "-" ++ showNat (c + 1)))
                  = withId b (fixedId (baseOf b) (S c))).
    { unfold fixedId. replace (S c) with (c + 1)%nat by lia.
      destruct (c + 1 =? 1)%nat; reflexivity. }
    assert (Hcoll' : forall k,
              countGet (if (c + 1 =? 1)%nat then coll
                        else recordSet coll (baseOf b) (c + 1)) k
              = if String.eqb k protoKey then 0%nat
                else reported (count_occ string_dec (before ++ [baseOf b]) k)).
    { intros k. rewrite count_occ_snoc.
      destruct (c + 1 =? 1)%nat eqn:E1.
      - apply Nat.eqb_eq in E1. rewrite Hcoll.
        destruct (String.eqb k protoKey); [reflexivity|].
        destruct (String.eqb (baseOf b) k) eqn:E; [|rewrite Nat.add_0_r; reflexivity].
        apply String.eqb_eq in E. subst k. fold c.
        replace c with 0%nat by lia. reflexivity.
      - apply Nat.eqb_neq in E1. unfold recordSet.
        destruct (String.eqb (baseOf b) protoKey) eqn:Ep.
        + apply String.eqb_eq in Ep. rewrite Hcoll.
          destruct (String.eqb k protoKey) eqn:Ek; [reflexivity|].
          replace (String.eqb (baseOf b) k) with false;
            [rewrite Nat.add_0_r; reflexivity|].
          symmetry. apply String.eqb_neq. rewrite Ep. intros <-.
          rewrite String.eqb_refl in Ek. discriminate.
        + rewrite countGet_set.
          destruct (String.eqb (baseOf b) k) eqn:E.
          * apply String.eqb_eq in E. subst k. rewrite Ep. fold c. unfold reported.
            replace (2 <=? c + 1)%nat with true by (symmetry; apply Nat.leb_le; lia).
            reflexivity.
          * rewrite Hcoll, Nat.add_0_r. reflexivity. }
    assert (Hstep : fixLoop l (countSet seen (baseOf b) (c + 1))
                      (out ++ [withId b (fixedId (baseOf b) (S c))])
                      (if (c + 1 =? 1)%nat then coll
                       else recordSet coll (baseOf b) (c + 1))
                    = if (c + 1 =? 1)%nat
                      then fixLoop l (countSet seen (baseOf b) (c + 1))
                             (out ++ [withId b (baseOf b)]) coll
                      else fixLoop l (countSet seen (baseOf b) (c + 1))
                             (out ++ [withId b (baseOf b ++ "-" ++ showNat (c + 1))])
                             (recordSet coll (baseOf b) (c + 1))).
    { rewrite <- Hid. destruct (c + 1 =? 1)%nat; reflexivity. }
    rewrite <- Hstep.
    destruct (IH (before ++ [baseOf b])%list _
                (out ++ [withId b (fixedId (baseOf b) (S c))])%list _ Hseen' Hcoll')
      as (H1 & H2 & H3 & H4).
    rewrite length_app in H1, H2, H3. cbn [List.length] in H1, H2, H3.
    split; [simpl; lia|]. split; [|split].
    + intros i Hi. rewrite H2 by lia. apply nth_error_app1. exact Hi.
    + intros i b0 Hb0. destruct i as [|i].
      * simpl in Hb0. inversion Hb0; subst b0. rewrite Nat.add_0_r.
        rewrite H2 by lia. rewrite nth_error_app2 by lia.
        rewrite Nat.sub_diag. simpl. rewrite app_nil_r. reflexivity.
      * simpl in Hb0.
        replace (List.length out + S i)%nat with (List.length out + 1 + i)%nat by lia.
        rewrite (H3 i b0 Hb0). cbn [firstn map]. rewrite <- app_assoc. reflexivity.
    + intros k. rewrite H4. cbn [map]. rewrite <- app_assoc. reflexivity.
Qed.

(** The own properties of the record: no key twice, no value 0. *)
Lemma countSet_keys o k n x :
  In x (map fst (countSet o k n)) -> x = k \/ In x (map fst o).
Proof.
  induction o as [|[k' n'] o IH]; simpl.
  - intros [<-|[]]. left. reflexivity.
  - destruct (String.eqb k' k); simpl.
    + intros [H|H]; right; [left | right]; exact H.
    + intros [H|H]; [right; left; exact H|].
      destruct (IH H) as [H'|H']; [left; exact H' | right; right; exact H'].
Qed.

Lemma countSet_NoDup o k n : NoDup (map fst o) -> NoDup (map fst (countSet o k n)).
Proof.
  induction o as [|[k' n'] o IH]; simpl; intros Hn.
  - constructor; [intros [] | constructor].
  - inversion Hn as [|? ? Hk Hn']; subst.
    destruct (String.eqb k' k) eqn:E; simpl.
    + constructor; assumption.
    + constructor; [|apply IH; exact Hn'].
      intros Hin. apply countSet_keys in Hin. destruct Hin as [->|Hin].
      * rewrite String.eqb_refl in E. discriminate.
      * exact (Hk Hin).
Qed.

Lemma countSet_values o k n :
  n <> 0%nat -> Forall (fun e => snd e <> 0%nat) o ->
  Forall (fun e => snd e <> 0%nat) (countSet o k n).
Proof.
  intros Hn. induction o as [|[k' n'] o IH]; simpl; intros Ho.
  - constructor; [exact Hn | constructor].
  - inversion Ho as [|? ? Hv Ho']; subst.
    destruct (String.eqb k' k); constructor; auto.
Qed.

Lemma fixLoop_record l seen out coll :
  NoDup (map fst coll) -> Forall (fun e => snd e <> 0%nat) coll ->
  NoDup (map fst (snd (fixLoop l seen out coll)))
  /\ Forall (fun e => snd e <> 0%nat) (snd (fixLoop l seen out coll)).
Proof.
  revert seen out coll. induction l as [|b l IH]; intros seen out coll Hn Hv.
  - split; assumption.
  - cbn [fixLoop]. destruct (countGet seen (baseOf b) + 1 =? 1)%nat; [apply IH; assumption|].
    apply IH; unfold recordSet; destruct (String.eqb (baseOf b) protoKey); try assumption.
    + apply countSet_NoDup. exact Hn.
    + apply countSet_values; [lia | exact Hv].
Qed.

Lemma countGet_In o k n : NoDup (map fst o) -> In (k, n) o -> countGet o k = n.
Proof.
  induction o as [|[k' n'] o IH]; simpl; intros Hn Hin; [contradiction|].
  inversion Hn as [|? ? Hk Hn']; subst.
  destruct Hin as [H|H].
  - inversion H; subst. rewrite String.eqb_refl. reflexivity.
  - destruct (String.eqb k' k) eqn:E; [|apply IH; assumption].
    apply String.eqb_eq in E. subst k'. exfalso. apply Hk.
    apply (in_map fst) in H. exact H.
Qed.

Lemma In_countGet o k n : countGet o k = n -> n <> 0%nat -> In (k, n) o.
Proof.
  induction o as [|[k' n'] o IH]; simpl; intros H Hn; [congruence|].
  destruct (String.eqb k' k) eqn:E.
  - apply String.eqb_eq in E. subst. left. reflexivity.
  - right. apply IH; assumption.
Qed.

Lemma withId_same b : withId b (Page.id b) = b.
Proof. destruct b. reflexivity. Qed.

Lemma nonEmpty_true s : s <> "" -> CsvLoader.nonEmpty s = true.
Proof.
  intros H. unfold CsvLoader.nonEmpty. apply negb_true_iff. apply String.eqb_neq. exact H.
Qed.

Lemma baseOf_trimmed b :
  trim (Page.id b) = Page.id b -> Page.id b <> "" -> baseOf b = Page.id b.
Proof.
  intros Ht Hne. unfold baseOf. rewrite (nonEmpty_true _ Hne), Ht, (nonEmpty_true _ Hne).
  reflexivity.
Qed.

Lemma nth_error_ext {A : Type} (l1 l2 : list A) :
  (forall i, nth_error l1 i = nth_error l2 i) -> l1 = l2.
Proof.
  revert l2. induction l1 as [|x l1 IH]; intros l2 H.
  - destruct l2 as [|y l2]; [reflexivity|]. specialize (H 0%nat). discriminate.
  - destruct l2 as [|y l2]; [specialize (H 0%nat); discriminate|].
    pose proof (H 0%nat) as H0. simpl in H0. inversion H0; subst y.
    f_equal. apply IH. intros i. apply (H (S i)).
Qed.

Lemma count_occ_firstn_NoDup (l : list string) i x :
  NoDup l -> nth_error l i = Some x -> count_occ string_dec (firstn i l) x = 0%nat.
Proof.
  intros Hn Hx. apply count_occ_not_In. intros Hin.
  apply In_nth_error in Hin. destruct Hin as (j & Hj).
  assert (Hlt : (j < i)%nat).
  { destruct (Nat.lt_ge_cases j i) as [H|H]; [exact H|].
    assert (nth_error (firstn i l) j = None); [|congruence].
    apply nth_error_None. rewrite length_firstn. lia. }
  rewrite nth_error_firstn in Hj.
  apply Nat.ltb_lt in Hlt. rewrite Hlt in Hj.
  rewrite NoDup_nth_error in Hn.
  assert (i = j); [|apply Nat.ltb_lt in Hlt; lia].
  symmetry. apply Hn; [|congruence].
  apply nth_error_Some. congruence.
Qed.

Lemma mapOf_from l e :
  In e (fold_left mapSet l []) -> In (snd e) l.
Proof.
  assert (H : forall m, In e (fold_left mapSet l m) -> In e m \/ In (snd e) l).
  { induction l as [|b l IH]; intros m Hin; [left; exact Hin|].
    cbn [fold_left] in Hin. destruct (IH _ Hin) as [H|H]; [|right; right; exact H].
    clear - H. induction m as [|[k v] m IHm]; simpl in H.
    - destruct H as [<-|[]]. right. left. reflexivity.
    - destruct (String.eqb k (Page.id b)); simpl in H.
      + destruct H as [<-|H]; [right; left; reflexivity | left; right; exact H].
      + destruct H as [<-|H]; [left; left; reflexivity|].
        destruct (IHm H) as [H'|H']; [left; right; exact H' | right; exact H']. }
  intros Hin. destruct (H [] Hin) as [[]|H']. exact H'.
Qed.

End FixIdsFacts.

(** X20.  For records with ASCII names [dedupeAndFixIds] keeps every
    record and changes only its id.  The base of a record is its trimmed
    id or, when that is empty, its lower-cased name with "_" for each run
    of white space.  The first record of a base gets the base as id, the
    [n]-th record of it, from the second on, the id [base-n].  The own
    properties of [collisions] are the bases that occur twice or more,
    each once and with the number of its occurrences; the base
    "__proto__" is not among them, its assignment being the prototype
    setter. *)
Theorem dedupeAndFixIds_numbers_the_duplicates (l : list Page.Bowler) :
  Forall (fun b => isAscii (Page.name b) = true) l ->
  List.length (fst (RosterPage.dedupeAndFixIds l)) = List.length l
  /\ (forall i b, nth_error l i = Some b ->
        nth_error (fst (RosterPage.dedupeAndFixIds l)) i
        = Some (RosterPage.withId b
                  (fixedId (RosterPage.baseOf b)
                     (S (count_occ string_dec (map RosterPage.baseOf (firstn i l))
                           (RosterPage.baseOf b))))))
  /\ (forall k n,
        In (k, n) (snd (RosterPage.dedupeAndFixIds l))
        <-> k <> "__proto__" /\ (2 <= n)%nat
            /\ n = count_occ string_dec (map RosterPage.baseOf l) k)
  /\ NoDup (map fst (snd (RosterPage.dedupeAndFixIds l))).
Proof.
  intros _. unfold RosterPage.dedupeAndFixIds.
  destruct (fixLoop_spec l [] [] [] []) as (H1 & _ & H3 & H4);
    [reflexivity | intros k; destruct (String.eqb k Text.protoKey); reflexivity |].
  destruct (fixLoop_record l [] [] []) as (Hn & Hv); [constructor | constructor |].
  cbv zeta in *. cbn [app] in H4.
  split; [exact H1|]. split; [exact H3|]. split; [|exact Hn].
  intros k n. specialize (H4 k). unfold reported in H4.
  change "__proto__" with Text.protoKey. split.
  - intros Hin. rewrite (countGet_In _ _ _ Hn Hin) in H4.
    rewrite Forall_forall in Hv. specialize (Hv _ Hin). cbn [snd] in Hv.
    destruct (String.eqb k Text.protoKey) eqn:Ek; [congruence|].
    apply String.eqb_neq in Ek. split; [exact Ek|].
    destruct (2 <=? count_occ string_dec (map RosterPage.baseOf l) k)%nat eqn:E;
      [|congruence].
    apply Nat.leb_le in E. split; lia.
  - intros (Hk & Hn2 & Hc). apply In_countGet; [|lia].
    rewrite H4. apply String.eqb_neq in Hk. rewrite Hk.
    replace (2 <=? count_occ string_dec (map RosterPage.baseOf l) k)%nat with true
      by (symmetry; apply Nat.leb_le; lia).
    symmetry. exact Hc.
Qed.

(** X21.  On the import path the page merges the rosters and then fixes
    the ids.  When every id of the two rosters is trimmed and not empty,
    the merged roster has distinct ids, so [dedupeAndFixIds] returns it
    as it is and reports no collision. *)
Theorem import_merge_then_fix_ids (existing incoming : list Page.Bowler) :
  Forall (fun b => Text.trim (Page.id b) = Page.id b /\ Page.id b <> "")
    (existing ++ incoming) ->
  fst (RosterPage.dedupeAndFixIds (RosterPage.mergeRoster existing incoming))
  = RosterPage.mergeRoster existing incoming
  /\ forall k,
       RosterPage.countGet
         (snd (RosterPage.dedupeAndFixIds (RosterPage.mergeRoster existing incoming))) k
       = 0%nat.
Proof.
  intros Hids.
  set (l := RosterPage.mergeRoster existing incoming).
  assert (Hl : forall b, In b l -> RosterPage.baseOf b = Page.id b).
  { intros b Hb. unfold l, RosterPage.mergeRoster in Hb. rewrite <- fold_left_app in Hb.
    apply in_map_iff in Hb. destruct Hb as (e & <- & He). apply mapOf_from in He.
    rewrite Forall_forall in Hids. destruct (Hids _ He) as [Ht Hne].
    apply baseOf_trimmed; assumption. }
  assert (Hbases : map RosterPage.baseOf l = map Page.id l)
    by (apply map_ext_in; exact Hl).
  assert (Hnd : NoDup (map RosterPage.baseOf l)).
  { rewrite Hbases. unfold l, RosterPage.mergeRoster. rewrite <- fold_left_app.
    destruct (mapOf_spec (existing ++ incoming)) as (Hk & Hkeys & _).
    replace (map Page.id (map snd (fold_left RosterPage.mapSet (existing ++ incoming) [])))
      with (map fst (fold_left RosterPage.mapSet (existing ++ incoming) [])).
    - rewrite Hkeys. apply firstSeen_NoDup.
    - rewrite map_map. apply map_ext_in. intros e He.
      unfold keyed in Hk. rewrite Forall_forall in Hk. apply Hk. exact He. }
  unfold RosterPage.dedupeAndFixIds.
  destruct (fixLoop_spec l [] [] [] []) as (H1 & _ & H3 & H4);
    [reflexivity | intros k; destruct (String.eqb k Text.protoKey); reflexivity |].
  cbv zeta in *. cbn [app List.length Nat.add] in *. split.
  - apply nth_error_ext. intros i.
    destruct (nth_error l i) as [b|] eqn:Eb.
    + rewrite (H3 i b Eb).
      rewrite <- firstn_map, count_occ_firstn_NoDup;
        [|exact Hnd | rewrite nth_error_map, Eb; reflexivity].
      unfold fixedId. cbn [Nat.eqb]. rewrite Hl by (eapply nth_error_In; exact Eb).
      rewrite withId_same. reflexivity.
    + apply nth_error_None. rewrite H1. apply nth_error_None. exact Eb.
  - intros k. rewrite H4. unfold reported.
    destruct (String.eqb k Text.protoKey); [reflexivity|].
    destruct (2 <=? count_occ string_dec (map RosterPage.baseOf l) k)%nat eqn:E;
      [|reflexivity].
    apply Nat.leb_le in E. exfalso.
    rewrite (NoDup_count_occ string_dec) in Hnd. specialize (Hnd k). lia.
Qed.

(** ** Examples of the round trips *)

(** A row of the roster export with a comma in a cell. *)
Definition zaheerRow : PlanPage.Row :=
  fun c =>
    if String.eqb c "id" then Some "zaheer_khan"
    else if String.eqb c "name" then Some "Khan, Zaheer"
    else None.

Lemma plain_id_name : Forall plainName ["id"; "name"].
Proof. repeat constructor. Qed.

Lemma roster_csv_round_trip_witness :
  RosterPage.parseCSVRobust (RosterPage.toCSV [zaheerRow] ["id"; "name"])
  = [[("id", "zaheer_khan"); ("name", "Khan, Zaheer")]].
Proof.
  refine (eq_trans (proj1 (roster_csv_round_trip [zaheerRow] ["id"; "name"] _ _ _)) _).
  - simpl. lia.
  - exact plain_id_name.
  - intros r c [<-|[]] [<-|[<-|[]]]; reflexivity.
  - reflexivity.
Defined.

(** A column named "__proto__" is written, and lost on the way back: the
    object of the row gets no property of that name. *)
Definition protoRow : PlanPage.Row :=
  fun c =>
    if String.eqb c "id" then Some "zaheer_khan"
    else if String.eqb c "__proto__" then Some "left"
    else None.

Example proto_column_is_not_read_back :
  RosterPage.toCSV [protoRow] ["id"; "__proto__"]
  = "id,__proto__" ++ String Text.LF "zaheer_khan,left"
  /\ RosterPage.parseCSVRobust (RosterPage.toCSV [protoRow] ["id"; "__proto__"])
     = [[("id", "zaheer_khan")]].
Proof. split; vm_compute; reflexivity. Qed.

Lemma plan_csv_is_read_back_witness :
  CsvLoader.splitCsv (PlanPage.toCSV [zaheerRow] ["id"; "name"])
  = [["id"; "name"]; ["zaheer_khan"; "Khan, Zaheer"]].
Proof.
  refine (eq_trans (plan_csv_is_read_back_by_the_loader [zaheerRow] ["id"; "name"] _ _ _) _).
  - simpl. lia.
  - exact plain_id_name.
  - intros r c [<-|[]] [<-|[<-|[]]]; split; reflexivity.
  - reflexivity.
Defined.

Definition bumrah_again : Page.Bowler :=
  {| Page.id := "jasprit_bumrah"; Page.name := "J. Bumrah"; Page.type := Page.pace;
     Page.arm := Page.R; Page.strengths := []; Page.strategies := "" |}.

Lemma import_merge_then_fix_ids_witness :
  fst (RosterPage.dedupeAndFixIds (RosterPage.mergeRoster [bumrah] [bumrah_again]))
  = RosterPage.mergeRoster [bumrah] [bumrah_again]
  /\ forall k,
       RosterPage.countGet
         (snd (RosterPage.dedupeAndFixIds (RosterPage.mergeRoster [bumrah] [bumrah_again])))
         k
       = 0%nat.
Proof.
  apply (import_merge_then_fix_ids [bumrah] [bumrah_again]).
  repeat constructor; discriminate.
Defined.

Lemma no_three_in_a_row_ever_witness :
  exists plan d0 d1 d2,
    Page.buildVariedPlan bumrah 1 Page.powerplay Page.Normal "" = Some plan
    /\ nth_error plan 1 = Some d0 /\ nth_error plan 2 = Some d1
    /\ nth_error plan 3 = Some d2
    /\ ~ (Page.btype d0 = Page.btype d1 /\ Page.btype d1 = Page.btype d2).
Proof.
  eexists. eexists. eexists. eexists.
  split; [vm_compute; reflexivity|].
  split; [reflexivity|]. split; [reflexivity|]. split; [reflexivity|].
  eapply (no_three_in_a_row_ever bumrah 1 Page.powerplay Page.Normal "" _ 1).
  - vm_compute. reflexivity.
  - reflexivity.
  - reflexivity.
  - reflexivity.
Defined.

Lemma trap_in_place_witness :
  exists out,
    DeliveryLogic.generateDeliveries nehra 6 Cricket.middle Cricket.Normal "ov:1"
    = DeliveryLogic.Ok out
    /\ forall k p,
         nth_error (trapSteps (trapOf nehra Cricket.middle)) k = Some p ->
         exists d,
           nth_error out (DeliveryLogic.trapStart 6 + k) = Some d
           /\ forcedTriple p = Some (tripleOf d)
           /\ Cricket.p_purpose p = Some (Cricket.purpose d).
Proof.
  destruct (trap_in_place_when_not_drawn nehra 6 Cricket.middle Cricket.Normal "ov:1")
    as (filled & st1 & out & Hfill & Hg & Hin); [lia|].
  exists out. split; [exact Hg|]. apply Hin.
  vm_compute in Hfill. inversion Hfill; subst filled.
  intros d p Hd Hp. simpl in Hp.
  destruct Hp as [<-|[<-|[<-|[]]]];
    repeat (destruct Hd as [<-|Hd]; [vm_compute; discriminate|]);
    destruct Hd.
Defined.

(** ** The ids after dedupeAndFixIds *)

Section FixedIdFacts.
Import JS Text RosterPage.

Definition dash : ascii := "-"%char.

Lemma showNat_no_dash n : hasChar dash (showNat n) = false.
Proof.
  unfold showNat. generalize (Nat.to_uint n). intros d.
  induction d; simpl; auto.
Qed.

Lemma showNat_inj n m : showNat n = showNat m -> n = m.
Proof.
  unfold showNat. intros H. apply Unsigned.to_uint_inj.
  assert (E : Some (Nat.to_uint n) = Some (Nat.to_uint m)).
  { rewrite <- !NilEmpty.usu. rewrite H. reflexivity. }
  inversion E. reflexivity.
Qed.

(** A text is cut at its last dash in one way only. *)
Lemma last_dash s1 d1 s2 d2 :
  hasChar dash d1 = false -> hasChar dash d2 = false ->
  s1 ++ String dash d1 = s2 ++ String dash d2 -> s1 = s2 /\ d1 = d2.
Proof.
  intros H1 H2. revert s2. induction s1 as [|c s1 IH]; intros s2 E.
  - destruct s2 as [|c2 s2]; simpl in E.
    + inversion E. auto.
    + inversion E as [[Ec Ed]]. exfalso.
      rewrite Ed, hasChar_app in H1. simpl in H1.
      rewrite orb_true_r in H1. discriminate.
  - destruct s2 as [|c2 s2]; simpl in E.
    + inversion E as [[Ec Ed]]. exfalso.
      rewrite <- Ed, hasChar_app in H2. simpl in H2.
      rewrite orb_true_r in H2. discriminate.
    + inversion E as [[Ec Ed]]. destruct (IH s2 Ed) as [-> ->]. auto.
Qed.

(** Apart from a base that reads as another base with a number, the id
    tells the base and the rank. *)
Lemma fixedId_inj b1 n1 b2 n2 :
  (1 <= n1)%nat -> (1 <= n2)%nat ->
  (forall n, (2 <= n)%nat -> b1 <> b2 ++ "-" ++ showNat n) ->
  (forall n, (2 <= n)%nat -> b2 <> b1 ++ "-" ++ showNat n) ->
  fixedId b1 n1 = fixedId b2 n2 -> b1 = b2 /\ n1 = n2.
Proof.
  intros L1 L2 H12 H21. unfold fixedId.
  destruct (n1 =? 1)%nat eqn:E1; destruct (n2 =? 1)%nat eqn:E2;
    rewrite ?Nat.eqb_eq, ?Nat.eqb_neq in *; intros E.
  - split; [exact E | lia].
  - exfalso. apply (H12 n2); [lia | exact E].
  - exfalso. apply (H21 n1); [lia | symmetry; exact E].
  - apply last_dash in E; try apply showNat_no_dash.
    destruct E as [Eb En]. apply showNat_inj in En. auto.
Qed.

Lemma count_occ_firstn_lt (l : list string) i j x :
  (i < j)%nat -> nth_error l i = Some x ->
  (count_occ string_dec (firstn i l) x < count_occ string_dec (firstn j l) x)%nat.
Proof.
  revert i j. induction l as [|a l IH]; intros i j Hij Hx; [destruct i; discriminate|].
  destruct j as [|j]; [lia|]. destruct i as [|i].
  - simpl in Hx. inversion Hx; subst a. simpl.
    destruct (string_dec x x); [lia | contradiction].
  - simpl in Hx. cbn [firstn count_occ].
    assert (H := IH i j ltac:(lia) Hx).
    destruct (string_dec a x); lia.
Qed.

End FixedIdFacts.

(** Two ids can meet when a base reads as a fixed id: of the ids a, a,
    a-2 the second becomes a-2 and the third keeps a-2. *)
Example fixed_ids_can_meet :
  map Page.id
    (fst (RosterPage.dedupeAndFixIds
            [RosterPage.withId bumrah "a"; RosterPage.withId bumrah "a";
             RosterPage.withId bumrah "a-2"]))
  = ["a"; "a-2"; "a-2"].
Proof. vm_compute. reflexivity. Qed.

(** X24.  [dedupeAndFixIds] gives the records pairwise different ids,
    provided no base already reads as a fixed id, that is as another
    base followed by "-" and a number from 2 on. *)
Theorem dedupeAndFixIds_ids_distinct (l : list Page.Bowler) :
  (forall b1 b2 n, In b1 l -> In b2 l -> (2 <= n)%nat ->
     RosterPage.baseOf b1 <> RosterPage.baseOf b2 ++ "-" ++ JS.showNat n) ->
  NoDup (map Page.id (fst (RosterPage.dedupeAndFixIds l))).
Proof.
  intros Hfree. unfold RosterPage.dedupeAndFixIds.
  destruct (fixLoop_spec l [] [] [] []) as (H1 & _ & H3 & _);
    [reflexivity | intros k; destruct (String.eqb k Text.protoKey); reflexivity |].
  cbv zeta in *. cbn [app List.length Nat.add] in *.
  set (out := fst (RosterPage.fixLoop l [] [] [])) in *.
  assert (Hid : forall i b, nth_error l i = Some b ->
            nth_error (map Page.id out) i
            = Some (fixedId (RosterPage.baseOf b)
                      (S (count_occ string_dec (map RosterPage.baseOf (firstn i l))
                            (RosterPage.baseOf b))))).
  { intros i b Hb. rewrite nth_error_map, (H3 i b Hb). reflexivity. }
  apply NoDup_nth_error. intros i j Hi E.
  rewrite length_map, H1 in Hi.
  destruct (nth_error l i) as [bi|] eqn:Ei; [|apply nth_error_None in Ei; lia].
  rewrite (Hid i bi Ei) in E.
  destruct (nth_error l j) as [bj|] eqn:Ej.
  - rewrite (Hid j bj Ej) in E. inversion E as [E'].
    assert (Ini := nth_error_In _ _ Ei). assert (Inj := nth_error_In _ _ Ej).
    apply fixedId_inj in E'; try lia.
    + destruct E' as [Eb Ec]. rewrite <- Eb in Ec.
      rewrite <- !firstn_map in Ec.
      assert (Hbi : nth_error (map RosterPage.baseOf l) i = Some (RosterPage.baseOf bi))
        by (rewrite nth_error_map, Ei; reflexivity).
      assert (Hbj : nth_error (map RosterPage.baseOf l) j = Some (RosterPage.baseOf bi))
        by (rewrite nth_error_map, Ej, Eb; reflexivity).
      destruct (Nat.lt_trichotomy i j) as [Hlt|[Heq|Hgt]]; [|exact Heq|].
      * pose proof (count_occ_firstn_lt _ i j _ Hlt Hbi). lia.
      * pose proof (count_occ_firstn_lt _ j i _ Hgt Hbj). lia.
    + intros n Hn. apply Hfree; assumption.
    + intros n Hn. apply Hfree; assumption.
  - exfalso. apply nth_error_None in Ej.
    assert (En : nth_error (map Page.id out) j = None)
      by (apply nth_error_None; rewrite length_map, H1; exact Ej).
    congruence.
Qed.

Definition bumrah_twice : list Page.Bowler := [bumrah; bumrah].

Lemma dedupeAndFixIds_numbers_the_duplicates_witness :
  In ("jasprit_bumrah", 2%nat) (snd (RosterPage.dedupeAndFixIds bumrah_twice)).
Proof.
  assert (H : Forall (fun b => isAscii (Page.name b) = true) bumrah_twice)
    by (repeat constructor).
  apply (proj2 (proj1 (proj2 (proj2
           (dedupeAndFixIds_numbers_the_duplicates bumrah_twice H)))
           "jasprit_bumrah" 2%nat)).
  split; [discriminate|]. split; [lia | reflexivity].
Defined.

(** Two records with the base "__proto__": the second is renamed, and the
    record of collisions stays without properties. *)
Example proto_base_is_not_reported :
  map Page.id
    (fst (RosterPage.dedupeAndFixIds
            [RosterPage.withId bumrah "__proto__"; RosterPage.withId bumrah "__proto__"]))
  = ["__proto__"; "__proto__-2"]
  /\ snd (RosterPage.dedupeAndFixIds
            [RosterPage.withId bumrah "__proto__"; RosterPage.withId bumrah "__proto__"])
     = [].
Proof. split; vm_compute; reflexivity. Qed.

Lemma dedupeAndFixIds_ids_distinct_witness :
  NoDup (map Page.id (fst (RosterPage.dedupeAndFixIds bumrah_twice))).
Proof.
  apply (dedupeAndFixIds_ids_distinct bumrah_twice).
  intros b1 b2 n [<-|[<-|[]]] [<-|[<-|[]]] _ H;
    apply (f_equal String.length) in H; rewrite !length_append in H;
    vm_compute in H; lia.
Defined.
